(** * Student record store (cms.c, input_validation.c, main.c)

    A shallow embedding of the in-memory record store, its hash index, the
    undo/redo history, the persistence layer and the command parser, followed
    by the properties of the specification that were checked against it.

    Conventions of the embedding.
    - A C string is a [list ascii] without the terminating NUL; where the
      source reads raw file bytes as a C string the cut at the first NUL is
      written out ([cstr]).
    - [int] values are [Z]; the places where the source can overflow are
      either excluded by a returned [None] or discussed where they matter.
    - [float] marks are kept abstract ([FloatOps]): the store only compares,
      parses and prints them.  Concrete runs use exact decimal rationals.
    - Nodes live in a heap [gmap addr Node]; [malloc] hands out the next
      fresh address and [free] deletes the cell.  A function returns [None]
      exactly where the C program has no defined behaviour (a read through a
      dangling pointer, an out-of-bounds table index, an overflowing
      [strcpy]) or walks a cyclic chain for ever.  [malloc] itself is
      assumed to succeed. *)

From Stdlib Require Import ZArith QArith.QArith_base QArith.Qreduction.
From Stdlib Require Import List String Ascii Bool Lia Permutation Sorted.
From stdpp Require Import base option list gmap strings.

Close Scope Q_scope.
Open Scope Z_scope.

(** ** C strings and the libc functions the sources use *)

Abbreviation cstring := (list ascii).

Definition c (s : string) : cstring := list_ascii_of_string s.

Definition NUL : ascii := ascii_of_nat 0.
Definition TAB : ascii := ascii_of_nat 9.
Definition LF : ascii := ascii_of_nat 10.
Definition CR : ascii := ascii_of_nat 13.
Definition DQUOTE : ascii := ascii_of_nat 34.

Definition code (ch : ascii) : Z := Z.of_N (N_of_ascii ch).

Definition chr (n : Z) : ascii := ascii_of_N (Z.to_N n).

Definition ascii_eqb (a b : ascii) : bool := Ascii.eqb a b.

(** [isspace], [isdigit], [toupper], [tolower] in the C locale. *)
Definition isspace (ch : ascii) : bool :=
  let n := code ch in (n =? 32) || ((9 <=? n) && (n <=? 13)).

Definition isdigit (ch : ascii) : bool :=
  let n := code ch in (48 <=? n) && (n <=? 57).

Definition toupper (ch : ascii) : ascii :=
  let n := code ch in if (97 <=? n) && (n <=? 122) then chr (n - 32) else ch.

Definition tolower (ch : ascii) : ascii :=
  let n := code ch in if (65 <=? n) && (n <=? 90) then chr (n + 32) else ch.

(** The bytes of a buffer up to its first NUL. *)
Fixpoint cstr (s : cstring) : cstring :=
  match s with
  | [] => []
  | ch :: s' => if ascii_eqb ch NUL then [] else ch :: cstr s'
  end.

Fixpoint cstring_eqb (a b : cstring) : bool :=
  match a, b with
  | [], [] => true
  | x :: a', y :: b' => ascii_eqb x y && cstring_eqb a' b'
  | _, _ => false
  end.

(** [strncasecmp(s, key, strlen(key)) == 0]: [key] is a prefix of [s] up to
    letter case. *)
Fixpoint prefix_nocase (key s : cstring) : bool :=
  match key, s with
  | [], _ => true
  | k :: key', x :: s' => ascii_eqb (tolower k) (tolower x) && prefix_nocase key' s'
  | _ :: _, [] => false
  end.

Fixpoint is_prefix (key s : cstring) : bool :=
  match key, s with
  | [], _ => true
  | k :: key', x :: s' => ascii_eqb k x && is_prefix key' s'
  | _ :: _, [] => false
  end.

(** [strstr(s, needle) != NULL]. *)
Fixpoint strstr (s needle : cstring) : bool :=
  is_prefix needle s ||
  match s with
  | [] => false
  | _ :: s' => strstr s' needle
  end.

(** [strcspn(s, "\r\n")] followed by the cut [line[...] = 0], on a buffer
    that may hold a NUL: the characters before the first CR, LF or NUL. *)
Fixpoint cut_eol (s : cstring) : cstring :=
  match s with
  | [] => []
  | ch :: s' =>
      if ascii_eqb ch CR || ascii_eqb ch LF || ascii_eqb ch NUL then []
      else ch :: cut_eol s'
  end.

(** [strchr(ptr, '\t')]: the field before the first TAB and, when there is a
    TAB, the text after it. *)
Fixpoint split_tab (s : cstring) : cstring * option cstring :=
  match s with
  | [] => ([], None)
  | ch :: s' =>
      if ascii_eqb ch TAB then ([], Some s')
      else let '(f, r) := split_tab s' in (ch :: f, r)
  end.

(** One [fgets(line, n + 1, file)] on the unread part [s] of a file: at most
    [n] characters, stopping after a line feed; returns the characters read
    and the part still unread. *)
Fixpoint fgets (n : nat) (s : cstring) : cstring * cstring :=
  match n, s with
  | S n', ch :: s' =>
      if ascii_eqb ch LF then ([ch], s')
      else let '(l, r) := fgets n' s' in (ch :: l, r)
  | _, _ => ([], s)
  end.

Definition INT_MIN : Z := - 2 ^ 31.
Definition INT_MAX : Z := 2 ^ 31 - 1.

Definition in_int (z : Z) : bool := (INT_MIN <=? z) && (z <=? INT_MAX).

Definition digit_val (ch : ascii) : Z := code ch - 48.

Fixpoint digits_acc (acc : Z) (s : cstring) : Z :=
  match s with
  | ch :: s' => if isdigit ch then digits_acc (10 * acc + digit_val ch) s' else acc
  | [] => acc
  end.

Fixpoint skip_spaces (s : cstring) : cstring :=
  match s with
  | ch :: s' => if isspace ch then skip_spaces s' else s
  | [] => []
  end.

(** [atoi]: leading white space, an optional sign, then decimal digits.  A
    value outside [int] has no defined result. *)
Definition atoi (s : cstring) : option Z :=
  let v :=
    match skip_spaces s with
    | ch :: s' =>
        if ascii_eqb ch "-"%char then - digits_acc 0 s'
        else if ascii_eqb ch "+"%char then digits_acc 0 s'
        else digits_acc 0 (ch :: s')
    | [] => 0
    end in
  if in_int v then Some v else None.

(** [%d] of [printf]. *)
Fixpoint dec_digits (fuel : nat) (n : Z) (acc : cstring) : cstring :=
  match fuel with
  | O => acc
  | S fuel' =>
      let acc' := chr (48 + n mod 10) :: acc in
      if n <? 10 then acc' else dec_digits fuel' (n / 10) acc'
  end.

Definition fmt_d (z : Z) : cstring :=
  if z <? 0 then c "-" ++ dec_digits (S (Z.to_nat (Z.log2 (- z)))) (- z) []
  else dec_digits (S (Z.to_nat (Z.log2 z))) z [].

(** ** The [float] type of marks *)

(** What the sources do with a [float]: the literals [0.0f] and [100.0f], the
    comparisons [<] and [<=] (with [a > b] read as [b < a] and [a >= b] as
    [b <= a]), [(float) atof(s)] and the conversion [%.1f]. *)
Class FloatOps := {
  float : Type;
  f_zero : float;
  f_hundred : float;
  f_lt : float -> float -> bool;
  f_le : float -> float -> bool;
  atof : cstring -> float;
  fmt_1f : float -> cstring
}.

(** ** Data structures (headers/cms.h) *)

Definition MAX_LINE : nat := 256.
Definition MAX_NAME : nat := 100.
Definition MAX_PROGRAMME : nat := 100.
Definition TABLE_SIZE : Z := 2003.

Abbreviation addr := nat.

Section Store.
Context {F : FloatOps}.

Record StudentRecord := mkRecord {
  id : Z;
  name : cstring;
  programme : cstring;
  mark : float
}.

(** [next] links the record list, [hashNext] is the field meant for the hash
    chains. *)
Record Node := mkNode {
  data : StudentRecord;
  next : option addr;
  hashNext : option addr
}.

(** An [Action] with the payload its [ActionType] initialises: [newData] for
    an insert, [oldData] and [newData] for an update, [oldData] for a delete,
    nothing for a restore. *)
Inductive Action :=
| INSERT_OP (newData : StudentRecord)
| UPDATE_OP (oldData newData : StudentRecord)
| DELETE_OP (oldData : StudentRecord)
| RESTORE_OP.

(** The global variables of cms.c, the two data files and the text printed
    so far.  [disk] maps a path to the content of the file, when it exists. *)
Record CMS := mkCMS {
  heap : gmap addr Node;
  brk : addr;
  head : option addr;
  tail : option addr;
  hashTable : gmap Z addr;
  dbModified : bool;
  dbLoaded : bool;
  undoStack : list Action;
  redoStack : list Action;
  disk : gmap string cstring;
  readonly : gset string;
  stdout : list cstring
}.

Definition set_heap (h : gmap addr Node) (st : CMS) : CMS :=
  mkCMS h (brk st) (head st) (tail st) (hashTable st) (dbModified st) (dbLoaded st)
    (undoStack st) (redoStack st) (disk st) (readonly st) (stdout st).

Definition set_brk (b : addr) (st : CMS) : CMS :=
  mkCMS (heap st) b (head st) (tail st) (hashTable st) (dbModified st) (dbLoaded st)
    (undoStack st) (redoStack st) (disk st) (readonly st) (stdout st).

Definition set_head (p : option addr) (st : CMS) : CMS :=
  mkCMS (heap st) (brk st) p (tail st) (hashTable st) (dbModified st) (dbLoaded st)
    (undoStack st) (redoStack st) (disk st) (readonly st) (stdout st).

Definition set_tail (p : option addr) (st : CMS) : CMS :=
  mkCMS (heap st) (brk st) (head st) p (hashTable st) (dbModified st) (dbLoaded st)
    (undoStack st) (redoStack st) (disk st) (readonly st) (stdout st).

Definition set_hashTable (t : gmap Z addr) (st : CMS) : CMS :=
  mkCMS (heap st) (brk st) (head st) (tail st) t (dbModified st) (dbLoaded st)
    (undoStack st) (redoStack st) (disk st) (readonly st) (stdout st).

Definition set_dbModified (b : bool) (st : CMS) : CMS :=
  mkCMS (heap st) (brk st) (head st) (tail st) (hashTable st) b (dbLoaded st)
    (undoStack st) (redoStack st) (disk st) (readonly st) (stdout st).

Definition set_dbLoaded (b : bool) (st : CMS) : CMS :=
  mkCMS (heap st) (brk st) (head st) (tail st) (hashTable st) (dbModified st) b
    (undoStack st) (redoStack st) (disk st) (readonly st) (stdout st).

Definition set_undoStack (u : list Action) (st : CMS) : CMS :=
  mkCMS (heap st) (brk st) (head st) (tail st) (hashTable st) (dbModified st) (dbLoaded st)
    u (redoStack st) (disk st) (readonly st) (stdout st).

Definition set_redoStack (r : list Action) (st : CMS) : CMS :=
  mkCMS (heap st) (brk st) (head st) (tail st) (hashTable st) (dbModified st) (dbLoaded st)
    (undoStack st) r (disk st) (readonly st) (stdout st).

Definition set_disk (d : gmap string cstring) (st : CMS) : CMS :=
  mkCMS (heap st) (brk st) (head st) (tail st) (hashTable st) (dbModified st) (dbLoaded st)
    (undoStack st) (redoStack st) d (readonly st) (stdout st).

(** [printf]: one more piece of text on the terminal. *)
Definition printf (msg : cstring) (st : CMS) : CMS :=
  mkCMS (heap st) (brk st) (head st) (tail st) (hashTable st) (dbModified st) (dbLoaded st)
    (undoStack st) (redoStack st) (disk st) (readonly st) (stdout st ++ [msg]).

(** [malloc(sizeof(Node))] followed by the initialisation of the cell. *)
Definition malloc (nd : Node) (st : CMS) : addr * CMS :=
  (brk st, set_brk (S (brk st)) (set_heap (<[brk st := nd]> (heap st)) st)).

Definition free (p : addr) (st : CMS) : CMS :=
  set_heap (delete p (heap st)) st.

(** [p->next = q]; undefined when [p] is not a live cell. *)
Definition store_next (p : addr) (q : option addr) (st : CMS) : option CMS :=
  nd ← heap st !! p;
  Some (set_heap (<[p := mkNode (data nd) q (hashNext nd)]> (heap st)) st).

(** ** Hash table utility functions *)

Definition hash (id : Z) : Z := Z.rem id TABLE_SIZE.

(** [hashTable[index]]: outside the array there is no defined value. *)
Definition bucket (st : CMS) (index : Z) : option (option addr) :=
  if (0 <=? index) && (index <? TABLE_SIZE) then Some (hashTable st !! index) else None.

Definition set_bucket (index : Z) (p : option addr) (st : CMS) : CMS :=
  set_hashTable (partial_alter (fun _ => p) index (hashTable st)) st.

Definition hashInsert (p : addr) (st : CMS) : option CMS :=
  nd ← heap st !! p;
  let index := hash (id (data nd)) in
  old ← bucket st index;
  Some (set_bucket index (Some p)
          (set_heap (<[p := mkNode (data nd) (next nd) old]> (heap st)) st)).

(** The loop of [hashRemove], from [cur] with [prev] behind it.  It follows
    [next], the pointer of the record list. *)
Fixpoint hashRemove_loop (fuel : nat) (index : Z) (id0 : Z)
    (cur prev : option addr) (st : CMS) : option CMS :=
  match cur with
  | None => Some st
  | Some p =>
      match fuel with
      | O => None
      | S fuel' =>
          nd ← heap st !! p;
          if id (data nd) =? id0 then
            match prev with
            | Some q => store_next q (next nd) st
            | None => Some (set_bucket index (next nd) st)
            end
          else hashRemove_loop fuel' index id0 (next nd) (Some p) st
      end
  end.

Definition hashRemove (id0 : Z) (st : CMS) : option CMS :=
  let index := hash id0 in
  cur ← bucket st index;
  hashRemove_loop (size (heap st)) index id0 cur None st.

(** The loop of [findNode]; it too follows [next]. *)
Fixpoint findNode_loop (fuel : nat) (h : gmap addr Node) (id0 : Z)
    (cur : option addr) : option (option addr) :=
  match cur with
  | None => Some None
  | Some p =>
      match fuel with
      | O => None
      | S fuel' =>
          nd ← h !! p;
          if id (data nd) =? id0 then Some (Some p)
          else findNode_loop fuel' h id0 (next nd)
      end
  end.

Definition findNode (id0 : Z) (st : CMS) : option (option addr) :=
  cur ← bucket st (hash id0);
  findNode_loop (size (heap st)) (heap st) id0 cur.

(** ** Undo and redo stacks *)

Definition pushUndo (action : Action) (st : CMS) : CMS :=
  set_redoStack [] (set_undoStack (action :: undoStack st) st).

(** ** Walking the record list *)

(** The records met from [cur] along [next]: the traversal of [showDB],
    [cloneList] and [saveDB]. *)
Fixpoint walk (fuel : nat) (h : gmap addr Node) (cur : option addr)
    : option (list StudentRecord) :=
  match cur with
  | None => Some []
  | Some p =>
      match fuel with
      | O => None
      | S fuel' =>
          nd ← h !! p;
          rs ← walk fuel' h (next nd);
          Some (data nd :: rs)
      end
  end.

(** The record sequence [S] of the specification: what is reachable from
    [head]. *)
Definition records (st : CMS) : option (list StudentRecord) :=
  walk (size (heap st)) (heap st) (head st).

(** The record [findNode] hands to its callers. *)
Definition lookup_record (id0 : Z) (st : CMS) : option (option StudentRecord) :=
  r ← findNode id0 st;
  match r with
  | None => Some None
  | Some p => nd ← heap st !! p; Some (Some (data nd))
  end.

(** ** Loading *)

Fixpoint freeDB_loop (fuel : nat) (current : option addr) (st : CMS) : option CMS :=
  match current with
  | None => Some st
  | Some p =>
      match fuel with
      | O => None
      | S fuel' =>
          nd ← heap st !! p;
          freeDB_loop fuel' (next nd) (free p st)
      end
  end.

(** [freeDB] resets [head] and leaves [tail] and the hash table as they are. *)
Definition freeDB (st : CMS) : option CMS :=
  st' ← freeDB_loop (size (heap st)) (head st) st;
  Some (set_head None st').

(** The tail insertion written out in both [loadDB] and [insertDB]. *)
Definition append_node (p : addr) (st : CMS) : option CMS :=
  match head st with
  | None => Some (set_tail (Some p) (set_head (Some p) st))
  | Some _ =>
      t ← tail st;
      st' ← store_next t (Some p) st;
      Some (set_tail (Some p) st')
  end.

Definition next_field (ptr : cstring) : cstring * cstring :=
  match split_tab ptr with
  | (f, Some r) => (f, r)
  | (f, None) => (f, [])
  end.

Definition is_header_line (line : cstring) : bool :=
  strstr line (c "Database Name: P4_1-CMS") ||
  strstr line (c "Authors: P4-1") ||
  strstr line (c "Table Name: StudentRecords") ||
  strstr line (c "ID" ++ [TAB] ++ c "Name" ++ [TAB] ++ c "Programme" ++ [TAB] ++ c "Mark") ||
  (length line =? 0)%nat.

(** The conversion of one data line: split on TAB, then [atoi], two
    [strcpy] and [atof].  [strcpy] into the 100-byte fields is undefined for
    a longer field. *)
Definition parse_line (line : cstring) : option StudentRecord :=
  let '(f0, p1) := next_field line in
  let '(f1, p2) := next_field p1 in
  let '(f2, p3) := next_field p2 in
  let '(f3, _) := next_field p3 in
  i ← (if (0 <? length f0)%nat then atoi f0 else Some 0);
  guard (length f1 < MAX_NAME)%nat;;
  guard (length f2 < MAX_PROGRAMME)%nat;;
  Some (mkRecord i f1 f2 (if (0 <? length f3)%nat then atof f3 else f_zero)).

(** The body of the reading loop for one data line: convert, allocate,
    link, index. *)
Definition load_line (line : cstring) (st : CMS) : option CMS :=
  r ← parse_line line;
  let '(p, st1) := malloc (mkNode r None None) st in
  st2 ← append_node p st1;
  hashInsert p st2.

Fixpoint loadDB_loop (fuel : nat) (rest : cstring) (st : CMS) : option CMS :=
  match rest with
  | [] => Some st
  | _ :: _ =>
      match fuel with
      | O => None
      | S fuel' =>
          let '(raw, rest') := fgets (MAX_LINE - 1) rest in
          let line := cut_eol raw in
          if is_header_line line then loadDB_loop fuel' rest' st
          else st' ← load_line line st; loadDB_loop fuel' rest' st'
      end
  end.

Definition loadDB (filename : string) (st : CMS) : option CMS :=
  st1 ← freeDB st;
  let st2 := set_hashTable ∅ st1 in
  match disk st2 !! filename with
  | None =>
      Some (set_dbLoaded false
              (printf (c "CMS: Could not open file " ++ [DQUOTE] ++ c filename
                         ++ [DQUOTE] ++ c "." ++ [LF]) st2))
  | Some content =>
      st3 ← loadDB_loop (length content) content st2;
      Some (printf (c "CMS: The database file " ++ [DQUOTE] ++ c "P4_1-CMS.txt"
                      ++ [DQUOTE] ++ c " is successfully opened." ++ [LF])
              (set_dbLoaded true st3))
  end.

Definition primary_path : string := "./data/P4_1-CMS.txt".
Definition backup_path : string := "./data/P4_1-CMS.bak".

Definition openDB (st : CMS) : option CMS :=
  if dbLoaded st then
    Some (printf (c "CMS: The database file " ++ [DQUOTE] ++ c "P4_1-CMS.txt"
                    ++ [DQUOTE] ++ c " has already been opened." ++ [LF]) st)
  else loadDB primary_path st.

(** ** Sorted views *)

Definition cloneList (st : CMS) : option (list StudentRecord) :=
  walk (size (heap st)) (heap st) (head st).

(** [int] subtraction as the machine performs it. *)
Definition wrap_int (z : Z) : Z := (z + 2 ^ 31) mod 2 ^ 32 - 2 ^ 31.

Definition compare (sortByID : bool) (r1 r2 : StudentRecord) : Z :=
  if sortByID then wrap_int (id r1 - id r2)
  else if f_lt (mark r2) (mark r1) then 1
  else if f_lt (mark r1) (mark r2) then -1
  else 0.

Definition takes_list1 (sortByID ascending : bool) (r1 r2 : StudentRecord) : bool :=
  (ascending && (compare sortByID r1 r2 <=? 0)) ||
  (negb ascending && (0 <? compare sortByID r1 r2)).

Fixpoint mergeSorted (list1 list2 : list StudentRecord) (sortByID ascending : bool)
    : list StudentRecord :=
  let fix merge_list2 (list2 : list StudentRecord) : list StudentRecord :=
    match list1, list2 with
    | [], _ => list2
    | _, [] => list1
    | r1 :: rest1, r2 :: rest2 =>
        if takes_list1 sortByID ascending r1 r2
        then r1 :: mergeSorted rest1 list2 sortByID ascending
        else r2 :: merge_list2 rest2
    end in
  merge_list2 list2.

(** How often [slow] advances while [fast] runs two steps at a time. *)
Fixpoint slow_steps (fast : list StudentRecord) : nat :=
  match fast with
  | _ :: _ :: fast' => S (slow_steps fast')
  | _ => O
  end.

(** [mergeSort]; the recursion of the source is on a strictly shorter list,
    here bounded by [fuel]. *)
Fixpoint mergeSort_rec (fuel : nat) (l : list StudentRecord) (sortByID ascending : bool)
    : list StudentRecord :=
  match fuel with
  | O => l
  | S fuel' =>
      match l with
      | [] => l
      | [_] => l
      | _ :: fast =>
          let k := S (slow_steps fast) in
          mergeSorted (mergeSort_rec fuel' (take k l) sortByID ascending)
                      (mergeSort_rec fuel' (drop k l) sortByID ascending)
                      sortByID ascending
      end
  end.

Definition mergeSort (l : list StudentRecord) (sortByID ascending : bool)
    : list StudentRecord :=
  mergeSort_rec (length l) l sortByID ascending.

(** The list [showDBSorted] passes to the printing routine. *)
Definition showDBSorted (sortByID ascending : bool) (st : CMS)
    : option (list StudentRecord) :=
  l ← cloneList st;
  Some (mergeSort l sortByID ascending).

(** ** Core operations *)

(** [name] and [programme] arrive in 100-byte buffers ([main]'s [newName],
    an [Action]'s records), so the [strcpy] calls below stay within the
    fields. *)
Definition insertDB (newID : Z) (newName newProgramme : cstring) (newMark : float)
    (isUndoRedo : bool) (st : CMS) : option CMS :=
  found ← findNode newID st;
  match found with
  | Some _ =>
      Some (if isUndoRedo then st
            else printf (c "CMS: Record with ID=" ++ fmt_d newID
                           ++ c " already exists." ++ [LF]) st)
  | None =>
      let rec := mkRecord newID newName newProgramme newMark in
      let '(p, st1) := malloc (mkNode rec None None) st in
      st2 ← append_node p st1;
      st3 ← hashInsert p st2;
      let st4 :=
        if isUndoRedo then st3
        else printf (c "CMS: Record with ID=" ++ fmt_d newID ++ c " inserted." ++ [LF])
               (pushUndo (INSERT_OP rec) st3) in
      Some (set_dbModified true st4)
  end.

Definition updateDB (id0 : Z) (name0 programme0 : cstring) (mark0 : float)
    (isUndoRedo : bool) (st : CMS) : option CMS :=
  found ← findNode id0 st;
  match found with
  | None =>
      Some (if isUndoRedo then st
            else printf (c "CMS: The record with ID=" ++ fmt_d id0
                           ++ c " does not exist." ++ [LF]) st)
  | Some p =>
      nd ← heap st !! p;
      let old := data nd in
      let new :=
        mkRecord (id old)
          (if (0 <? length name0)%nat then name0 else name old)
          (if (0 <? length programme0)%nat then programme0 else programme old)
          (if f_le f_zero mark0 then mark0 else mark old) in
      let st1 := set_heap (<[p := mkNode new (next nd) (hashNext nd)]> (heap st)) st in
      let st2 :=
        if isUndoRedo then st1
        else printf (c "CMS: The record with ID=" ++ fmt_d id0
                       ++ c " is successfully updated." ++ [LF])
               (pushUndo (UPDATE_OP old new) st1) in
      Some (set_dbModified true st2)
  end.

(** The search loop of [deleteDB]: the first node with the id, and the node
    before it. *)
Fixpoint deleteDB_loop (fuel : nat) (h : gmap addr Node) (id0 : Z)
    (current prev : option addr) : option (option addr * option addr) :=
  match current with
  | None => Some (None, prev)
  | Some p =>
      match fuel with
      | O => None
      | S fuel' =>
          nd ← h !! p;
          if id (data nd) =? id0 then Some (current, prev)
          else deleteDB_loop fuel' h id0 (next nd) (Some p)
      end
  end.

Definition deleteDB (id0 : Z) (confirm isUndoRedo : bool) (st : CMS)
    : option (bool * CMS) :=
  '(current, prev) ← deleteDB_loop (size (heap st)) (heap st) id0 (head st) None;
  match current with
  | None => Some (false, st)
  | Some p =>
      if negb confirm then Some (true, st)
      else
        nd ← heap st !! p;
        let st1 := if isUndoRedo then st else pushUndo (DELETE_OP (data nd)) st in
        st2 ← match prev with
              | None => Some (set_head (next nd) st1)
              | Some q => store_next q (next nd) st1
              end;
        let st3 := if decide (tail st2 = Some p) then set_tail prev st2 else st2 in
        st4 ← hashRemove id0 st3;
        let st5 := free p st4 in
        let st6 :=
          if isUndoRedo then st5
          else printf (c "CMS: The record with ID=" ++ fmt_d id0
                         ++ c " is successfully deleted." ++ [LF]) st5 in
        Some (true, set_dbModified true st6)
  end.

(** ** Saving and restoring *)

Definition file_header : cstring :=
  c "Database Name: P4_1-CMS" ++ [LF] ++
  c "Authors: P4-1" ++ [LF; LF] ++
  c "Table Name: StudentRecords" ++ [LF] ++
  c "ID" ++ [TAB] ++ c "Name" ++ [TAB] ++ c "Programme" ++ [TAB] ++ c "Mark" ++ [LF].

(** The text [snprintf(line, 256, "%d\t%s\t%s\t%.1f\n", ...)] puts before
    the line feed, and the line as the 256-byte buffer holds it. *)
Definition line_text (r : StudentRecord) : cstring :=
  fmt_d (id r) ++ [TAB] ++ name r ++ [TAB] ++ programme r ++ [TAB] ++ fmt_1f (mark r).

Definition record_line (r : StudentRecord) : cstring :=
  take (MAX_LINE - 1) (line_text r ++ [LF]).

Definition serialise (rs : list StudentRecord) : cstring :=
  file_header ++ concat (map record_line rs).

(** [fopen(path, "w")]: fails on a path that cannot be written, otherwise
    leaves an empty file. *)
Definition fopen_w (path : string) (st : CMS) : option CMS :=
  if decide (path ∈ readonly st) then None
  else Some (set_disk (<[path := []]> (disk st)) st).

Definition fputs (path : string) (text : cstring) (st : CMS) : CMS :=
  set_disk (<[path := cstr text]> (disk st)) st.

Definition saveDB (st : CMS) : option CMS :=
  if negb (dbLoaded st) then
    Some (printf (c "CMS: No database loaded. Nothing to save." ++ [LF]) st)
  else
    (* the bytes of the primary file; NULL when there is none *)
    let fileContent :=
      match disk st !! primary_path with
      | Some (ch :: s) => Some (ch :: s)
      | _ => None
      end in
    rs ← walk (size (heap st)) (heap st) (head st);
    let memContent := serialise rs in
    if match fileContent with
       | Some fc => cstring_eqb (cstr fc) memContent
       | None => false
       end
    then Some (printf (c "CMS: No changes detected. Nothing to save." ++ [LF]) st)
    else
      let st1 :=
        match fopen_w backup_path st, fileContent with
        | Some st', Some fc => fputs backup_path fc st'
        | Some st', None => st'
        | None, _ => st
        end in
      match fopen_w primary_path st1 with
      | None => Some (printf (c "CMS: Error saving the database file." ++ [LF]) st1)
      | Some st2 =>
          Some (printf (c "CMS: The database file " ++ [DQUOTE] ++ c "P4_1-CMS.txt"
                          ++ [DQUOTE] ++ c " has been successfully saved." ++ [LF])
                  (set_dbModified false (fputs primary_path memContent st2)))
      end.

Definition restoreDB (isUndoRedo : bool) (st : CMS) : option CMS :=
  match disk st !! backup_path with
  | None =>
      Some (printf (c "CMS: Backup file " ++ [DQUOTE] ++ c "P4_1-CMS.bak" ++ [DQUOTE]
                      ++ c " does not exist. Cannot restore." ++ [LF]) st)
  | Some _ =>
      let st1 := if isUndoRedo then st else pushUndo RESTORE_OP st in
      st2 ← loadDB backup_path st1;
      let st3 :=
        if isUndoRedo then st2
        else printf (c "CMS: Database successfully restored from backup. Changes are not saved yet."
                       ++ [LF]) st2 in
      Some (set_dbModified true st3)
  end.

(** ** Undo and redo *)

Definition undo (st : CMS) : option CMS :=
  match undoStack st with
  | [] => Some (printf (c "CMS: Nothing to undo." ++ [LF]) st)
  | action :: rest =>
      let st0 := set_undoStack rest st in
      st1 ←
        match action with
        | INSERT_OP newData =>
            '(_, st') ← deleteDB (id newData) true true st0;
            Some (printf (c "CMS: UNDO -> Undid INSERT (ID " ++ fmt_d (id newData)
                            ++ c ")." ++ [LF]) st')
        | UPDATE_OP oldData newData =>
            st' ← updateDB (id oldData) (name oldData) (programme oldData)
                    (mark oldData) true st0;
            Some (printf (c "CMS: UNDO -> Undid UPDATE on (ID " ++ fmt_d (id newData)
                            ++ c ")." ++ [LF]) st')
        | DELETE_OP oldData =>
            st' ← insertDB (id oldData) (name oldData) (programme oldData)
                    (mark oldData) true st0;
            Some (printf (c "CMS: UNDO -> Undid DELETE (ID " ++ fmt_d (id oldData)
                            ++ c ")." ++ [LF]) st')
        | RESTORE_OP =>
            st' ← loadDB primary_path st0;
            Some (printf (c "CMS: UNDO -> Undid RESTORE operation." ++ [LF]) st')
        end;
      Some (set_redoStack (action :: redoStack st1) st1)
  end.

Definition redo (st : CMS) : option CMS :=
  match redoStack st with
  | [] => Some (printf (c "CMS: Nothing to redo." ++ [LF]) st)
  | action :: rest =>
      let st0 := set_redoStack rest st in
      st1 ←
        match action with
        | INSERT_OP newData =>
            st' ← insertDB (id newData) (name newData) (programme newData)
                    (mark newData) true st0;
            Some (printf (c "CMS: REDO -> Redid INSERT (ID " ++ fmt_d (id newData)
                            ++ c ")." ++ [LF]) st')
        | UPDATE_OP oldData newData =>
            st' ← updateDB (id newData) (name newData) (programme newData)
                    (mark newData) true st0;
            Some (printf (c "CMS: REDO -> Redid UPDATE on (ID " ++ fmt_d (id newData)
                            ++ c ")." ++ [LF]) st')
        | DELETE_OP oldData =>
            '(_, st') ← deleteDB (id oldData) true true st0;
            Some (printf (c "CMS: REDO -> Redid DELETE (ID " ++ fmt_d (id oldData)
                            ++ c ")." ++ [LF]) st')
        | RESTORE_OP =>
            st' ← restoreDB true st0;
            Some (printf (c "CMS: REDO -> Redid RESTORE operation." ++ [LF]) st')
        end;
      Some (set_undoStack (action :: undoStack st1) st1)
  end.

(** ** The input layer (input_validation.c) *)

Definition OPTIONAL_NONE : Z := 0.
Definition OPTIONAL_REQUIRED : Z := 1.
Definition OPTIONAL_ALLOWED_EMPTY : Z := 2.

Definition validateCommand (input cmd : cstring) : option cstring :=
  let ptr := skip_spaces input in
  if prefix_nocase cmd ptr then
    match drop (length cmd) ptr with
    | [] => Some []
    | ch :: rest => if isspace ch then Some (skip_spaces (ch :: rest)) else None
    end
  else None.

Definition validateID (id_str : cstring) : bool :=
  (length id_str =? 7)%nat &&
  match id_str with
  | ch :: _ => ascii_eqb ch "2"%char
  | [] => false
  end &&
  forallb isdigit id_str.

Fixpoint toTitleCase_loop (capitalizeNext : bool) (str : cstring) : cstring :=
  match str with
  | [] => []
  | ch :: str' =>
      if isspace ch then ch :: toTitleCase_loop true str'
      else if capitalizeNext then toupper ch :: toTitleCase_loop false str'
      else tolower ch :: toTitleCase_loop false str'
  end.

Definition toTitleCase (str : cstring) : cstring := toTitleCase_loop true str.

Fixpoint validateMark_loop (dotCount : nat) (digitFound : bool) (str : cstring) : bool :=
  match str with
  | [] => digitFound
  | ch :: str' =>
      if isdigit ch then validateMark_loop dotCount true str'
      else if ascii_eqb ch "."%char then
        if (1 <? S dotCount)%nat then false
        else validateMark_loop (S dotCount) digitFound str'
      else false
  end.

Definition validateMark (str : cstring) : bool :=
  match str with
  | [] => true
  | ch :: str' =>
      if ascii_eqb ch "+"%char || ascii_eqb ch "-"%char
      then validateMark_loop 0 false str'
      else validateMark_loop 0 false str
  end.

(** A recognised key stands at [ptr]: the key, in any letter case, followed
    by [=] or white space.  The result is the index into
    [{"ID", "NAME", "PROGRAMME", "MARK"}]. *)
Definition key_matches (key ptr : cstring) : bool :=
  prefix_nocase key ptr &&
  match drop (length key) ptr with
  | after :: _ => ascii_eqb after "="%char || isspace after
  | [] => false
  end.

Definition key_name (fieldIndex : nat) : cstring :=
  match fieldIndex with
  | 0%nat => c "ID"
  | 1%nat => c "NAME"
  | 2%nat => c "PROGRAMME"
  | _ => c "MARK"
  end.

Definition field_at (ptr : cstring) : option nat :=
  if key_matches (key_name 0) ptr then Some 0%nat
  else if key_matches (key_name 1) ptr then Some 1%nat
  else if key_matches (key_name 2) ptr then Some 2%nat
  else if key_matches (key_name 3) ptr then Some 3%nat
  else None.

(** The value of a field: the text up to the next key or the end. *)
Fixpoint scan_value (ptr : cstring) : cstring * cstring :=
  match ptr with
  | [] => ([], [])
  | ch :: ptr' =>
      if bool_decide (is_Some (field_at ptr)) then ([], ptr)
      else let '(v, r) := scan_value ptr' in (ch :: v, r)
  end.

Fixpoint rtrim (s : cstring) : cstring :=
  match s with
  | [] => []
  | ch :: s' =>
      match rtrim s' with
      | [] => if isspace ch then [] else [ch]
      | t => ch :: t
      end
  end.

(** What [parseCommand] has written through its out-parameters so far. *)
Record Parsed := mkParsed {
  p_id : Z;
  p_name : cstring;
  p_programme : cstring;
  p_mark : float;
  p_found : list bool;
  p_optionalProvided : bool
}.

Inductive ParseResult :=
| Accepted (fields : Parsed)
| Rejected (message : option cstring).

Definition reject (text : string) : ParseResult :=
  Rejected (Some (c text ++ [LF])).

(** The [switch (fieldIndex)] of [parseCommand]: validate and store one
    value.  [len] is the length of the trimmed value, [value] its copy in the
    256-byte buffer; [bufs] tells whether [name], [programme] and [mark] are
    non-NULL. *)
Definition store_field (fieldIndex : nat) (len : nat) (value : cstring) (bufs : bool)
    (acc : Parsed) : ParseResult + Parsed :=
  match fieldIndex with
  | 0%nat =>
      if (len =? 0)%nat then inl (reject "CMS: Missing required ID.")
      else if negb (validateID value) then
        inl (reject "CMS: Invalid command. ID must be 7 digits starting with '2'.")
      else
        match atoi value with
        | Some i => inr (mkParsed i (p_name acc) (p_programme acc) (p_mark acc)
                           (p_found acc) (p_optionalProvided acc))
        | None => inl (Rejected None)
        end
  | 1%nat =>
      if negb bufs then inl (Rejected None)
      else if (0 <? len)%nat then
        if (MAX_NAME <=? len)%nat then
          inl (reject "CMS: Invalid command. Name is too long (Max 99 characters).")
        else inr (mkParsed (p_id acc) (toTitleCase (take (MAX_NAME - 1) value))
                    (p_programme acc) (p_mark acc) (p_found acc) true)
      else inr acc
  | 2%nat =>
      if negb bufs then inl (Rejected None)
      else if (0 <? len)%nat then
        if (MAX_PROGRAMME <=? len)%nat then
          inl (reject "CMS: Invalid command. Programme is too long (Max 99 characters).")
        else inr (mkParsed (p_id acc) (p_name acc)
                    (toTitleCase (take (MAX_PROGRAMME - 1) value))
                    (p_mark acc) (p_found acc) true)
      else inr acc
  | _ =>
      if negb bufs then inl (Rejected None)
      else if (0 <? len)%nat then
        if negb (validateMark value) then
          inl (reject "CMS: Invalid command. Mark must be numeric.")
        else
          let tempMark := atof value in
          if f_lt tempMark f_zero || f_lt f_hundred tempMark then
            inl (reject "CMS: Invalid command. Mark must be between 0 - 100.")
          else inr (mkParsed (p_id acc) (p_name acc) (p_programme acc) tempMark
                      (p_found acc) true)
      else inr acc
  end.

(** The main loop of [parseCommand], one key and value per round. *)
Fixpoint parseCommand_loop (fuel : nat) (ptr : cstring) (bufs : bool) (optionalMode : Z)
    (acc : Parsed) : ParseResult :=
  match ptr with
  | [] => Accepted acc
  | _ :: _ =>
      match fuel with
      | O => Rejected None
      | S fuel' =>
          match field_at ptr with
          | None => reject "CMS: Invalid command. Unknown field or missing '='."
          | Some fieldIndex =>
              if nth fieldIndex (p_found acc) false then
                reject "CMS: Invalid command. Duplicate field."
              else
                let acc1 := mkParsed (p_id acc) (p_name acc) (p_programme acc) (p_mark acc)
                              (<[fieldIndex := true]> (p_found acc))
                              (p_optionalProvided acc) in
                let afterKey := drop (length (key_name fieldIndex)) ptr in
                match skip_spaces afterKey with
                | ch :: rest =>
                    if negb (ascii_eqb ch "="%char) then
                      reject "CMS: Invalid command. Missing '='."
                    else if (length (skip_spaces afterKey) <? length afterKey)%nat then
                      reject "CMS: Invalid command. No space allowed before '='."
                    else
                      let '(raw, ptr') := scan_value (skip_spaces rest) in
                      let trimmed := rtrim raw in
                      let len := length trimmed in
                      let value := take (MAX_LINE - 1) trimmed in
                      if (optionalMode =? OPTIONAL_NONE) && negb (fieldIndex =? 0)%nat then
                        reject "CMS: Invalid command. Only ID allowed."
                      else
                        match store_field fieldIndex len value bufs acc1 with
                        | inl r => r
                        | inr acc2 =>
                            parseCommand_loop fuel' (skip_spaces ptr') bufs optionalMode acc2
                        end
                | [] => reject "CMS: Invalid command. Missing '='."
                end
          end
      end
  end.

(** [parseCommand]: the out-parameters start as [-1], two empty strings and
    [0.0f]. *)
Definition parseCommand (input : cstring) (bufs : bool) (optionalMode : Z) : ParseResult :=
  let init := mkParsed (-1) [] [] f_zero [false; false; false; false] false in
  match parseCommand_loop (length input) input bufs optionalMode init with
  | Accepted acc =>
      if p_id acc =? -1 then reject "CMS: Missing required ID."
      else if (optionalMode =? OPTIONAL_REQUIRED) && negb (p_optionalProvided acc) then
        reject "CMS: At least one of NAME, PROGRAMME, or MARK must be provided for UPDATE."
      else Accepted acc
  | r => r
  end.

(** ** The command loop (main.c): the branches that change the store *)

Definition not_loaded_message : cstring :=
  c "CMS: No records loaded. Open and load the database first." ++ [LF].

Definition print_rejection (message : option cstring) (st : CMS) : CMS :=
  match message with
  | Some text => printf text st
  | None => st
  end.

Definition main_INSERT (valid : cstring) (st : CMS) : option CMS :=
  if negb (dbLoaded st) then Some (printf not_loaded_message st)
  else
    match parseCommand valid true OPTIONAL_ALLOWED_EMPTY with
    | Accepted v => insertDB (p_id v) (p_name v) (p_programme v) (p_mark v) false st
    | Rejected message => Some (print_rejection message st)
    end.

Definition main_UPDATE (valid : cstring) (st : CMS) : option CMS :=
  if negb (dbLoaded st) then Some (printf not_loaded_message st)
  else
    match parseCommand valid true OPTIONAL_REQUIRED with
    | Accepted v => updateDB (p_id v) (p_name v) (p_programme v) (p_mark v) false st
    | Rejected message => Some (print_rejection message st)
    end.

(** One line read by [main] when it is an INSERT or UPDATE command. *)
Definition main_command (input : cstring) (st : CMS) : option CMS :=
  match validateCommand input (c "INSERT") with
  | Some valid => main_INSERT valid st
  | None =>
      match validateCommand input (c "UPDATE") with
      | Some valid => main_UPDATE valid st
      | None => Some st
      end
  end.

End Store.

Arguments fgets : simpl never.
Arguments is_header_line : simpl never.
Arguments load_line {F} line st : simpl never.
Arguments parse_line {F} line : simpl never.
Arguments cut_eol : simpl never.
Arguments fmt_d : simpl never.
Arguments c : simpl never.

(** ** Exact decimal marks

    The instance used for concrete runs: a mark is the rational number its
    decimal notation denotes.  It agrees with binary [float] on comparisons
    and on every value used below (whole marks and marks with one fractional
    digit printed by [%.1f]). *)

Fixpoint frac_acc (num : Z) (den : positive) (s : cstring) : Z * positive :=
  match s with
  | ch :: s' =>
      if isdigit ch then frac_acc (10 * num + digit_val ch) (10 * den)%positive s'
      else (num, den)
  | [] => (num, den)
  end.

Fixpoint skip_digits (s : cstring) : cstring :=
  match s with
  | ch :: s' => if isdigit ch then skip_digits s' else s
  | [] => []
  end.

Definition decimal_unsigned (s : cstring) : Q :=
  let whole := digits_acc 0 s in
  match skip_digits s with
  | ch :: s' =>
      if ascii_eqb ch "."%char then
        let '(num, den) := frac_acc whole 1 s' in Qred (Qmake num den)
      else Qmake whole 1
  | [] => Qmake whole 1
  end.

Definition decimal_atof (s : cstring) : Q :=
  match skip_spaces s with
  | ch :: s' =>
      if ascii_eqb ch "-"%char then Qopp (decimal_unsigned s')
      else if ascii_eqb ch "+"%char then decimal_unsigned s'
      else decimal_unsigned (ch :: s')
  | [] => Qmake 0 1
  end.

(** The tenths of [|q|], rounded to nearest, ties to even. *)
Definition tenths (q : Q) : Z :=
  let n := Z.abs (Qnum q) * 10 in
  let d := Z.pos (Qden q) in
  let t := n / d in
  let r := 2 * (n mod d) in
  if d <? r then t + 1
  else if (r =? d) && Z.odd t then t + 1
  else t.

Definition decimal_fmt_1f (q : Q) : cstring :=
  let t := tenths q in
  (if Qnum q <? 0 then c "-" else []) ++ fmt_d (t / 10) ++ c "." ++ fmt_d (t mod 10).

Definition decimal_float : FloatOps := {|
  float := Q;
  f_zero := Qmake 0 1;
  f_hundred := Qmake 100 1;
  f_lt := fun a b => negb (Qle_bool b a);
  f_le := Qle_bool;
  atof := decimal_atof;
  fmt_1f := decimal_fmt_1f
|}.


(** * Display, summary and the command loop *)

(** What [showSummary] does with a [float] beyond {!FloatOps}: the literals
    [-1.0f] and [101.0f], [sum += mark], [sum / total] with an [int] divisor,
    [==] and the conversion [%.2f]. *)
Class FloatSummary (F : FloatOps) := {
  f_neg_one : float;
  f_101 : float;
  f_add : float -> float -> float;
  f_div_int : float -> Z -> float;
  f_eqb : float -> float -> bool;
  fmt_2f : float -> cstring
}.

Section Display.
Context {F : FloatOps} {G : FloatSummary F}.

Definition NAME_WIDTH : nat := 35.
Definition PROG_WIDTH : nat := 35.

Definition SPACE : ascii := " "%char.

(** [%-ws]: the text, then blanks up to the width [w]. *)
Definition pad_right (w : nat) (s : cstring) : cstring := s ++ repeat SPACE (w - length s).

(** Several [printf] calls in a row. *)
Definition prints (texts : list cstring) (st : CMS) : CMS :=
  foldl (fun acc text => printf text acc) st texts.

(** ** printNodeList *)

(** [max_name_len + 2] brought into the range from [least] to the fixed
    width plus two. *)
Definition display_width (longest fixed least : nat) : nat :=
  let w := (longest + 2)%nat in
  let w := if (fixed + 2 <? w)%nat then (fixed + 2)%nat else w in
  if (w <? least)%nat then least else w.

Definition max_name_len (rs : list StudentRecord) : nat :=
  foldl (fun m r => if (m <? length (name r))%nat then length (name r) else m) 4%nat rs.

Definition max_prog_len (rs : list StudentRecord) : nat :=
  foldl (fun m r => if (m <? length (programme r))%nat then length (programme r) else m)
    9%nat rs.

(** The rows a text of length [len] needs in a column [width] wide. *)
Definition lines_of (len width : nat) : nat :=
  if (0 <? len)%nat then ((len + width - 1) / width)%nat else 1%nat.

(** The part of a text that row [i] shows: [text + i * width], cut by the
    precision [width]. *)
Definition chunk (width i : nat) (text : cstring) : cstring :=
  take width (drop (i * width) text).

(** One cell of a text column in row [i]. *)
Definition text_cell (display_width width i : nat) (text : cstring) : cstring :=
  (if (i * width <? length text)%nat
   then pad_right display_width (chunk width i text)
   else pad_right display_width []) ++ [SPACE].

(** The [printf] calls of row [i] of a record. *)
Definition row (display_name_width display_prog_width : nat) (r : StudentRecord) (i : nat)
    : list cstring :=
  [ (if (i =? 0)%nat then pad_right 8 (fmt_d (id r)) else pad_right 8 []) ++ [SPACE];
    text_cell display_name_width NAME_WIDTH i (name r);
    text_cell display_prog_width PROG_WIDTH i (programme r) ] ++
  (if (i =? 0)%nat then [fmt_1f (mark r)] else []) ++
  [[LF]].

Definition record_lines (r : StudentRecord) : nat :=
  let lines_name := lines_of (length (name r)) NAME_WIDTH in
  let lines_prog := lines_of (length (programme r)) PROG_WIDTH in
  if (lines_prog <? lines_name)%nat then lines_name else lines_prog.

Definition record_rows (display_name_width display_prog_width : nat) (r : StudentRecord)
    : list cstring :=
  concat (map (row display_name_width display_prog_width r) (seq 0 (record_lines r))).

Definition display_name_width (rs : list StudentRecord) : nat :=
  display_width (max_name_len rs) NAME_WIDTH 6.

Definition display_prog_width (rs : list StudentRecord) : nat :=
  display_width (max_prog_len rs) PROG_WIDTH 11.

(** What [printNodeList] prints for the records of a list. *)
Definition printNodeList (rs : list StudentRecord) (headerMsg : cstring) : list cstring :=
  match rs with
  | [] => [c "CMS: No records to display." ++ [LF]]
  | _ :: _ =>
      [ headerMsg ++ [LF];
        pad_right 8 (c "ID") ++ [SPACE] ++ pad_right (display_name_width rs) (c "Name")
          ++ [SPACE] ++ pad_right (display_prog_width rs) (c "Programme") ++ [SPACE]
          ++ pad_right 5 (c "Mark") ++ [LF] ] ++
      concat (map (record_rows (display_name_width rs) (display_prog_width rs)) rs)
  end.

Definition showDB (st : CMS) : option CMS :=
  rs ← walk (size (heap st)) (heap st) (head st);
  Some (prints (printNodeList rs
                  (c "CMS: Here are all the records found in the table " ++ [DQUOTE]
                     ++ c "StudentRecords" ++ [DQUOTE] ++ c ".")) st).

(** [showDBSorted] with its output: the clones are allocated, sorted, printed
    and released again. *)
Definition sorted_header (sortByID ascending : bool) : cstring :=
  c "CMS: Here are all the records sorted by " ++ (if sortByID then c "ID" else c "mark")
    ++ [SPACE] ++ (if ascending then c "ASC" else c "DESC")
    ++ c " from the table " ++ [DQUOTE] ++ c "StudentRecords" ++ [DQUOTE] ++ c ".".

Definition showDBSorted_out (sortByID ascending : bool) (st : CMS) : option CMS :=
  match head st with
  | None => Some (printf (c "CMS: No records to display." ++ [LF]) st)
  | Some _ =>
      view ← showDBSorted sortByID ascending st;
      Some (prints (printNodeList view (sorted_header sortByID ascending)) st)
  end.

(** ** showSummary *)

(** [strcasecmp(a, b) == 0]. *)
Fixpoint strcasecmp_eq (a b : cstring) : bool :=
  match a, b with
  | [], [] => true
  | x :: a', y :: b' => ascii_eqb (tolower x) (tolower y) && strcasecmp_eq a' b'
  | _, _ => false
  end.

(** The test on a record in the loops of [showSummary]; [None] is the NULL
    filter. *)
Definition in_summary (programmeFilter : option cstring) (r : StudentRecord) : bool :=
  match programmeFilter with
  | None => true
  | Some f => strcasecmp_eq (programme r) f
  end.

Record Stats := mkStats {
  total : Z;
  sum : float;
  maxMark : float;
  minMark : float
}.

(** One round of the first loop; [total++] has no defined result at
    [INT_MAX]. *)
Definition summary_step (programmeFilter : option cstring) (acc : option Stats)
    (r : StudentRecord) : option Stats :=
  s ← acc;
  if in_summary programmeFilter r then
    if total s <? INT_MAX then
      Some (mkStats (total s + 1) (f_add (sum s) (mark r))
              (if f_lt (maxMark s) (mark r) then mark r else maxMark s)
              (if f_lt (mark r) (minMark s) then mark r else minMark s))
    else None
  else Some s.

Definition summary_stats (programmeFilter : option cstring) (rs : list StudentRecord)
    : option Stats :=
  foldl (summary_step programmeFilter) (Some (mkStats 0 f_zero f_neg_one f_101)) rs.

(** The numbered lines under "Highest mark" and "Lowest mark". *)
Fixpoint listing (programmeFilter : option cstring) (target : float) (count : Z)
    (rs : list StudentRecord) : list cstring :=
  match rs with
  | [] => []
  | r :: rs' =>
      if in_summary programmeFilter r && f_eqb (mark r) target then
        (fmt_d count ++ c ". " ++ name r ++ c " (ID: " ++ fmt_d (id r) ++ c ")" ++ [LF])
          :: listing programmeFilter target (count + 1) rs'
      else listing programmeFilter target count rs'
  end.

Definition showSummary (programmeFilter : option cstring) (st : CMS) : option CMS :=
  match head st with
  | None => Some (printf (c "CMS: No records to display." ++ [LF]) st)
  | Some _ =>
      rs ← walk (size (heap st)) (heap st) (head st);
      s ← summary_stats programmeFilter rs;
      if total s =? 0 then
        Some (printf
                match programmeFilter with
                | Some f => c "CMS: No matching records found for programme '" ++ f
                              ++ c "'." ++ [LF]
                | None => c "CMS: No records found." ++ [LF]
                end st)
      else
        Some (prints
                ([ c "CMS: Here are summary statistics from the table " ++ [DQUOTE]
                     ++ c "StudentRecords" ++ [DQUOTE] ] ++
                 match programmeFilter with
                 | Some f => [c " (Programme: " ++ f ++ c ")"]
                 | None => []
                 end ++
                 [ c "." ++ [LF];
                   c "Total students: " ++ fmt_d (total s) ++ [LF];
                   c "Average mark: " ++ fmt_2f (f_div_int (sum s) (total s)) ++ [LF];
                   [LF] ++ c "Highest mark: " ++ fmt_1f (maxMark s) ++ [LF] ] ++
                 listing programmeFilter (maxMark s) 1 rs ++
                 [ [LF] ++ c "Lowest mark: " ++ fmt_1f (minMark s) ++ [LF] ] ++
                 listing programmeFilter (minMark s) 1 rs) st)
  end.

(** ** queryDB *)

Definition queryDB (id0 : Z) (st : CMS) : option CMS :=
  found ← findNode id0 st;
  match found with
  | None =>
      Some (printf (c "CMS: The record with ID=" ++ fmt_d id0
                      ++ c " does not exist." ++ [LF]) st)
  | Some p =>
      nd ← heap st !! p;
      Some (prints (printNodeList [data nd] [])
              (printf (c "CMS: The record with ID=" ++ fmt_d id0
                         ++ c " is found in the data table." ++ [LF]) st))
  end.

(** ** handleShow (input_validation.c) *)

Fixpoint skip_blanks (s : cstring) : cstring :=
  match s with
  | ch :: s' => if ascii_eqb ch SPACE then skip_blanks s' else s
  | [] => []
  end.

Fixpoint until_blank (s : cstring) : cstring * cstring :=
  match s with
  | ch :: s' =>
      if ascii_eqb ch SPACE then ([], s')
      else let '(tok, rest) := until_blank s' in (ch :: tok, rest)
  | [] => ([], [])
  end.

(** [strtok(s, " ")]: the next token and the text behind the blank that
    ended it; no token when only blanks are left. *)
Definition strtok (s : cstring) : option (cstring * cstring) :=
  match skip_blanks s with
  | [] => None
  | ch :: s' => Some (until_blank (ch :: s'))
  end.

(** [strtok(NULL, "")]: all that is left, when something is left. *)
Definition strtok_rest (s : cstring) : option cstring :=
  match s with
  | [] => None
  | _ :: _ => Some s
  end.

(** [strchr(ptr, '=')]: the text before the first [=] and the text behind
    it. *)
Fixpoint split_eq (s : cstring) : option (cstring * cstring) :=
  match s with
  | [] => None
  | ch :: s' =>
      if ascii_eqb ch "="%char then Some ([], s')
      else match split_eq s' with
           | Some (key, value) => Some (ch :: key, value)
           | None => None
           end
  end.

(** The white space skipped at the start of a segment, as the last skipped
    character (NUL when none was skipped: the byte [strtok] wrote) and the
    text that follows. *)
Fixpoint skip_spaces_last (before : ascii) (s : cstring) : ascii * cstring :=
  match s with
  | ch :: s' => if isspace ch then skip_spaces_last ch s' else (before, s)
  | [] => (before, [])
  end.

(** What [handleShow] decides to do. *)
Inductive ShowRequest :=
| ShowAll
| ShowSorted (sortByID ascending : bool)
| ShowSummary (programmeFilter : option cstring)
| ShowError (message : cstring).

Definition show_error (text : string) : ShowRequest := ShowError (c text ++ [LF]).

(** The part of [handleShow] after the token SUMMARY: [rest] is what
    [strtok(NULL, "")] returned. *)
Definition summary_request (rest : option cstring) : ShowRequest :=
  match rest with
  | None => ShowSummary None
  | Some text =>
      let '(before, ptr) := skip_spaces_last NUL text in
      match ptr with
      | [] => ShowSummary None
      | _ :: _ =>
          match split_eq ptr with
          | None => show_error "CMS: Invalid filter format. Use key=value."
          | Some (key, after) =>
              let previous := last key in
              let previous := match previous with Some ch => ch | None => before end in
              if ascii_eqb previous SPACE || ascii_eqb previous TAB then
                show_error "CMS: Invalid command. No space allowed before '='."
              else
                let value := rtrim (skip_spaces after) in
                if strcasecmp_eq key (c "PROGRAMME") then
                  if (MAX_PROGRAMME <=? length value)%nat then
                    show_error "CMS: Programme too long."
                  else ShowSummary (Some (toTitleCase (take (MAX_PROGRAMME - 1) value)))
                else
                  ShowError (c "CMS: Unknown filter key '" ++ key ++ c "'." ++ [LF])
          end
      end
  end.

(** The part after the tokens ALL SORT. *)
Definition sort_request (s : cstring) : ShowRequest :=
  match strtok s with
  | None => show_error "CMS: Expected 'SORT BY'."
  | Some (by_, s1) =>
      if negb (strcasecmp_eq by_ (c "BY")) then show_error "CMS: Expected 'SORT BY'."
      else
        match strtok s1 with
        | None => show_error "CMS: Missing sort field (ID or MARK)."
        | Some (field, s2) =>
            if strcasecmp_eq field (c "ID") || strcasecmp_eq field (c "MARK") then
              let sortByID := strcasecmp_eq field (c "ID") in
              match strtok s2 with
              | None => ShowSorted sortByID true
              | Some (order, s3) =>
                  if strcasecmp_eq order (c "DESC") || strcasecmp_eq order (c "ASC") then
                    match strtok s3 with
                    | Some _ => show_error "CMS: Invalid trailing input."
                    | None => ShowSorted sortByID (negb (strcasecmp_eq order (c "DESC")))
                    end
                  else show_error "CMS: Invalid sort order. Use ASC or DESC."
              end
            else show_error "CMS: Invalid sort field. Use ID or MARK."
        end
  end.

Definition show_request (input : cstring) : ShowRequest :=
  match strtok input with
  | None => show_error "CMS: Enter a valid SHOW command."
  | Some (token, s1) =>
      if strcasecmp_eq token (c "ALL") then
        match strtok s1 with
        | None => ShowAll
        | Some (token2, s2) =>
            if strcasecmp_eq token2 (c "SORT") then sort_request s2
            else show_error "CMS: Invalid SHOW ALL format."
        end
      else if strcasecmp_eq token (c "SUMMARY") then summary_request (strtok_rest s1)
      else show_error "CMS: Unknown SHOW command."
  end.

Definition handleShow (input : cstring) (st : CMS) : option CMS :=
  match show_request input with
  | ShowAll => showDB st
  | ShowSorted sortByID ascending => showDBSorted_out sortByID ascending st
  | ShowSummary programmeFilter => showSummary programmeFilter st
  | ShowError message => Some (printf message st)
  end.

(** ** The command loop (main.c) *)

(** [readLine]: the next line of the standard input without its line feed,
    as the C string the callers see; at the end of the input, the empty
    string. *)
Definition readLine (stdin : list cstring) : cstring * list cstring :=
  match stdin with
  | [] => ([], [])
  | line :: rest => (cstr line, rest)
  end.

(** The answer to a confirmation prompt: [validateCommand(confirm_input, w)]
    with nothing behind the word. *)
Definition answers (confirm_input : cstring) (w : string) : bool :=
  match validateCommand confirm_input (c w) with
  | Some [] => true
  | _ => false
  end.

Definition prompt : cstring := [LF; LF] ++ c "P4_1: ".
Definition confirm_prompt : cstring := [LF] ++ c "P4_1: ".
Definition enter_valid : cstring := c "CMS: Enter a valid command." ++ [LF].

(** How one round of the loop ends. *)
Inductive Round :=
| Continue (st : CMS) (stdin : list cstring)
| Break (st : CMS).

Definition main_DELETE (valid : cstring) (stdin : list cstring) (st : CMS)
    : option (CMS * list cstring) :=
  if negb (dbLoaded st) then Some (printf not_loaded_message st, stdin)
  else
    match parseCommand valid false OPTIONAL_NONE with
    | Rejected message => Some (print_rejection message st, stdin)
    | Accepted v =>
        let deleteID := p_id v in
        '(found, st1) ← deleteDB deleteID false false st;
        if negb found then
          Some (printf (c "CMS: The record with ID=" ++ fmt_d deleteID
                          ++ c " does not exist." ++ [LF]) st1, stdin)
        else
          let st2 :=
            printf confirm_prompt
              (printf (c "CMS: Are you sure you want to delete record with ID="
                         ++ fmt_d deleteID ++ c "? Type " ++ [DQUOTE] ++ c "Y" ++ [DQUOTE]
                         ++ c " to confirm or " ++ [DQUOTE] ++ c "N" ++ [DQUOTE]
                         ++ c " to cancel." ++ [LF]) st1) in
          let '(confirm_input, stdin') := readLine stdin in
          if answers confirm_input "Y" then
            '(_, st3) ← deleteDB deleteID true false st2; Some (st3, stdin')
          else if answers confirm_input "N" then
            Some (printf (c "CMS: The deletion is cancelled." ++ [LF]) st2, stdin')
          else
            Some (printf (c "CMS: Invalid input. The deletion is cancelled." ++ [LF]) st2,
                  stdin')
    end.

Definition main_QUERY (valid : cstring) (st : CMS) : option CMS :=
  if negb (dbLoaded st) then Some (printf not_loaded_message st)
  else
    match parseCommand valid false OPTIONAL_NONE with
    | Rejected message => Some (print_rejection message st)
    | Accepted v => queryDB (p_id v) st
    end.

(** UNDO, REDO and SAVE: no argument, and a loaded database. *)
Definition main_plain (valid : cstring) (call : CMS -> option CMS) (st : CMS) : option CMS :=
  match valid with
  | _ :: _ => Some (printf enter_valid st)
  | [] => if negb (dbLoaded st) then Some (printf not_loaded_message st) else call st
  end.

Definition main_RESTORE (valid : cstring) (stdin : list cstring) (st : CMS)
    : option (CMS * list cstring) :=
  let st0 := match valid with _ :: _ => printf enter_valid st | [] => st end in
  if negb (dbLoaded st0) then
    Some (printf (c "CMS: No records loaded. Open the database first." ++ [LF]) st0, stdin)
  else
    let st1 :=
      printf confirm_prompt
        (printf (c "CMS: WARNING: This will overwrite the current in-memory state with the backup file. Are you sure? Type "
                   ++ [DQUOTE] ++ c "Y" ++ [DQUOTE] ++ c " to confirm or " ++ [DQUOTE]
                   ++ c "N" ++ [DQUOTE] ++ c " to cancel." ++ [LF]) st0) in
    let '(confirm_input, stdin') := readLine stdin in
    if answers confirm_input "Y" then
      st2 ← restoreDB false st1; Some (st2, stdin')
    else if answers confirm_input "N" then
      Some (printf (c "CMS: Restore operation cancelled." ++ [LF]) st1, stdin')
    else
      Some (printf (c "CMS: Invalid input. Restore operation cancelled." ++ [LF]) st1, stdin').

Definition main_QUIT (valid : cstring) (stdin : list cstring) (st : CMS) : Round :=
  match valid with
  | _ :: _ =>
      Continue (printf (c "CMS: Enter a valid command (QUIT takes no arguments)." ++ [LF]) st)
        stdin
  | [] =>
      let st1 :=
        printf confirm_prompt
          (printf
             (if dbLoaded st && dbModified st then
                c "CMS: WARNING: You have unsaved changes. Are you sure you want to quit? Type "
                  ++ [DQUOTE] ++ c "Y" ++ [DQUOTE] ++ c " to confirm or " ++ [DQUOTE]
                  ++ c "N" ++ [DQUOTE] ++ c " to cancel." ++ [LF]
              else
                c "CMS: Are you sure you want to quit? There are no unsaved changes. Type "
                  ++ [DQUOTE] ++ c "Y" ++ [DQUOTE] ++ c " to confirm or " ++ [DQUOTE]
                  ++ c "N" ++ [DQUOTE] ++ c " to cancel." ++ [LF]) st) in
      let '(confirm_input, stdin') := readLine stdin in
      if answers confirm_input "Y" then Break st1
      else if answers confirm_input "N" then
        Continue (printf (c "CMS: Quit operation cancelled." ++ [LF]) st1) stdin'
      else
        Continue (printf (c "CMS: Invalid input. Quit operation cancelled." ++ [LF]) st1) stdin'
  end.

(** One round of [while (1)]: the prompt, one line, and the branch of the
    first command word that matches. *)
Definition main_round (stdin : list cstring) (st : CMS) : option Round :=
  let st := printf prompt st in
  let '(input, stdin) := readLine stdin in
  let continue (o : option CMS) : option Round := st' ← o; Some (Continue st' stdin) in
  let continue2 (o : option (CMS * list cstring)) : option Round :=
    '(st', stdin') ← o; Some (Continue st' stdin') in
  match validateCommand input (c "OPEN") with
  | Some valid =>
      match valid with
      | _ :: _ => Some (Continue (printf enter_valid st) stdin)
      | [] => continue (openDB st)
      end
  | None =>
  match validateCommand input (c "SHOW") with
  | Some valid =>
      if negb (dbLoaded st) then Some (Continue (printf not_loaded_message st) stdin)
      else continue (handleShow valid st)
  | None =>
  match validateCommand input (c "INSERT") with
  | Some valid => continue (main_INSERT valid st)
  | None =>
  match validateCommand input (c "UPDATE") with
  | Some valid => continue (main_UPDATE valid st)
  | None =>
  match validateCommand input (c "DELETE") with
  | Some valid => continue2 (main_DELETE valid stdin st)
  | None =>
  match validateCommand input (c "QUERY") with
  | Some valid => continue (main_QUERY valid st)
  | None =>
  match validateCommand input (c "UNDO") with
  | Some valid => continue (main_plain valid undo st)
  | None =>
  match validateCommand input (c "REDO") with
  | Some valid => continue (main_plain valid redo st)
  | None =>
  match validateCommand input (c "SAVE") with
  | Some valid => continue (main_plain valid saveDB st)
  | None =>
  match validateCommand input (c "RESTORE") with
  | Some valid => continue2 (main_RESTORE valid stdin st)
  | None =>
  match validateCommand input (c "QUIT") with
  | Some valid => Some (main_QUIT valid stdin st)
  | None => Some (Continue (printf (c "CMS: Enter a valid command" ++ [LF]) st) stdin)
  end end end end end end end end end end end.

(** The loop for at most [rounds] rounds, then what follows the loop:
    [freeDB] and the farewell.  [None] also stands for a loop that is still
    running after [rounds] rounds. *)
Fixpoint main_loop (rounds : nat) (stdin : list cstring) (st : CMS) : option CMS :=
  match rounds with
  | O => None
  | S rounds' =>
      r ← main_round stdin st;
      match r with
      | Continue st' stdin' => main_loop rounds' stdin' st'
      | Break st' =>
          st'' ← freeDB st';
          Some (printf (c "CMS: Exiting program." ++ [LF]) st'')
      end
  end.

End Display.

(** ** Decimal marks in the summary

    [showSummary]'s arithmetic on the exact decimal marks of
    {!decimal_float}; [%.2f] rounds to nearest hundredths, ties to even. *)

Definition hundredths (q : Q) : Z :=
  let n := Z.abs (Qnum q) * 100 in
  let d := Z.pos (Qden q) in
  let t := n / d in
  let r := 2 * (n mod d) in
  if d <? r then t + 1
  else if (r =? d) && Z.odd t then t + 1
  else t.

Definition decimal_fmt_2f (q : Q) : cstring :=
  let t := hundredths q in
  (if Qnum q <? 0 then c "-" else [])
    ++ fmt_d (t / 100) ++ c "." ++ fmt_d (t mod 100 / 10) ++ fmt_d (t mod 10).

Definition decimal_summary : FloatSummary decimal_float :=
  Build_FloatSummary decimal_float
    (Qmake (-1) 1)
    (Qmake 101 1)
    (fun a b => Qred (Qplus a b))
    (fun a n => Qred (Qdiv a (inject_Z n)))
    Qeq_bool
    decimal_fmt_2f.
(** ** Vocabulary of the statements *)

Section Vocabulary.
Context {F : FloatOps}.

(** The store before [main] has read a command, with the given files. *)
Definition fresh_store (d : gmap string cstring) : CMS :=
  mkCMS ∅ 0%nat None None ∅ false false [] [] d ∅ [].

(** [l] lists the cells met from [cur] along [next], each with the record it
    holds, and the walk ends at NULL. *)
Fixpoint chain (h : gmap addr Node) (cur : option addr)
    (l : list (addr * StudentRecord)) : Prop :=
  match l with
  | [] => cur = None
  | (p, r) :: l' =>
      cur = Some p /\ exists nd, h !! p = Some nd /\ data nd = r /\ chain h (next nd) l'
  end.

(** The record list is well linked: a chain from [head] that [tail] ends, and
    [malloc] has never handed out an address at or above [brk]. *)
Definition linked (st : CMS) (l : list (addr * StudentRecord)) : Prop :=
  chain (heap st) (head st) l /\
  (l <> [] -> tail st = last (l.*1)) /\
  (forall p, (brk st <= p)%nat -> heap st !! p = None).

(** The bucket a cell belongs to. *)
Definition bucket_of (pr : addr * StudentRecord) : Z := hash (id pr.2).

(** The hash table is an exact index of the list: ids are valid table keys,
    no two records share a bucket, and the table holds, for each record, its
    cell under its bucket and nothing else. *)
Definition exact_index (st : CMS) (l : list (addr * StudentRecord)) : Prop :=
  linked st l /\
  Forall (fun pr => 0 <= id pr.2) l /\
  NoDup (bucket_of <$> l) /\
  forall i p, hashTable st !! i = Some p <-> exists r, (p, r) ∈ l /\ hash (id r) = i.

(** Allocation, tail insertion and [hashInsert] of a new record, as both
    [insertDB] and the loading loop perform them. *)
Definition add_record (r : StudentRecord) (st : CMS) : option CMS :=
  let '(p, st1) := malloc (mkNode r None None) st in
  st2 ← append_node p st1;
  hashInsert p st2.

(** The record [updateDB] leaves in place of [old]: a non-empty string or a
    mark that is [>= 0.0f] overwrites, anything else keeps the field. *)
Definition patched (old : StudentRecord) (name0 programme0 : cstring) (mark0 : float)
    : StudentRecord :=
  mkRecord (id old)
    (if (0 <? length name0)%nat then name0 else name old)
    (if (0 <? length programme0)%nat then programme0 else programme old)
    (if f_le f_zero mark0 then mark0 else mark old).

(** The first cell of [l] whose record has the id. *)
Definition first_with (id0 : Z) (l : list (addr * StudentRecord))
    : option (addr * StudentRecord) :=
  List.find (fun pr => id pr.2 =? id0) l.

(** The records the reading loop of [loadDB] builds from the unread part of
    a file, as a function of the text alone. *)
Fixpoint parse_lines (fuel : nat) (rest : cstring) : option (list StudentRecord) :=
  match rest with
  | [] => Some []
  | _ :: _ =>
      match fuel with
      | O => None
      | S fuel' =>
          let '(raw, rest') := fgets (MAX_LINE - 1) rest in
          let line := cut_eol raw in
          if is_header_line line then parse_lines fuel' rest'
          else r ← parse_line line; rs ← parse_lines fuel' rest'; Some (r :: rs)
      end
  end.

Definition parse_file (content : cstring) : option (list StudentRecord) :=
  parse_lines (length content) content.

(** Each record of [rs] satisfies [okR] with respect to the records that
    stand before it (those of [S], then the earlier ones of [rs]). *)
Fixpoint all_ok (okR : StudentRecord -> list StudentRecord -> Prop)
    (S rs : list StudentRecord) : Prop :=
  match rs with
  | [] => True
  | r :: rs' => okR r S /\ all_ok okR (S ++ [r]) rs'
  end.

(** The id is a valid key of the hash table. *)
Definition valid_key (r : StudentRecord) (S : list StudentRecord) : Prop := 0 <= id r.

(** ... and its bucket is not taken by a record of [S]. *)
Definition free_bucket (r : StudentRecord) (S : list StudentRecord) : Prop :=
  0 <= id r /\ hash (id r) ∉ (fun x => hash (id x)) <$> S.

(** [index] lies inside [hashTable]. *)
Definition in_table (index : Z) : bool := (0 <=? index) && (index <? TABLE_SIZE).

(** A file [loadDB] can read on any well linked store: absent, or made of
    lines that convert without overflow into records with valid keys. *)
Definition loadable (file : option cstring) : Prop :=
  match file with
  | None => True
  | Some content => exists rs, parse_file content = Some rs /\ all_ok valid_key [] rs
  end.

(** The action on top of the undo stack describes the records [S] of the
    store: an insert put the last record there; an update left a record
    with the new values (and both records of the action stem from one
    [updateDB]); a delete took away a record whose bucket is still free; a
    restore loaded [S] from the backup file, and the primary file can be
    loaded. *)
Definition describes (a : Action) (st : CMS) (S : list StudentRecord) : Prop :=
  match a with
  | INSERT_OP new => exists S0, S = S0 ++ [new]
  | UPDATE_OP old new =>
      id old = id new /\ new ∈ S /\
      (name new = [] -> name old = []) /\
      (programme new = [] -> programme old = []) /\
      (f_le f_zero (mark new) = false -> f_le f_zero (mark old) = false)
  | DELETE_OP old => free_bucket old S
  | RESTORE_OP =>
      (exists content, disk st !! backup_path = Some content /\
                       parse_file content = Some S) /\
      loadable (disk st !! primary_path)
  end.

(** A mutation the user asks for: INSERT, UPDATE, or DELETE confirmed with
    Y. *)
Inductive Mutation :=
| M_insert (newID : Z) (newName newProgramme : cstring) (newMark : float)
| M_update (id0 : Z) (name0 programme0 : cstring) (mark0 : float)
| M_delete (id0 : Z).

Definition user_mutation (m : Mutation) (st : CMS) : option CMS :=
  match m with
  | M_insert i n p mk => insertDB i n p mk false st
  | M_update i n p mk => updateDB i n p mk false st
  | M_delete i => '(_, st') ← deleteDB i true false st; Some st'
  end.

(** [k] times [undo]. *)
Definition undo_n (k : nat) (st : CMS) : option CMS :=
  Nat.iter k (fun o => o ≫= undo) (Some st).

(** A mutation that [undo] reverses exactly on the records [S]: an insert of
    an id whose bucket is free; an update of a record of [S] that overwrites
    no empty string and no negative mark; a delete of the last record. *)
Definition reversible (m : Mutation) (S : list StudentRecord) : Prop :=
  match m with
  | M_insert i n p mk => 0 <= i /\ hash i ∉ (fun x => hash (id x)) <$> S
  | M_update i n p mk =>
      exists r, r ∈ S /\ id r = i /\
        ((0 <? length n)%nat = true -> name r <> []) /\
        ((0 <? length p)%nat = true -> programme r <> []) /\
        (f_le f_zero mk = true -> f_le f_zero (mark r) = true)
  | M_delete i => exists S0 r, S = S0 ++ [r] /\ id r = i
  end.

(** Every mutation of the sequence is reversible on the records it finds. *)
Fixpoint all_reversible (ms : list Mutation) (st : CMS) : Prop :=
  match ms with
  | [] => True
  | m :: ms' =>
      (exists S, records st = Some S /\ reversible m S) /\
      forall st', user_mutation m st = Some st' -> all_reversible ms' st'
  end.

(** Text without the characters that end a field, a line or a C string. *)
Definition is_plain (ch : ascii) : bool :=
  negb (ascii_eqb ch TAB || ascii_eqb ch CR || ascii_eqb ch LF || ascii_eqb ch NUL).

Definition plain_text (s : cstring) : Prop := forallb is_plain s = true.

(** Text without a CR, a LF or a NUL: it stays on one line. *)
Definition is_eol (ch : ascii) : bool :=
  ascii_eqb ch CR || ascii_eqb ch LF || ascii_eqb ch NUL.

Definition one_line (s : cstring) : Prop := forallb (fun ch => negb (is_eol ch)) s = true.

(** A record that survives being written by [saveDB] and read by [loadDB]:
    the id is a non-negative [int]; name and programme fit their fields and
    hold plain text; the mark prints as plain, non-empty text that [atof]
    reads back as the same mark; the whole line fits the 256-byte buffers
    and is not mistaken for a header line. *)
Definition storable (r : StudentRecord) : Prop :=
  0 <= id r <= INT_MAX /\
  plain_text (name r) /\ (length (name r) < MAX_NAME)%nat /\
  plain_text (programme r) /\ (length (programme r) < MAX_PROGRAMME)%nat /\
  plain_text (fmt_1f (mark r)) /\ fmt_1f (mark r) <> [] /\
  atof (fmt_1f (mark r)) = mark r /\
  (length (line_text r) < MAX_LINE - 1)%nat /\
  is_header_line (line_text r) = false.

(** The lines of the fixed header, without their line feeds. *)
Definition header_lines : list cstring :=
  [ c "Database Name: P4_1-CMS";
    c "Authors: P4-1";
    [];
    c "Table Name: StudentRecords";
    c "ID" ++ [TAB] ++ c "Name" ++ [TAB] ++ c "Programme" ++ [TAB] ++ c "Mark" ].

(** Everything a call leaves alone when it only works on the list and the
    hash table. *)
Definition same_env (st st' : CMS) : Prop :=
  dbModified st' = dbModified st /\
  dbLoaded st' = dbLoaded st /\
  undoStack st' = undoStack st /\
  redoStack st' = redoStack st /\
  disk st' = disk st /\
  readonly st' = readonly st /\
  stdout st' = stdout st.

Definition same_history (st st' : CMS) : Prop :=
  undoStack st' = undoStack st /\ redoStack st' = redoStack st.

(** The state in which [restoreDB] calls [loadDB]: a restore asked for by
    the user has recorded itself by then. *)
Definition restore_entry (isUndoRedo : bool) (st : CMS) : CMS :=
  match disk st !! backup_path with
  | None => st
  | Some _ => if isUndoRedo then st else pushUndo RESTORE_OP st
  end.

(** A sequence of calls, each on the state the previous one left. *)
Definition run (steps : list (CMS -> option CMS)) (st : CMS) : option CMS :=
  foldl (fun acc step => acc ≫= step) (Some st) steps.

(** *** Order of a sorted view *)

(** [r1] may stand before [r2] in an ascending view: [compare <= 0]. *)
Definition le_key (sortByID : bool) (r1 r2 : StudentRecord) : bool :=
  compare sortByID r1 r2 <=? 0.

(** The order a view is sorted by. *)
Definition view_order (sortByID ascending : bool) (r1 r2 : StudentRecord) : bool :=
  if ascending then le_key sortByID r1 r2 else le_key sortByID r2 r1.

(** [r] has the same key as [k]: the comparison says 0. *)
Definition same_key (sortByID : bool) (k r : StudentRecord) : bool :=
  compare sortByID k r =? 0.

(** Keys for which [compare] is an honest comparison: an id whose
    differences with other such ids fit an [int]. *)
Definition plain_id (r : StudentRecord) : Prop := 0 <= id r <= INT_MAX.

(** [<] on marks orders them like numbers (no NaN among them). *)
Record StrictWeakOrder (lt : float -> float -> bool) : Prop := {
  lt_asym : forall a b, lt a b = true -> lt b a = false;
  lt_neg_trans : forall a b c, lt a b = false -> lt b c = false -> lt a c = false
}.

Definition key_order_ok (sortByID : bool) (l : list StudentRecord) : Prop :=
  if sortByID then Forall plain_id l else StrictWeakOrder f_lt.

(** The call returned (it met no undefined behaviour). *)
Definition returns {A : Type} (o : option A) : bool :=
  match o with
  | Some _ => true
  | None => false
  end.

End Vocabulary.

(** Merging by a boolean order, the first list winning ties. *)
Fixpoint gmerge {A : Type} (le : A -> A -> bool) (l1 l2 : list A) : list A :=
  let fix go (l2 : list A) : list A :=
    match l1, l2 with
    | [], _ => l2
    | _, [] => l1
    | a :: l1', b :: l2' => if le a b then a :: gmerge le l1' l2 else b :: go l2'
    end in
  go l2.


(** ** Vocabulary of the further properties *)

Section MoreVocabulary.
Context {F : FloatOps}.

(** The store holds the records [S]: its list is well linked, lists [S] and
    is exactly indexed by the hash table. *)
Definition holds (st : CMS) (S : list StudentRecord) : Prop :=
  exists l, exact_index st l /\ l.*2 = S.

(** The bucket of each record. *)
Definition buckets (S : list StudentRecord) : list Z := (fun x => hash (id x)) <$> S.

(** The calls that work on the store without being asked to save. *)
Inductive Operation :=
| Op_insert (newID : Z) (newName newProgramme : cstring) (newMark : float) (isUndoRedo : bool)
| Op_update (id0 : Z) (name0 programme0 : cstring) (mark0 : float) (isUndoRedo : bool)
| Op_delete (id0 : Z) (confirm isUndoRedo : bool)
| Op_load (filename : string)
| Op_open
| Op_restore (isUndoRedo : bool)
| Op_undo
| Op_redo
| Op_free.

Definition perform (op : Operation) (st : CMS) : option CMS :=
  match op with
  | Op_insert i n p m b => insertDB i n p m b st
  | Op_update i n p m b => updateDB i n p m b st
  | Op_delete i cf b => '(_, st') ← deleteDB i cf b st; Some st'
  | Op_load f => loadDB f st
  | Op_open => openDB st
  | Op_restore b => restoreDB b st
  | Op_undo => undo st
  | Op_redo => redo st
  | Op_free => freeDB st
  end.

(** A C string: no NUL inside. *)
Definition nul_free (s : cstring) : Prop := cstr s = s.

(** A record whose three texts are C strings, as every record in memory is. *)
Definition text_record (r : StudentRecord) : Prop :=
  nul_free (name r) /\ nul_free (programme r) /\ nul_free (fmt_1f (mark r)).

End MoreVocabulary.

(** *** The input layer *)

(** The syntax [validateMark] is after: an optional sign, then digits with
    at most one point among them and at least one digit. *)
Definition is_point (ch : ascii) : bool := ascii_eqb ch "."%char.

Definition mark_body (body : cstring) : Prop :=
  Forall (fun ch => isdigit ch = true \/ is_point ch = true) body /\
  (length (List.filter is_point body) <= 1)%nat /\
  Exists (fun ch => isdigit ch = true) body.

Definition mark_syntax (s : cstring) : Prop :=
  mark_body s \/ exists body, (s = "+"%char :: body \/ s = "-"%char :: body) /\ mark_body body.

(** Equal up to letter case. *)
Definition same_nocase (a b : cstring) : Prop := tolower <$> a = tolower <$> b.

(** A word: no white space inside. *)
Definition word (s : cstring) : Prop := Forall (fun ch => isspace ch = false) s.

Section InputVocabulary.
Context {F : FloatOps}.

(** What [parseCommand] keeps true of its out-parameters: the id is still
    the initial [-1] or a valid id, the two texts fit their 100-byte buffers
    and are in title case, the mark is the initial [0.0f] or lies in the
    range, and in the mode of QUERY and DELETE nothing but the id is set. *)
Definition mark_in_range (m : float) : Prop :=
  f_lt m f_zero = false /\ f_lt f_hundred m = false.

Definition fields_ok (optionalMode : Z) (acc : Parsed) : Prop :=
  (p_id acc = -1 \/ 2000000 <= p_id acc <= 2999999) /\
  (length (p_name acc) < MAX_NAME)%nat /\ toTitleCase (p_name acc) = p_name acc /\
  (length (p_programme acc) < MAX_PROGRAMME)%nat /\
  toTitleCase (p_programme acc) = p_programme acc /\
  (p_mark acc = f_zero \/ mark_in_range (p_mark acc)) /\
  (optionalMode = OPTIONAL_NONE ->
     p_name acc = [] /\ p_programme acc = [] /\ p_mark acc = f_zero /\
     p_optionalProvided acc = false).

End InputVocabulary.

Section DisplayVocabulary.
Context {F : FloatOps} {G : FloatSummary F}.

(** [st'] is [st] with more output: nothing else differs. *)
Definition prints_only (st st' : CMS) : Prop := exists texts, st' = prints texts st.

(** The question [main] puts before it deletes. *)
Definition delete_question (i : Z) : cstring :=
  c "CMS: Are you sure you want to delete record with ID="
    ++ fmt_d i ++ c "? Type " ++ [DQUOTE] ++ c "Y" ++ [DQUOTE]
    ++ c " to confirm or " ++ [DQUOTE] ++ c "N" ++ [DQUOTE]
    ++ c " to cancel." ++ [LF].

(** The warning [main] prints before it restores. *)
Definition restore_warning : cstring :=
  c "CMS: WARNING: This will overwrite the current in-memory state with the backup file. Are you sure? Type "
    ++ [DQUOTE] ++ c "Y" ++ [DQUOTE] ++ c " to confirm or " ++ [DQUOTE]
    ++ c "N" ++ [DQUOTE] ++ c " to cancel." ++ [LF].

(** The words of a line: what stands between blanks. *)
Fixpoint split_blanks (cur s : cstring) : list cstring :=
  match s with
  | [] => match cur with [] => [] | _ :: _ => [cur] end
  | ch :: s' =>
      if ascii_eqb ch SPACE then
        match cur with
        | [] => split_blanks [] s'
        | _ :: _ => cur :: split_blanks [] s'
        end
      else split_blanks (cur ++ [ch]) s'
  end.

Definition words_of (s : cstring) : list cstring := split_blanks [] s.

(** The SHOW ALL requests by the words that follow SORT ... *)
Definition sort_words (ws : list cstring) : ShowRequest :=
  match ws with
  | [] => show_error "CMS: Expected 'SORT BY'."
  | by_ :: ws1 =>
      if negb (strcasecmp_eq by_ (c "BY")) then show_error "CMS: Expected 'SORT BY'."
      else
        match ws1 with
        | [] => show_error "CMS: Missing sort field (ID or MARK)."
        | field :: ws2 =>
            if strcasecmp_eq field (c "ID") || strcasecmp_eq field (c "MARK") then
              match ws2 with
              | [] => ShowSorted (strcasecmp_eq field (c "ID")) true
              | order :: ws3 =>
                  if strcasecmp_eq order (c "DESC") || strcasecmp_eq order (c "ASC") then
                    match ws3 with
                    | _ :: _ => show_error "CMS: Invalid trailing input."
                    | [] => ShowSorted (strcasecmp_eq field (c "ID"))
                              (negb (strcasecmp_eq order (c "DESC")))
                    end
                  else show_error "CMS: Invalid sort order. Use ASC or DESC."
              end
            else show_error "CMS: Invalid sort field. Use ID or MARK."
        end
  end.

(** ... and by the words that follow ALL. *)
Definition all_words (ws : list cstring) : ShowRequest :=
  match ws with
  | [] => ShowAll
  | w :: ws1 =>
      if strcasecmp_eq w (c "SORT") then sort_words ws1
      else show_error "CMS: Invalid SHOW ALL format."
  end.

End DisplayVocabulary.
(** ** Concrete stores and command scripts *)

Section Scenarios.
#[local] Existing Instance decimal_float.

Definition student (i : Z) (n p : string) (m : Z) : StudentRecord :=
  mkRecord i (c n) (c p) (Qmake m 1).

(** The data directory with a primary file that holds the given records. *)
Definition data_dir (rs : list StudentRecord) : gmap string cstring :=
  {[ primary_path := serialise rs ]}.

(** The store after the user has typed OPEN on such a directory. *)
Definition opened (rs : list StudentRecord) : option CMS :=
  openDB (fresh_store (data_dir rs)).

(** What can be observed of a run: the records in list order, their ids,
    and the record found for an id. *)
Definition records_of (o : option CMS) : option (list StudentRecord) :=
  o ≫= records.

Definition ids_of (o : option CMS) : option (list Z) :=
  match records_of o with
  | Some rs => Some (map id rs)
  | None => None
  end.

Definition lookup_of (id0 : Z) (o : option CMS) : option (option StudentRecord) :=
  o ≫= lookup_record id0.

Definition then_run (steps : list (CMS -> option CMS)) (o : option CMS) : option CMS :=
  o ≫= run steps.

(** Two ids that differ by [TABLE_SIZE] and so share a bucket. *)
Definition colliding_inserts : list (CMS -> option CMS) :=
  [ main_command (c "INSERT ID=2000000 NAME=ann PROGRAMME=cs MARK=90");
    main_command (c "INSERT ID=2002003 NAME=ben PROGRAMME=cs MARK=80") ].

Definition bob : StudentRecord := student 2000002 "Bob" "Ee" 50.

Definition tie_records : list StudentRecord :=
  [ student 2000004 "A" "X" 80; student 2000005 "B" "X" 80; student 2000006 "C" "X" 70 ].

Definition amy : StudentRecord := student 2000001 "Amy" "Cs" 60.
Definition cy : StudentRecord := student 2000003 "Cy" "Ee" 70.
Definition nameless : StudentRecord := student 2000005 "" "Ee" 50.

(** DELETE ID=... answered with Y. *)
Definition confirmed_delete (id0 : Z) (st : CMS) : option CMS :=
  '(_, st') ← deleteDB id0 true false st; Some st'.

(** A store on [amy; bob] after INSERT of [cy], DELETE of [amy] and one
    UNDO: the insert of [cy] is on top of the undo stack again. *)
Definition shuffled : option CMS :=
  then_run
    [ main_command (c "INSERT ID=2000003 NAME=cy PROGRAMME=ee MARK=70");
      confirmed_delete 2000001;
      undo ]
    (opened [amy; bob]).

Definition top_of_undoStack (o : option CMS) : option Action :=
  st ← o; hd_error (undoStack st).

(** The ids of SHOW ALL SORT BY ..., in the order of the view. *)
Definition sorted_ids (sortByID ascending : bool) (o : option CMS) : option (list Z) :=
  match o ≫= showDBSorted sortByID ascending with
  | Some view => Some (map id view)
  | None => None
  end.

(** A loaded store whose primary file has since disappeared. *)
Definition orphaned : option CMS :=
  st ← opened [bob]; Some (set_disk ∅ st).

(** The same store as a state, and the store after one more UPDATE. *)
Definition orphaned_store : CMS := default (fresh_store ∅) orphaned.

Definition edited : CMS :=
  default (fresh_store ∅)
    (then_run [main_command (c "UPDATE ID=2000002 MARK=75")] (opened [bob])).

Definition edited_reloaded : CMS := default edited (loadDB primary_path edited).
Definition edited_reopened : CMS := default edited (openDB edited).
Definition edited_restored : CMS := default edited (restoreDB false edited).

(** The store on [bob] after OPEN, after an insert of [cy], and a sequence
    of three reversible mutations on it. *)
Definition opened_bob : CMS := default (fresh_store ∅) (opened [bob]).

Definition with_cy : CMS :=
  default opened_bob (insertDB 2000003 (c "Cy") (c "Ee") (Qmake 70 1) false opened_bob).

Definition three_mutations : list Mutation :=
  [ M_insert 2000003 (c "Cy") (c "Ee") (Qmake 70 1);
    M_update 2000002 [] [] (Qmake 75 1);
    M_delete 2000003 ].

(** A store on [bob] after the user has inserted a mark with two fractional
    digits, and the fresh store loaded from the serialised records of a
    store. *)
Definition al (m : Q) : StudentRecord := mkRecord 2000007 (c "Al") (c "Cs") m.

Definition with_al : option CMS :=
  then_run [main_command (c "INSERT ID=2000007 NAME=al PROGRAMME=cs MARK=85.25")]
    (opened [bob]).

Definition reloaded (o : option CMS) : option CMS :=
  rs ← records_of o; loadDB primary_path (fresh_store (data_dir rs)).

(** A primary file whose only mark is written without a fractional digit,
    and OPEN followed by SAVE on it. *)
Definition whole_mark_file : cstring :=
  file_header ++
  c "2000002" ++ [TAB] ++ c "Bob" ++ [TAB] ++ c "Ee" ++ [TAB] ++ c "50" ++ [LF].

Definition whole_mark_opened : option CMS :=
  openDB (fresh_store {[ primary_path := whole_mark_file ]}).

Definition file_of (path : string) (o : option CMS) : option cstring :=
  st ← o; disk st !! path.

Definition last_message (o : option CMS) : option cstring :=
  st ← o; last (stdout st).

End Scenarios.


(** ** Stores and inputs for the further properties *)

Section MoreScenarios.
#[local] Existing Instance decimal_float.
#[local] Existing Instance decimal_summary.

(** The store after OPEN on a file of three records. *)
Definition opened3 : CMS := default (fresh_store ∅) (opened [amy; bob; cy]).

Definition dan : StudentRecord := student 2000004 "Dan" "Cs" 80.

(** A data directory with a primary file and a backup file. *)
Definition two_files (primary backup : list StudentRecord) : gmap string cstring :=
  {[ primary_path := serialise primary; backup_path := serialise backup ]}.

Definition opened_with_backup : CMS :=
  default (fresh_store ∅) (openDB (fresh_store (two_files [amy; bob] [cy]))).

(** [edited] with a primary file that cannot be opened for writing. *)
Definition locked (st : CMS) : CMS :=
  mkCMS (heap st) (brk st) (head st) (tail st) (hashTable st) (dbModified st) (dbLoaded st)
    (undoStack st) (redoStack st) (disk st) {[ primary_path ]} (stdout st).

Definition busy_session : list Operation :=
  [ Op_insert 2000004 (c "Dan") (c "Cs") (Qmake 80 1) false;
    Op_update 2000002 (c "Bobby") [] (Qmake 55 1) false;
    Op_delete 2000001 true false;
    Op_undo; Op_undo; Op_redo;
    Op_load primary_path ].

Definition bob75 : StudentRecord := student 2000002 "Bob" "Ee" 75.

Definition eve : StudentRecord := student 2000005 "Eve" "Cs" 90.

(** A session on two files in which the user has inserted [dan] and [eve]
    and taken the second insert back: one action waits on each stack. *)
Definition session_with_history : CMS :=
  default (fresh_store ∅)
    (st1 ← insertDB 2000004 (c "Dan") (c "Cs") (Qmake 80 1) false opened_with_backup;
     st2 ← insertDB 2000005 (c "Eve") (c "Cs") (Qmake 90 1) false st1;
     undo st2).

(** The same session after a reload that found no primary file (the store
    is then empty and no longer loaded), the file being back in place. *)
Definition closed_with_history : CMS :=
  default (fresh_store ∅)
    (st ← loadDB primary_path
            (set_disk {[ backup_path := serialise [cy] ]} session_with_history);
     Some (set_disk (two_files [amy; bob] [cy]) st)).

End MoreScenarios.
(** ** Frame properties of the list and table primitives *)

Section Frames.
Context {F : FloatOps}.

Lemma returns_default {A : Type} (o : option A) (d : A) :
  returns o = true -> o = Some (default d o).
Proof. by destruct o. Qed.

Lemma same_env_refl (st : CMS) : same_env st st.
Proof. by repeat split. Qed.

Lemma same_env_trans (st1 st2 st3 : CMS) :
  same_env st1 st2 -> same_env st2 st3 -> same_env st1 st3.
Proof.
  unfold same_env. intros (a1 & a2 & a3 & a4 & a5 & a6 & a7) (b1 & b2 & b3 & b4 & b5 & b6 & b7).
  repeat split; congruence.
Qed.

Lemma store_next_env p q st st' : store_next p q st = Some st' -> same_env st st'.
Proof.
  unfold store_next. intros H. destruct (heap st !! p); simplify_eq/=. by repeat split.
Qed.

Lemma hashInsert_env p st st' : hashInsert p st = Some st' -> same_env st st'.
Proof.
  unfold hashInsert, bucket. intros H. destruct (heap st !! p); simplify_eq/=.
  case_match; simplify_eq/=. by repeat split.
Qed.

Lemma append_node_env p st st' : append_node p st = Some st' -> same_env st st'.
Proof.
  unfold append_node. intros H. destruct (head st); simplify_eq/=; [|by repeat split].
  destruct (tail st); simplify_eq/=.
  destruct (store_next _ _ _) as [st1|] eqn:E; simplify_eq/=.
  apply store_next_env in E. destruct E as (a1 & a2 & a3 & a4 & a5 & a6 & a7).
  by repeat split.
Qed.

Lemma freeDB_loop_env fuel cur st st' :
  freeDB_loop fuel cur st = Some st' -> same_env st st'.
Proof.
  revert cur st. induction fuel as [|fuel IH]; intros [p|] st H; simplify_eq/=;
    try apply same_env_refl.
  destruct (heap st !! p) as [nd|]; simplify_eq/=.
  apply IH in H. eapply same_env_trans; [|exact H]. by repeat split.
Qed.

Lemma freeDB_env st st' : freeDB st = Some st' -> same_env st st'.
Proof.
  unfold freeDB. intros H.
  destruct (freeDB_loop _ _ _) as [st1|] eqn:E; simplify_eq/=.
  apply freeDB_loop_env in E. destruct E as (a1 & a2 & a3 & a4 & a5 & a6 & a7).
  by repeat split.
Qed.

Lemma load_line_env line st st' : load_line line st = Some st' -> same_env st st'.
Proof.
  unfold load_line. intros H.
  destruct (parse_line line) as [r|]; simplify_eq/=.
  destruct (append_node _ _) as [st2|] eqn:E; simplify_eq/=.
  apply append_node_env in E. apply hashInsert_env in H.
  eapply same_env_trans; [|exact H]. eapply same_env_trans; [|exact E].
  by repeat split.
Qed.

Lemma loadDB_loop_env fuel rest st st' :
  loadDB_loop fuel rest st = Some st' -> same_env st st'.
Proof.
  revert rest st. induction fuel as [|fuel IH]; intros [|ch rest] st H; simplify_eq/=;
    try apply same_env_refl.
  destruct (fgets _ _) as [raw rest'].
  destruct (is_header_line _); [by eapply IH|].
  destruct (load_line _ _) as [st1|] eqn:E; simplify_eq/=.
  apply load_line_env in E. apply IH in H. by eapply same_env_trans.
Qed.

Lemma same_env_history st st' : same_env st st' -> same_history st st'.
Proof. intros (a1 & a2 & a3 & a4 & a5 & a6 & a7). by split. Qed.

Lemma loadDB_history filename st st' :
  loadDB filename st = Some st' -> same_history st st'.
Proof.
  unfold loadDB. intros H.
  destruct (freeDB st) as [st1|] eqn:E1; simplify_eq/=.
  apply freeDB_env, same_env_history in E1. destruct E1 as [u1 r1].
  destruct (disk st1 !! filename) as [content|]; simplify_eq/=; [|by split].
  destruct (loadDB_loop _ _ _) as [st3|] eqn:E3; simplify_eq/=.
  apply loadDB_loop_env, same_env_history in E3. destruct E3 as [u3 r3].
  split; simpl in *; congruence.
Qed.

End Frames.


(** ** Chains of cells *)

Section Chains.
Context {F : FloatOps}.
Implicit Types (h : gmap addr Node) (l : list (addr * StudentRecord)).

Lemma chain_det h cur l1 l2 : chain h cur l1 -> chain h cur l2 -> l1 = l2.
Proof.
  revert cur l2. induction l1 as [|[p r] l1 IH]; intros cur [|[p2 r2] l2]; simpl.
  - done.
  - intros -> [? _]. done.
  - intros [-> _] ?. done.
  - intros [-> (nd & Hnd & <- & Hc)] [? (nd2 & Hnd2 & <- & Hc2)]. simplify_eq.
    f_equal. by eapply IH.
Qed.

Lemma chain_app_inv h cur l1 l2 :
  chain h cur (l1 ++ l2) -> exists cur', chain h cur' l2.
Proof.
  revert cur. induction l1 as [|[p r] l1 IH]; intros cur; simpl; [eauto|].
  intros [-> (nd & Hnd & <- & Hc)]. eauto.
Qed.

Lemma chain_head h cur p r l : chain h cur ((p, r) :: l) -> cur = Some p.
Proof. by intros [-> _]. Qed.

Lemma chain_NoDup h cur l : chain h cur l -> NoDup (l.*1).
Proof.
  revert cur. induction l as [|[p r] l IH]; intros cur; simpl; [constructor|].
  intros [-> (nd & Hnd & <- & Hc)]. constructor; [|by eapply IH].
  intros Hin. apply list_elem_of_fmap in Hin as ([p' r'] & Hp & Hin). simpl in Hp. subst p'.
  apply list_elem_of_split in Hin as (l1 & l2 & ->).
  destruct (chain_app_inv _ _ _ _ Hc) as [cur' Hc'].
  pose proof (chain_head _ _ _ _ _ Hc') as ->.
  assert (chain h (Some p) ((p, data nd) :: l1 ++ (p, r') :: l2)) as Hfull.
  { simpl. split; [done|]. by exists nd. }
  pose proof (chain_det _ _ _ _ Hfull Hc') as Heq.
  apply (f_equal length) in Heq. simpl in Heq. rewrite length_app in Heq. simpl in Heq. lia.
Qed.

Lemma chain_lookup h cur l p :
  chain h cur l -> p ∈ l.*1 -> is_Some (h !! p).
Proof.
  revert cur. induction l as [|[q r] l IH]; intros cur; simpl.
  - intros _ Hin. by apply elem_of_nil in Hin.
  - intros [-> (nd & Hnd & <- & Hc)] Hin. apply elem_of_cons in Hin as [->|Hin]; eauto.
Qed.

Lemma chain_length h cur l : chain h cur l -> (length l <= size h)%nat.
Proof.
  intros Hc.
  assert (l.*1 ⊆+ elements (dom h)) as Hsub.
  { apply NoDup_submseteq; [by eapply chain_NoDup|].
    intros p Hp. apply elem_of_elements, elem_of_dom. by eapply chain_lookup. }
  apply submseteq_length in Hsub.
  rewrite length_fmap in Hsub. by rewrite <- size_dom.
Qed.

Lemma chain_insert_fresh h cur l p nd :
  chain h cur l -> p ∉ l.*1 -> chain (<[p := nd]> h) cur l.
Proof.
  revert cur. induction l as [|[q r] l IH]; intros cur; simpl; [done|].
  intros [-> (nd' & Hnd & <- & Hc)] Hp. apply not_elem_of_cons in Hp as [Hpq Hp].
  split; [done|]. exists nd'. rewrite lookup_insert_ne; [|done]. eauto.
Qed.

Lemma chain_delete_fresh h cur l p :
  chain h cur l -> p ∉ l.*1 -> chain (delete p h) cur l.
Proof.
  revert cur. induction l as [|[q r] l IH]; intros cur; simpl; [done|].
  intros [-> (nd' & Hnd & <- & Hc)] Hp. apply not_elem_of_cons in Hp as [Hpq Hp].
  split; [done|]. exists nd'. rewrite lookup_delete_ne; [|done]. eauto.
Qed.

Lemma walk_chain fuel h cur l :
  chain h cur l -> (length l <= fuel)%nat -> walk fuel h cur = Some (l.*2).
Proof.
  revert cur fuel. induction l as [|[p r] l IH]; intros cur fuel; simpl.
  - intros -> _. by destruct fuel.
  - intros [-> (nd & Hnd & <- & Hc)] Hlen. destruct fuel as [|fuel]; [lia|].
    simpl. rewrite Hnd. simpl. rewrite (IH _ fuel); [done|done|lia].
Qed.

Lemma records_chain st l : chain (heap st) (head st) l -> records st = Some (l.*2).
Proof. intros Hc. apply walk_chain; [done|]. by eapply chain_length. Qed.

(** [freeDB] on a well linked list: every cell of the list is released and
    nothing else changes. *)
Lemma freeDB_loop_chain fuel cur st l :
  chain (heap st) cur l -> (length l <= fuel)%nat ->
  exists st', freeDB_loop fuel cur st = Some st' /\
    same_env st st' /\ head st' = head st /\ tail st' = tail st /\
    hashTable st' = hashTable st /\ brk st' = brk st /\
    (forall p, heap st !! p = None -> heap st' !! p = None).
Proof.
  revert cur fuel st. induction l as [|[p r] l IH]; intros cur fuel st.
  - simpl. intros -> _. exists st.
    destruct fuel; simpl; (split; [done|]); (split; [apply same_env_refl|]); by repeat split.
  - intros Hc Hlen. pose proof (chain_NoDup _ _ _ Hc) as Hnd. simpl in Hnd.
    apply NoDup_cons in Hnd as [Hp Hnd].
    destruct Hc as [-> (nd & Hlk & <- & Hc)]. destruct fuel as [|fuel]; [simpl in Hlen; lia|].
    simpl. rewrite Hlk. simpl.
    destruct (IH (next nd) fuel (free p st)) as (st' & Hrun & Henv & Hh & Ht & Htab & Hb & Hfresh).
    { simpl. by apply chain_delete_fresh. }
    { simpl in Hlen. lia. }
    exists st'. split; [done|]. split.
    { eapply same_env_trans; [|exact Henv]. by repeat split. }
    repeat split; try done.
    intros q Hq. apply Hfresh. simpl. destruct (decide (p = q)) as [->|Hne];
      [apply lookup_delete_eq|by rewrite lookup_delete_ne].
Qed.

Lemma freeDB_linked st l :
  linked st l ->
  exists st', freeDB st = Some st' /\ same_env st st' /\ head st' = None /\
    hashTable st' = hashTable st /\ brk st' = brk st /\
    (forall p, (brk st' <= p)%nat -> heap st' !! p = None).
Proof.
  intros (Hc & Ht & Hb). unfold freeDB.
  destruct (freeDB_loop_chain (size (heap st)) (head st) st l Hc)
    as (st' & Hrun & Henv & Hh & Htl & Htab & Hbrk & Hfresh).
  { by eapply chain_length. }
  rewrite Hrun. simpl. eexists. split; [done|].
  destruct Henv as (a1 & a2 & a3 & a4 & a5 & a6 & a7).
  repeat split; simpl; try done. intros p Hp. apply Hfresh, Hb. lia.
Qed.

End Chains.

(** ** History and failed loads *)

Section History.
Context {F : FloatOps}.

(** C9 (as amended).  When [loadDB] cannot open its file on a well linked
    store, it returns normally and prints the message; [dbModified], both
    stacks and the files are as before, but the record list and the hash
    table have been emptied and [dbLoaded] is false, whatever was loaded
    before. *)
Theorem failed_load_empties_store (filename : string) (st : CMS)
    (l : list (addr * StudentRecord)) :
  linked st l -> disk st !! filename = None ->
  exists st', loadDB filename st = Some st' /\
    records st' = Some [] /\ hashTable st' = ∅ /\ dbLoaded st' = false /\
    dbModified st' = dbModified st /\ same_history st st' /\ disk st' = disk st /\
    stdout st' = stdout st ++
      [c "CMS: Could not open file " ++ [DQUOTE] ++ c filename ++ [DQUOTE] ++ c "." ++ [LF]].
Proof.
  intros Hl Hd.
  destruct (freeDB_linked st l Hl) as (st1 & Hfree & Henv & Hh & Htab & Hb & Hfresh).
  destruct Henv as (a1 & a2 & a3 & a4 & a5 & a6 & a7).
  unfold loadDB. rewrite Hfree. simpl. rewrite a5, Hd. eexists. split; [done|].
  unfold records. simpl. rewrite Hh.
  repeat split; simpl; try done; try congruence.
  by destruct (size (heap st1)).
Qed.

End History.

(** ** Merging and sorting *)

Section Merge.
Context {A : Type} (le : A -> A -> bool) (ok : A -> Prop).
Hypothesis le_total : forall a b, ok a -> ok b -> le a b = false -> le b a = true.
Hypothesis le_trans :
  forall a b c, ok a -> ok b -> ok c -> le a b = true -> le b c = true -> le a c = true.

Let leP (a b : A) : Prop := le a b = true.

Lemma gmerge_nil_r (l1 : list A) : gmerge le l1 [] = l1.
Proof. by destruct l1. Qed.

Lemma gmerge_cons (a b : A) (l1 l2 : list A) :
  gmerge le (a :: l1) (b :: l2) =
    if le a b then a :: gmerge le l1 (b :: l2) else b :: gmerge le (a :: l1) l2.
Proof. done. Qed.

Lemma gmerge_perm (l1 l2 : list A) : Permutation (gmerge le l1 l2) (l1 ++ l2).
Proof.
  revert l2. induction l1 as [|a l1 IH]; intros l2; [by destruct l2|].
  induction l2 as [|b l2 IH2].
  - rewrite gmerge_nil_r. by rewrite app_nil_r.
  - rewrite gmerge_cons. destruct (le a b).
    + simpl. constructor. apply IH.
    + etransitivity; [apply perm_skip, IH2|].
      change ((a :: l1) ++ b :: l2) with (a :: (l1 ++ b :: l2)).
      rewrite <- Permutation_middle. apply perm_swap.
Qed.

Lemma gmerge_Forall (Q : A -> Prop) (l1 l2 : list A) :
  Forall Q l1 -> Forall Q l2 -> Forall Q (gmerge le l1 l2).
Proof.
  intros H1 H2. eapply Permutation_Forall; [symmetry; apply gmerge_perm|].
  by apply Forall_app.
Qed.

Lemma gmerge_sorted (l1 l2 : list A) :
  Forall ok l1 -> Forall ok l2 ->
  StronglySorted leP l1 -> StronglySorted leP l2 -> StronglySorted leP (gmerge le l1 l2).
Proof.
  revert l2. induction l1 as [|a l1 IH]; intros l2; [by destruct l2|].
  induction l2 as [|b l2 IH2]; intros Hok1 Hok2 Hs1 Hs2.
  - by rewrite gmerge_nil_r.
  - rewrite gmerge_cons.
    apply Forall_cons in Hok1 as [Hoka Hok1]. apply Forall_cons in Hok2 as [Hokb Hok2].
    apply StronglySorted_inv in Hs1 as [Hs1 Ha]. apply StronglySorted_inv in Hs2 as [Hs2 Hb].
    destruct (le a b) eqn:Hab.
    + constructor.
      * apply IH; first [done | by constructor].
      * apply gmerge_Forall; [done|]. constructor; [done|].
        rewrite Forall_forall in Hb. rewrite Forall_forall in Hok2.
        apply Forall_forall. intros x Hx. apply (le_trans a b x); auto. by apply Hb.
    + constructor.
      * apply IH2; first [done | by constructor].
      * assert (le b a = true) as Hba by (by apply le_total).
        apply gmerge_Forall; [|done]. constructor; [done|].
        rewrite Forall_forall in Ha. rewrite Forall_forall in Hok1.
        apply Forall_forall. intros x Hx. apply (le_trans b a x); auto. by apply Ha.
Qed.

(** Elements picked by [P] are equivalent for the order; the merge keeps
    those of the first list before those of the second. *)
Lemma gmerge_filter (P : A -> bool) (l1 l2 : list A) :
  (forall x y, ok x -> ok y -> P x = true -> P y = true -> le y x = true) ->
  Forall ok l1 -> Forall ok l2 -> StronglySorted leP l1 ->
  List.filter P (gmerge le l1 l2) = List.filter P l1 ++ List.filter P l2.
Proof.
  intros HP. revert l2. induction l1 as [|a l1 IH]; intros l2; [by destruct l2|].
  induction l2 as [|b l2 IH2]; intros Hok1 Hok2 Hs1.
  - rewrite gmerge_nil_r. by rewrite app_nil_r.
  - rewrite gmerge_cons.
    pose proof Hok1 as Hok1'. pose proof Hok2 as Hok2'. pose proof Hs1 as Hs1'.
    apply Forall_cons in Hok1 as [Hoka Hok1]. apply Forall_cons in Hok2 as [Hokb Hok2].
    apply StronglySorted_inv in Hs1 as [Hs1 Ha].
    destruct (le a b) eqn:Hab.
    + simpl. rewrite IH by done. simpl. by destruct (P a).
    + assert (List.filter P (b :: gmerge le (a :: l1) l2) =
              if P b then b :: List.filter P (gmerge le (a :: l1) l2)
              else List.filter P (gmerge le (a :: l1) l2)) as -> by done.
      assert (List.filter P (b :: l2) =
              if P b then b :: List.filter P l2 else List.filter P l2) as -> by done.
      rewrite IH2 by done.
      destruct (P b) eqn:HPb; [|done].
      assert (List.filter P (a :: l1) = []) as ->; [|done].
      assert (Forall (fun x => P x = false) (a :: l1)) as Hnone.
      { constructor.
        - destruct (P a) eqn:HPa; [|done].
          rewrite (HP b a) in Hab; done.
        - rewrite Forall_forall in Ha. rewrite Forall_forall in Hok1.
          apply Forall_forall. intros x Hx. destruct (P x) eqn:HPx; [|done].
          assert (le x b = true) as Hxb by (apply HP; auto).
          rewrite (le_trans a x b) in Hab; auto. by apply Ha. }
      clear -Hnone. induction Hnone as [|x l Hx _ IHl]; [done|].
      simpl. by rewrite Hx.
Qed.

End Merge.

Section Sorting.
Context {F : FloatOps}.
Implicit Types (l : list StudentRecord) (r : StudentRecord).

Lemma mergeSorted_nil_r l sortByID ascending : mergeSorted l [] sortByID ascending = l.
Proof. by destruct l. Qed.

Lemma mergeSorted_cons r1 r2 l1 l2 sortByID ascending :
  mergeSorted (r1 :: l1) (r2 :: l2) sortByID ascending =
    if takes_list1 sortByID ascending r1 r2
    then r1 :: mergeSorted l1 (r2 :: l2) sortByID ascending
    else r2 :: mergeSorted (r1 :: l1) l2 sortByID ascending.
Proof. done. Qed.

(** Ascending, [mergeSorted] is the merge by [<=] with the first list
    winning ties. *)
Lemma mergeSorted_asc l1 l2 sortByID :
  mergeSorted l1 l2 sortByID true = gmerge (view_order sortByID true) l1 l2.
Proof.
  revert l2. induction l1 as [|a l1 IH]; intros l2; [by destruct l2|].
  induction l2 as [|b l2 IH2]; [done|].
  rewrite mergeSorted_cons, gmerge_cons. unfold takes_list1, view_order, le_key. simpl.
  rewrite orb_false_r. destruct (compare sortByID a b <=? 0); by f_equal.
Qed.

(** Descending, it is the merge by [>=] in which the second list wins
    ties. *)
Lemma mergeSorted_desc l1 l2 sortByID :
  mergeSorted l1 l2 sortByID false = gmerge (view_order sortByID false) l2 l1.
Proof.
  revert l2. induction l1 as [|a l1 IH]; intros l2; [by destruct l2|].
  induction l2 as [|b l2 IH2]; [done|].
  rewrite mergeSorted_cons, gmerge_cons. unfold takes_list1, view_order, le_key. simpl.
  rewrite Z.ltb_antisym. destruct (compare sortByID a b <=? 0); simpl; by f_equal.
Qed.

Lemma slow_steps_bound l : (2 * slow_steps l <= length l)%nat.
Proof.
  assert (forall n l, (length l <= n)%nat -> (2 * slow_steps l <= length l)%nat) as H.
  { induction n as [|n IH]; intros [|a [|b l']]; simpl; intros Hlen; try lia.
    specialize (IH l'). lia. }
  by apply (H (length l)).
Qed.

Lemma mergeSort_rec_step fuel a b l sortByID ascending :
  mergeSort_rec (S fuel) (a :: b :: l) sortByID ascending =
    mergeSorted
      (mergeSort_rec fuel (take (S (slow_steps (b :: l))) (a :: b :: l)) sortByID ascending)
      (mergeSort_rec fuel (drop (S (slow_steps (b :: l))) (a :: b :: l)) sortByID ascending)
      sortByID ascending.
Proof. done. Qed.

Section Spec.
Variables (sortByID : bool) (ok : StudentRecord -> Prop).
Hypothesis key_total :
  forall a b, ok a -> ok b -> le_key sortByID a b = false -> le_key sortByID b a = true.
Hypothesis key_trans :
  forall a b c, ok a -> ok b -> ok c ->
    le_key sortByID a b = true -> le_key sortByID b c = true -> le_key sortByID a c = true.

Lemma view_total ascending a b :
  ok a -> ok b -> view_order sortByID ascending a b = false ->
  view_order sortByID ascending b a = true.
Proof. destruct ascending; simpl; auto. Qed.

Lemma view_trans ascending a b c :
  ok a -> ok b -> ok c ->
  view_order sortByID ascending a b = true -> view_order sortByID ascending b c = true ->
  view_order sortByID ascending a c = true.
Proof. destruct ascending; simpl; eauto. Qed.

Lemma mergeSort_rec_spec ascending fuel l :
  (length l <= fuel)%nat -> Forall ok l ->
  Permutation (mergeSort_rec fuel l sortByID ascending) l /\
  StronglySorted (fun r1 r2 => view_order sortByID ascending r1 r2 = true)
    (mergeSort_rec fuel l sortByID ascending) /\
  forall P : StudentRecord -> bool,
    (forall x y, ok x -> ok y -> P x = true -> P y = true -> le_key sortByID y x = true) ->
    List.filter P (mergeSort_rec fuel l sortByID ascending) =
      if ascending then List.filter P l else rev (List.filter P l).
Proof.
  revert l. induction fuel as [|fuel IH]; intros l Hlen Hok.
  { destruct l; [|simpl in Hlen; lia]. simpl.
    split; [done|]. split; [constructor|]. intros P _. by destruct ascending. }
  destruct l as [|a [|b l]].
  { simpl. split; [done|]. split; [constructor|]. intros P _. by destruct ascending. }
  { simpl. split; [done|]. split; [repeat constructor|]. intros P _.
    destruct ascending; [done|]. by destruct (P a). }
  rewrite mergeSort_rec_step.
  set (k := S (slow_steps (b :: l))). set (whole := a :: b :: l) in *.
  assert (1 <= k < length whole)%nat as Hk.
  { pose proof (slow_steps_bound (b :: l)). subst k whole. simpl in *. lia. }
  destruct (IH (take k whole)) as (Hp1 & Hs1 & Hf1).
  { rewrite length_take. lia. }
  { by apply Forall_take. }
  destruct (IH (drop k whole)) as (Hp2 & Hs2 & Hf2).
  { rewrite length_drop. lia. }
  { by apply Forall_drop. }
  assert (Forall ok (mergeSort_rec fuel (take k whole) sortByID ascending)) as Hok1.
  { eapply Permutation_Forall; [symmetry; exact Hp1|]. by apply Forall_take. }
  assert (Forall ok (mergeSort_rec fuel (drop k whole) sortByID ascending)) as Hok2.
  { eapply Permutation_Forall; [symmetry; exact Hp2|]. by apply Forall_drop. }
  assert (Permutation (take k whole ++ drop k whole) whole) as Hwhole
    by (by rewrite take_drop).
  destruct ascending.
  - rewrite mergeSorted_asc. split; [|split].
    + rewrite gmerge_perm. by rewrite Hp1, Hp2.
    + by apply (gmerge_sorted _ ok (view_total true) (view_trans true)).
    + intros P HP. rewrite (gmerge_filter _ ok (view_trans true)) by done.
      rewrite Hf1, Hf2 by done. rewrite <- List.filter_app. by rewrite take_drop.
  - rewrite mergeSorted_desc. split; [|split].
    + rewrite gmerge_perm. rewrite Hp1, Hp2. by rewrite Permutation_app_comm.
    + by apply (gmerge_sorted _ ok (view_total false) (view_trans false)).
    + intros P HP. rewrite (gmerge_filter _ ok (view_trans false)); try done.
      * rewrite Hf1, Hf2 by done. rewrite <- rev_app_distr, <- List.filter_app.
        by rewrite take_drop.
      * intros x y Hx Hy HPx HPy. simpl. by apply HP.
Qed.

End Spec.

Lemma wrap_int_small z : - 2 ^ 31 <= z < 2 ^ 31 -> wrap_int z = z.
Proof. intros Hz. unfold wrap_int. rewrite Z.mod_small; lia. Qed.

Lemma compare_plain r1 r2 :
  plain_id r1 -> plain_id r2 -> compare true r1 r2 = id r1 - id r2.
Proof.
  unfold plain_id, compare, INT_MAX. intros H1 H2. apply wrap_int_small. lia.
Qed.

Lemma le_key_mark r1 r2 : le_key false r1 r2 = negb (f_lt (mark r2) (mark r1)).
Proof.
  unfold le_key, compare. destruct (f_lt (mark r2) (mark r1)); [done|].
  by destruct (f_lt (mark r1) (mark r2)).
Qed.

Lemma same_key_mark k r :
  same_key false k r = negb (f_lt (mark r) (mark k)) && negb (f_lt (mark k) (mark r)).
Proof.
  unfold same_key, compare. destruct (f_lt (mark r) (mark k)); [done|].
  by destruct (f_lt (mark k) (mark r)).
Qed.

(** The view [mergeSort] computes.  On keys that [compare] orders
    faithfully (ids whose differences fit an [int], marks without NaN) it is a
    permutation of the list, ordered by the key; among records whose keys
    compare equal the ascending view keeps the insertion order, and the
    descending view hands them out reversed. *)
Theorem sorted_view_ties (sortByID ascending : bool) (l : list StudentRecord) :
  key_order_ok sortByID l ->
  Permutation (mergeSort l sortByID ascending) l /\
  StronglySorted (fun r1 r2 => view_order sortByID ascending r1 r2 = true)
    (mergeSort l sortByID ascending) /\
  forall k, k ∈ l ->
    List.filter (same_key sortByID k) (mergeSort l sortByID ascending) =
      if ascending then List.filter (same_key sortByID k) l
      else rev (List.filter (same_key sortByID k) l).
Proof.
  intros Hok. unfold mergeSort. destruct sortByID; simpl in Hok.
  - destruct (mergeSort_rec_spec true plain_id) with (ascending := ascending)
      (fuel := length l) (l := l) as (Hp & Hs & Hf); try done.
    + intros a b Ha Hb. unfold le_key. rewrite !compare_plain by done. lia.
    + intros a b c Ha Hb Hc. unfold le_key. rewrite !compare_plain by done. lia.
    + split; [done|]. split; [done|]. intros k Hk. apply Hf.
      assert (plain_id k) as Hpk by (rewrite Forall_forall in Hok; auto).
      intros x y Hx Hy. unfold same_key, le_key. rewrite !compare_plain by done. lia.
  - destruct Hok as [Hasym Hneg].
    destruct (mergeSort_rec_spec false (fun _ => True)) with (ascending := ascending)
      (fuel := length l) (l := l) as (Hp & Hs & Hf); try done.
    + intros a b _ _. rewrite !le_key_mark. intros Hab.
      apply negb_false_iff in Hab. apply Hasym in Hab. by rewrite Hab.
    + intros a b c _ _ _. rewrite !le_key_mark. intros Hab Hbc.
      apply negb_true_iff in Hab, Hbc. apply negb_true_iff.
      by apply (Hneg (mark c) (mark b) (mark a)).
    + by apply Forall_true.
    + split; [done|]. split; [done|]. intros k Hk. apply Hf.
      intros x y _ _. rewrite !same_key_mark, le_key_mark. intros Hx Hy.
      apply andb_true_iff in Hx as [Hx1 Hx2]. apply andb_true_iff in Hy as [Hy1 Hy2].
      apply negb_true_iff in Hx1, Hx2, Hy1, Hy2. apply negb_true_iff.
      by apply (Hneg (mark x) (mark k) (mark y)).
Qed.

End Sorting.

(** ** The list and the index under the operations *)

Section Index.
Context {F : FloatOps}.
Implicit Types (h : gmap addr Node) (l : list (addr * StudentRecord)).

Lemma hash_range i : 0 <= i -> 0 <= hash i < TABLE_SIZE.
Proof. intros Hi. unfold hash, TABLE_SIZE. apply Z.rem_bound_pos; lia. Qed.

Lemma bucket_hash st i : 0 <= i -> bucket st (hash i) = Some (hashTable st !! hash i).
Proof.
  intros Hi. unfold bucket. pose proof (hash_range i Hi) as [H1 H2].
  apply Z.leb_le in H1. apply Z.ltb_lt in H2. by rewrite H1, H2.
Qed.

Lemma chain_update h cur l p nd hn :
  chain h cur l -> h !! p = Some nd ->
  chain (<[p := mkNode (data nd) (next nd) hn]> h) cur l.
Proof.
  revert cur. induction l as [|[q r] l IH]; intros cur; simpl; [done|].
  intros [-> (nd' & Hnd & <- & Hc)] Hp. split; [done|].
  destruct (decide (p = q)) as [->|Hne].
  - simplify_eq. eexists. rewrite lookup_insert_eq. split; [done|]. split; [done|].
    simpl. by apply IH.
  - exists nd'. rewrite lookup_insert_ne by done. split; [done|]. split; [done|]. by apply IH.
Qed.

Lemma chain_last_next h cur l t :
  chain h cur l -> last (l.*1) = Some t ->
  exists nd, h !! t = Some nd /\ next nd = None.
Proof.
  revert cur. induction l as [|[q r] l IH]; intros cur; simpl; [done|].
  intros [-> (nd & Hnd & <- & Hc)] Hlast. destruct l as [|[q' r'] l].
  - simpl in *. simplify_eq. eauto.
  - apply (IH (next nd)); [done|]. by rewrite fmap_cons, last_cons_cons in Hlast.
Qed.

(** Hanging a fresh cell behind the last cell of a chain. *)
Lemma chain_snoc h cur l t nd_t p r hn :
  chain h cur l -> last (l.*1) = Some t -> h !! t = Some nd_t ->
  p ∉ l.*1 -> h !! p = Some (mkNode r None hn) ->
  chain (<[t := mkNode (data nd_t) (Some p) (hashNext nd_t)]> h) cur (l ++ [(p, r)]).
Proof.
  revert cur. induction l as [|[q rq] l IH]; intros cur Hc Hlast Ht Hp Hnew; [done|].
  pose proof (chain_NoDup _ _ _ Hc) as Hnd. simpl in Hnd. apply NoDup_cons in Hnd as [Hq Hnd].
  destruct Hc as [-> (nd & Hlk & <- & Hc)].
  apply not_elem_of_cons in Hp as [Hpq Hp].
  destruct l as [|[q' r'] l].
  - simpl in Hlast, Hc. simplify_eq. simpl. split; [done|].
    eexists. rewrite lookup_insert_eq. split; [done|]. split; [done|]. simpl.
    split; [done|]. eexists. rewrite lookup_insert_ne by done. split; [done|]. by split.
  - rewrite !fmap_cons, last_cons_cons in Hlast.
    assert (t <> q) as Htq.
    { intros ->. apply Hq. apply last_Some_elem_of in Hlast. done. }
    simpl. split; [done|]. exists nd. rewrite lookup_insert_ne by done.
    split; [done|]. split; [done|]. by apply IH.
Qed.

Lemma linked_not_fresh st l p : linked st l -> p ∈ l.*1 -> (p < brk st)%nat.
Proof.
  intros (Hc & _ & Hb) Hp. destruct (chain_lookup _ _ _ _ Hc Hp) as [nd Hnd].
  destruct (decide (p < brk st)%nat) as [|Hge]; [done|].
  rewrite Hb in Hnd by lia. done.
Qed.

Lemma add_record_linked st l r :
  linked st l -> 0 <= id r ->
  exists st', add_record r st = Some st' /\
    linked st' (l ++ [(brk st, r)]) /\
    hashTable st' = <[hash (id r) := brk st]> (hashTable st) /\
    same_env st st'.
Proof.
  intros Hl Hid. pose proof Hl as (Hc & Ht & Hb).
  assert (brk st ∉ l.*1) as Hfresh.
  { intros Hin. apply (linked_not_fresh _ _ _ Hl) in Hin. lia. }
  unfold add_record, malloc, append_node. simpl.
  destruct l as [|[q rq] l0] eqn:El.
  - simpl in Hc. rewrite Hc. simpl. unfold hashInsert. simpl.
    rewrite lookup_insert_eq. simpl. rewrite bucket_hash by done. simpl.
    eexists. split; [done|]. split; [|split; [|by repeat split]].
    + split; [|split]; simpl.
      * split; [done|]. eexists. rewrite lookup_insert_eq. by repeat split.
      * done.
      * intros p Hp. rewrite !lookup_insert_ne by lia. apply Hb. lia.
    + unfold set_bucket. simpl. apply partial_alter_ext. done.
  - rewrite <- El in *. assert (l <> []) as Hne by (by subst l).
    assert (head st = Some q) as Hhead by (subst l; by destruct Hc).
    rewrite Hhead. specialize (Ht Hne). rewrite Ht.
    destruct (last (l.*1)) as [t|] eqn:Hlast;
      [|apply last_None in Hlast; subst l; done]. simpl.
    destruct (chain_last_next _ _ _ _ Hc Hlast) as (nd_t & Hnd_t & Hnext).
    assert (t < brk st)%nat as Htb'.
    { apply (linked_not_fresh _ l); [done|]. by apply last_Some_elem_of in Hlast. }
    assert (t <> brk st) as Htb by lia.
    unfold store_next. simpl. rewrite lookup_insert_ne by done. rewrite Hnd_t. simpl.
    unfold hashInsert. simpl. rewrite lookup_insert_ne by done.
    rewrite lookup_insert_eq. simpl. rewrite bucket_hash by done. simpl.
    eexists. split; [done|]. split; [|split; [|by repeat split]].
    + split; [|split]; simpl.
      * rewrite Hhead.
        apply (chain_update _ _ _ (brk st) (mkNode r None None)).
        2:{ rewrite lookup_insert_ne by done. apply lookup_insert_eq. }
        rewrite <- Hhead.
        apply (chain_snoc _ _ _ _ _ _ _ None); try done.
        -- apply chain_insert_fresh; done.
        -- by rewrite lookup_insert_ne.
        -- apply lookup_insert_eq.
      * intros _. rewrite fmap_app. simpl. by rewrite last_snoc.
      * intros p Hp. rewrite !lookup_insert_ne by lia. apply Hb. lia.
    + unfold set_bucket. simpl. apply partial_alter_ext. done.
Qed.

Lemma findNode_loop_chain fuel h i cur l :
  chain h cur l -> (length l <= fuel)%nat ->
  findNode_loop fuel h i cur = Some (fst <$> first_with i l).
Proof.
  revert cur fuel. induction l as [|[p r] l IH]; intros cur fuel; simpl.
  - intros -> _. by destruct fuel.
  - intros [-> (nd & Hnd & <- & Hc)] Hlen. destruct fuel as [|fuel]; [lia|].
    simpl. rewrite Hnd. simpl. destruct (id (data nd) =? i); [done|].
    apply IH; [done|lia].
Qed.

Lemma first_with_none i l :
  (forall pr, pr ∈ l -> id pr.2 <> i) -> first_with i l = None.
Proof.
  induction l as [|pr l IH]; intros H; [done|]. simpl.
  destruct (id pr.2 =? i) eqn:E.
  - apply Z.eqb_eq in E. exfalso. apply (H pr); [apply list_elem_of_here|done].
  - apply IH. intros pr' Hin. apply H. by apply list_elem_of_further.
Qed.

Lemma first_with_app i l1 pr l2 :
  (forall x, x ∈ l1 -> id x.2 <> i) -> id pr.2 = i ->
  first_with i (l1 ++ pr :: l2) = Some pr.
Proof.
  induction l1 as [|x l1 IH]; intros H Hpr; simpl.
  - apply Z.eqb_eq in Hpr. by rewrite Hpr.
  - destruct (id x.2 =? i) eqn:E.
    + apply Z.eqb_eq in E. exfalso. apply (H x); [apply list_elem_of_here|done].
    + apply IH; [|done]. intros y Hy. apply H. by apply list_elem_of_further.
Qed.

Lemma chain_from h cur l1 p r l2 :
  chain h cur (l1 ++ (p, r) :: l2) -> chain h (Some p) ((p, r) :: l2).
Proof.
  intros Hc. destruct (chain_app_inv _ _ _ _ Hc) as [cur' Hc'].
  by rewrite (chain_head _ _ _ _ _ Hc') in Hc'.
Qed.

(** Under an exact index, two cells of the list in one bucket are one cell. *)
Lemma exact_bucket_inj st l pr1 pr2 :
  exact_index st l -> pr1 ∈ l -> pr2 ∈ l -> bucket_of pr1 = bucket_of pr2 -> pr1 = pr2.
Proof.
  intros (_ & _ & Hnd & _) H1 H2 Hb.
  apply list_elem_of_lookup in H1 as [k1 H1]. apply list_elem_of_lookup in H2 as [k2 H2].
  assert (k1 = k2) as ->; [|congruence].
  eapply NoDup_lookup; [exact Hnd| |].
  - rewrite list_lookup_fmap, H1. done.
  - rewrite list_lookup_fmap, H2. simpl. by rewrite Hb.
Qed.

(** [findNode] under an exact index: the cell whose record has the id, if
    there is one; no defined result for an id whose bucket lies outside the
    table. *)
Lemma findNode_exact_any st l i :
  exact_index st l ->
  findNode i st = if in_table (hash i) then Some (fst <$> first_with i l) else None.
Proof.
  intros Hex. pose proof Hex as ((Hc & Ht & Hb) & Hids & Hnd & Htab).
  unfold findNode, bucket. fold (in_table (hash i)).
  destruct (in_table (hash i)); [|done]. simpl.
  destruct (hashTable st !! hash i) as [p|] eqn:Hlk.
  - apply Htab in Hlk as (r & Hin & Hh).
    pose proof Hin as Hin'. apply list_elem_of_split in Hin' as (l1 & l2 & ->).
    pose proof (chain_from _ _ _ _ _ _ Hc) as Hc'.
    rewrite (findNode_loop_chain _ _ _ _ _ Hc').
    2:{ pose proof (chain_length _ _ _ Hc) as Hlen. rewrite length_app in Hlen.
        simpl in *. lia. }
    f_equal. f_equal. simpl. destruct (id r =? i) eqn:E.
    + apply Z.eqb_eq in E. symmetry. apply first_with_app; [|done].
      intros x Hx Hxi.
      assert (x = (p, r)) as ->.
      { eapply exact_bucket_inj; [exact Hex| | |].
        - apply elem_of_app. by left.
        - done.
        - unfold bucket_of. simpl. by rewrite Hxi, E. }
      pose proof (chain_NoDup _ _ _ Hc) as Hnd'. rewrite fmap_app in Hnd'.
      apply NoDup_app in Hnd' as (_ & Hdis & _).
      apply (Hdis p); [by apply (list_elem_of_fmap_2 fst) in Hx|].
      simpl. apply list_elem_of_here.
    + apply Z.eqb_neq in E.
      assert (forall x, x ∈ l1 ++ (p, r) :: l2 -> id x.2 <> i) as Hnone.
      { intros x Hx Hxi.
        assert (x = (p, r)) as ->; [|done].
        eapply exact_bucket_inj; [exact Hex|done|done|].
        unfold bucket_of. simpl. by rewrite Hxi, Hh. }
      transitivity (@None (addr * StudentRecord));
        [apply first_with_none|symmetry; by apply first_with_none].
      intros x Hx. apply Hnone. apply elem_of_app. right. by apply list_elem_of_further.
  - destruct (size (heap st)); simpl.
    all: rewrite first_with_none; [done|].
    all: intros [p r] Hin Hxi; simpl in Hxi.
    all: assert (hashTable st !! hash i = Some p) as Hsome
           by (apply Htab; exists r; split; [done|by rewrite Hxi]).
    all: congruence.
Qed.

Lemma in_table_hash i : 0 <= i -> in_table (hash i) = true.
Proof.
  intros Hi. unfold in_table. pose proof (hash_range i Hi) as [H1 H2].
  apply Z.leb_le in H1. apply Z.ltb_lt in H2. by rewrite H1, H2.
Qed.

Lemma findNode_exact st l i :
  exact_index st l -> 0 <= i -> findNode i st = Some (fst <$> first_with i l).
Proof.
  intros Hex Hi. by rewrite (findNode_exact_any st l), in_table_hash.
Qed.

Lemma first_with_Some i l pr :
  first_with i l = Some pr -> pr ∈ l /\ id pr.2 = i.
Proof.
  unfold first_with. intros H. apply List.find_some in H as [Hin E].
  apply Z.eqb_eq in E. split; [|done]. by apply list_elem_of_In.
Qed.

Lemma first_with_records i l :
  snd <$> first_with i l = List.find (fun r => id r =? i) (l.*2).
Proof.
  induction l as [|[p r] l IH]; [done|]. simpl. by destruct (id r =? i).
Qed.

(** Under an exact index the record handed out for an id is a function of
    the records alone. *)
Lemma lookup_record_exact st l i :
  exact_index st l ->
  lookup_record i st =
    if in_table (hash i) then Some (List.find (fun r => id r =? i) (l.*2)) else None.
Proof.
  intros Hex. unfold lookup_record. rewrite (findNode_exact_any st l) by done.
  destruct (in_table (hash i)); [|done]. simpl.
  rewrite <- first_with_records.
  destruct (first_with i l) as [[p r]|] eqn:E; [|done]. simpl.
  apply first_with_Some in E as [Hin _].
  destruct Hex as ((Hc & _) & _).
  apply list_elem_of_split in Hin as (l1 & l2 & ->).
  apply chain_from in Hc. destruct Hc as [_ (nd & Hnd & <- & _)].
  by rewrite Hnd.
Qed.

(** *** Adding a record *)

Lemma add_record_exact st l r :
  exact_index st l -> 0 <= id r -> hash (id r) ∉ (bucket_of <$> l) ->
  exists st', add_record r st = Some st' /\
    exact_index st' (l ++ [(brk st, r)]) /\ same_env st st'.
Proof.
  intros (Hl & Hids & Hnd & Htab) Hid Hfree.
  destruct (add_record_linked st l r Hl Hid) as (st' & Hrun & Hl' & Htab' & Henv).
  exists st'. split; [done|]. split; [|done].
  split; [done|]. split; [|split].
  - apply Forall_app. split; [done|]. by constructor.
  - rewrite fmap_app. apply NoDup_app. split; [done|]. split.
    + intros x Hx Hx'. simpl in Hx'. apply list_elem_of_singleton in Hx'. by subst x.
    + simpl. apply NoDup_singleton.
  - intros i p. rewrite Htab'. destruct (decide (hash (id r) = i)) as [<-|Hne].
    + rewrite lookup_insert_eq. split.
      * intros [= <-]. exists r. split; [|done]. apply elem_of_app. right.
        apply list_elem_of_here.
      * intros (r' & Hin & Hh). apply elem_of_app in Hin as [Hin|Hin].
        -- exfalso. apply Hfree. rewrite <- Hh.
           by apply (list_elem_of_fmap_2 bucket_of) in Hin.
        -- apply list_elem_of_singleton in Hin. by simplify_eq.
    + rewrite lookup_insert_ne by done. rewrite Htab. split.
      * intros (r' & Hin & Hh). exists r'. split; [|done]. apply elem_of_app. by left.
      * intros (r' & Hin & Hh). apply elem_of_app in Hin as [Hin|Hin]; [by exists r'|].
        apply list_elem_of_singleton in Hin. by simplify_eq.
Qed.

Lemma insertDB_unfold i n pg m b st :
  insertDB i n pg m b st =
    found ← findNode i st;
    match found with
    | Some _ =>
        Some (if b then st
              else printf (c "CMS: Record with ID=" ++ fmt_d i
                             ++ c " already exists." ++ [LF]) st)
    | None =>
        st3 ← add_record (mkRecord i n pg m) st;
        Some (set_dbModified true
                (if b then st3
                 else printf (c "CMS: Record with ID=" ++ fmt_d i ++ c " inserted." ++ [LF])
                        (pushUndo (INSERT_OP (mkRecord i n pg m)) st3)))
    end.
Proof.
  unfold insertDB, add_record. destruct (findNode i st) as [[p|]|]; try done. simpl.
  by destruct (append_node _ _) as [st2|].
Qed.

(** The flags, stacks, files and terminal play no part in [exact_index]. *)
Lemma exact_index_store st st' l :
  heap st' = heap st -> brk st' = brk st -> head st' = head st -> tail st' = tail st ->
  hashTable st' = hashTable st -> exact_index st l -> exact_index st' l.
Proof.
  unfold exact_index, linked. intros -> -> -> -> ->. done.
Qed.

Lemma not_in_buckets_ids l i :
  hash i ∉ (bucket_of <$> l) -> forall pr, pr ∈ l -> id pr.2 <> i.
Proof.
  intros H pr Hin Hid. apply H. rewrite <- Hid.
  by apply (list_elem_of_fmap_2 bucket_of) in Hin.
Qed.

(** [insertDB] of an id whose bucket is free, on an exact index. *)
Lemma insertDB_exact st l i n pg m b :
  exact_index st l -> 0 <= i -> hash i ∉ (bucket_of <$> l) ->
  exists st', insertDB i n pg m b st = Some st' /\
    exact_index st' (l ++ [(brk st, mkRecord i n pg m)]) /\
    undoStack st' =
      (if b then undoStack st else INSERT_OP (mkRecord i n pg m) :: undoStack st) /\
    redoStack st' = (if b then redoStack st else []) /\
    disk st' = disk st.
Proof.
  intros Hex Hi Hfree. rewrite insertDB_unfold.
  rewrite (findNode_exact st l) by done.
  rewrite first_with_none by (by apply not_in_buckets_ids). simpl.
  destruct (add_record_exact st l (mkRecord i n pg m) Hex Hi Hfree)
    as (st3 & -> & Hex3 & Henv).
  destruct Henv as (a1 & a2 & a3 & a4 & a5 & a6 & a7). simpl.
  eexists. split; [done|]. split.
  - eapply exact_index_store; [..|exact Hex3]; by destruct b.
  - destruct b; simpl; by rewrite ?a3, ?a4, ?a5.
Qed.

(** *** Updating a record *)

Lemma chain_set_data h cur l1 p r l2 nd new :
  chain h cur (l1 ++ (p, r) :: l2) -> h !! p = Some nd ->
  chain (<[p := mkNode new (next nd) (hashNext nd)]> h) cur (l1 ++ (p, new) :: l2).
Proof.
  intros Hc Hp. pose proof (chain_NoDup _ _ _ Hc) as Hnd.
  revert cur Hc Hnd. induction l1 as [|[q rq] l1 IH]; intros cur Hc Hnd.
  - simpl in *. apply NoDup_cons in Hnd as [Hnot _].
    destruct Hc as [-> (nd' & Hlk & <- & Hc)]. simplify_eq.
    split; [done|]. eexists. rewrite lookup_insert_eq. split; [done|]. split; [done|].
    simpl. by apply chain_insert_fresh.
  - simpl in *. apply NoDup_cons in Hnd as [Hnot Hnd].
    destruct Hc as [-> (nd' & Hlk & <- & Hc)].
    assert (p <> q) as Hpq.
    { intros ->. apply Hnot. rewrite fmap_app. apply elem_of_app. right.
      simpl. apply list_elem_of_here. }
    split; [done|]. exists nd'. rewrite lookup_insert_ne by done.
    split; [done|]. split; [done|]. by apply IH.
Qed.

Lemma exact_first_with st l1 p r l2 :
  exact_index st (l1 ++ (p, r) :: l2) ->
  first_with (id r) (l1 ++ (p, r) :: l2) = Some (p, r).
Proof.
  intros Hex. apply first_with_app; [|done]. intros x Hx Hid.
  assert (x = (p, r)) as ->.
  { eapply exact_bucket_inj; [exact Hex| | |].
    - apply elem_of_app. by left.
    - apply elem_of_app. right. apply list_elem_of_here.
    - unfold bucket_of. by rewrite Hid. }
  destruct Hex as ((Hc & _) & _). apply chain_NoDup in Hc.
  rewrite fmap_app in Hc. apply NoDup_app in Hc as (_ & Hdis & _).
  apply (Hdis p); [by apply (list_elem_of_fmap_2 fst) in Hx|].
  simpl. apply list_elem_of_here.
Qed.

Lemma exact_id_nonneg st l pr : exact_index st l -> pr ∈ l -> 0 <= id pr.2.
Proof.
  intros (_ & Hids & _) Hin. rewrite Forall_forall in Hids. by apply Hids.
Qed.

(** [updateDB] of a record of the list, on an exact index. *)
Lemma updateDB_exact st l1 p r l2 n pg m b :
  exact_index st (l1 ++ (p, r) :: l2) ->
  exists st', updateDB (id r) n pg m b st = Some st' /\
    exact_index st' (l1 ++ (p, patched r n pg m) :: l2) /\
    brk st' = brk st /\
    undoStack st' =
      (if b then undoStack st else UPDATE_OP r (patched r n pg m) :: undoStack st) /\
    redoStack st' = (if b then redoStack st else []) /\
    disk st' = disk st.
Proof.
  intros Hex.
  assert ((p, r) ∈ l1 ++ (p, r) :: l2) as Hin
    by (apply elem_of_app; right; apply list_elem_of_here).
  pose proof (exact_id_nonneg _ _ _ Hex Hin) as Hid. simpl in Hid.
  unfold updateDB. rewrite (findNode_exact st _ _ Hex Hid).
  rewrite (exact_first_with _ _ _ _ _ Hex). simpl.
  pose proof Hex as ((Hc & Ht & Hb) & Hids & Hnd & Htab).
  pose proof (chain_from _ _ _ _ _ _ Hc) as [_ (nd & Hlk & Hdata & _)].
  rewrite Hlk. simpl. rewrite Hdata.
  fold (patched r n pg m).
  eexists. split; [done|]. split; [|by destruct b].
  assert (exact_index
            (set_heap (<[p := mkNode (patched r n pg m) (next nd) (hashNext nd)]> (heap st)) st)
            (l1 ++ (p, patched r n pg m) :: l2)) as Hex'.
  { split; [|split; [|split]].
    - split; [|split]; simpl.
      + by eapply chain_set_data.
      + intros _. rewrite Ht by (by destruct l1). by rewrite !fmap_app.
      + intros q Hq. rewrite lookup_insert_ne; [by apply Hb|].
        intros ->. rewrite Hb in Hlk by done. done.
    - rewrite Forall_app in Hids. destruct Hids as [H1 H2].
      apply Forall_cons in H2 as [H2 H3]. apply Forall_app. split; [done|].
      by constructor.
    - by rewrite fmap_app in *.
    - intros i q. simpl. rewrite Htab. split.
      + intros (r' & Hin' & Hh). apply elem_of_app in Hin' as [Hin'|Hin'].
        * exists r'. split; [|done]. apply elem_of_app. by left.
        * apply elem_of_cons in Hin' as [Heq|Hin'].
          -- injection Heq as -> ->. exists (patched r n pg m). split; [|done].
             apply elem_of_app. right. apply list_elem_of_here.
          -- exists r'. split; [|done]. apply elem_of_app. right.
             by apply list_elem_of_further.
      + intros (r' & Hin' & Hh). apply elem_of_app in Hin' as [Hin'|Hin'].
        * exists r'. split; [|done]. apply elem_of_app. by left.
        * apply elem_of_cons in Hin' as [Heq|Hin'].
          -- injection Heq as -> ->. exists r. split; [|done].
             apply elem_of_app. right. apply list_elem_of_here.
          -- exists r'. split; [|done]. apply elem_of_app. right.
             by apply list_elem_of_further. }
  eapply exact_index_store; [..|exact Hex']; by destruct b.
Qed.

(** *** Deleting a record *)

Lemma chain_hd h cur l : chain h cur l -> cur = hd_error (l.*1).
Proof. destruct l as [|[p r] l]; simpl; [done|]. by intros [-> _]. Qed.

Lemma deleteDB_loop_chain fuel h i cur prev l1 p r l2 :
  chain h cur (l1 ++ (p, r) :: l2) ->
  (forall x, x ∈ l1 -> id x.2 <> i) -> id r = i ->
  (length (l1 ++ (p, r) :: l2) <= fuel)%nat ->
  deleteDB_loop fuel h i cur prev =
    Some (Some p, match last (l1.*1) with Some q => Some q | None => prev end).
Proof.
  revert cur prev fuel. induction l1 as [|[q rq] l1 IH]; intros cur prev fuel Hc Hno Hid Hlen.
  - simpl in *. destruct Hc as [-> (nd & Hlk & <- & Hc)].
    destruct fuel as [|fuel]; [lia|]. simpl. rewrite Hlk. simpl.
    apply Z.eqb_eq in Hid. by rewrite Hid.
  - simpl in Hc, Hlen. destruct Hc as [-> (nd & Hlk & <- & Hc)].
    destruct fuel as [|fuel]; [lia|]. simpl. rewrite Hlk. simpl.
    assert (id (data nd) <> i) as Hne by (apply (Hno (q, data nd)); apply list_elem_of_here).
    apply Z.eqb_neq in Hne. rewrite Hne.
    rewrite (IH (next nd) (Some q) fuel); [|done| |done|lia].
    2:{ intros x Hx. apply Hno. by apply list_elem_of_further. }
    f_equal. f_equal. destruct l1 as [|[q' r'] l1]; [done|].
    simpl. destruct (last (q' :: _)) eqn:E; [done|].
    apply last_None in E. done.
Qed.

(** Taking [p] out of a chain by redirecting the cell before it. *)
Lemma chain_unlink h cur l1 q rq p r l2 nd_q nd_p :
  chain h cur (l1 ++ (q, rq) :: (p, r) :: l2) ->
  h !! q = Some nd_q -> h !! p = Some nd_p ->
  chain (<[q := mkNode (data nd_q) (next nd_p) (hashNext nd_q)]> h) cur
    (l1 ++ (q, rq) :: l2).
Proof.
  intros Hc Hq Hp. pose proof (chain_NoDup _ _ _ Hc) as Hnd.
  revert cur Hc Hnd. induction l1 as [|[x rx] l1 IH]; intros cur Hc Hnd.
  - simpl in *. apply NoDup_cons in Hnd as [Hq1 Hnd]. apply NoDup_cons in Hnd as [Hp1 Hnd].
    destruct Hc as [-> (nd & Hlk & <- & Hc)]. simplify_eq.
    destruct Hc as [Hnext (nd' & Hlk' & <- & Hc)]. simplify_eq.
    split; [done|]. eexists. rewrite lookup_insert_eq. split; [done|]. split; [done|].
    simpl. apply chain_insert_fresh; [done|].
    intros Hin. apply Hq1. by apply list_elem_of_further.
  - simpl in *. apply NoDup_cons in Hnd as [Hx Hnd].
    destruct Hc as [-> (nd & Hlk & <- & Hc)].
    assert (q <> x) as Hqx.
    { intros ->. apply Hx. rewrite fmap_app. apply elem_of_app. right.
      simpl. apply list_elem_of_here. }
    split; [done|]. exists nd. rewrite lookup_insert_ne by done.
    split; [done|]. split; [done|]. by apply IH.
Qed.

Lemma last_app_cons {A : Type} (l1 : list A) (x : A) (l2 : list A) :
  last (l1 ++ x :: l2) = last (x :: l2).
Proof.
  induction l1 as [|y l1 IH]; [done|]. simpl.
  destruct (l1 ++ x :: l2) eqn:E; [by destruct l1|]. by rewrite <- IH.
Qed.

(** [deleteDB] of a record of the list, on an exact index: the cell leaves
    the list and is freed, and its bucket now holds the cell that followed
    it in the list, if any. *)
Lemma deleteDB_exact st l1 p r l2 b :
  exact_index st (l1 ++ (p, r) :: l2) ->
  exists st', deleteDB (id r) true b st = Some (true, st') /\
    linked st' (l1 ++ l2) /\
    hashTable st' = partial_alter (fun _ => hd_error (l2.*1)) (hash (id r)) (hashTable st) /\
    undoStack st' = (if b then undoStack st else DELETE_OP r :: undoStack st) /\
    redoStack st' = (if b then redoStack st else []) /\
    disk st' = disk st.
Proof.
  intros Hex. pose proof Hex as ((Hc & Ht & Hb) & Hids & Hnd & Htab).
  assert ((p, r) ∈ l1 ++ (p, r) :: l2) as Hin
    by (apply elem_of_app; right; apply list_elem_of_here).
  pose proof (exact_id_nonneg _ _ _ Hex Hin) as Hid. simpl in Hid.
  pose proof (chain_NoDup _ _ _ Hc) as Hnda.
  pose proof (chain_from _ _ _ _ _ _ Hc) as [_ (nd & Hlk & Hdata & Hc2)].
  pose proof (chain_hd _ _ _ Hc2) as Hnext.
  assert (forall x, x ∈ l1 -> id x.2 <> id r) as Hno.
  { intros x Hx Hxid.
    assert (x = (p, r)) as ->.
    { eapply exact_bucket_inj; [exact Hex| |done|].
      - apply elem_of_app. by left.
      - unfold bucket_of. by rewrite Hxid. }
    rewrite fmap_app in Hnda. apply NoDup_app in Hnda as (_ & Hdis & _).
    apply (Hdis p); [by apply (list_elem_of_fmap_2 fst) in Hx|].
    simpl. apply list_elem_of_here. }
  unfold deleteDB.
  rewrite (deleteDB_loop_chain _ _ _ _ None l1 p r l2); [|done|done|done|by eapply chain_length].
  simpl. rewrite Hlk. simpl.
  assert (tail st = last ((p :: l2.*1))) as Htail.
  { rewrite Ht by (by destruct l1). rewrite fmap_app, fmap_cons. apply last_app_cons. }
  assert ((p ∉ l1.*1) /\ (p ∉ l2.*1)) as [Hp1 Hp2].
  { rewrite fmap_app in Hnda. apply NoDup_app in Hnda as (_ & Hdis & Hnd2).
    simpl in Hnd2. apply NoDup_cons in Hnd2 as [Hp2 _]. split; [|done].
    intros Hin1. apply (Hdis p Hin1). apply list_elem_of_here. }
  (* the state after unlinking, with its heap and head *)
  set (st1 := if b then st else pushUndo (DELETE_OP (data nd)) st).
  assert (heap st1 = heap st /\ head st1 = head st /\ tail st1 = tail st /\
          hashTable st1 = hashTable st /\ brk st1 = brk st) as (E1 & E2 & E3 & E4 & E5)
    by (subst st1; by destruct b).
  assert (exists st2,
    match match last (l1.*1) with Some q => Some q | None => None end with
    | None => Some (set_head (next nd) st1)
    | Some q => store_next q (next nd) st1
    end = Some st2 /\
    chain (heap st2) (head st2) (l1 ++ l2) /\ heap st2 !! p = Some nd /\
    tail st2 = tail st /\ hashTable st2 = hashTable st /\ brk st2 = brk st /\
    (forall q, (brk st <= q)%nat -> heap st2 !! q = None) /\
    undoStack st2 = undoStack st1 /\ redoStack st2 = redoStack st1 /\
    disk st2 = disk st1 /\ dbModified st2 = dbModified st1) as
    (st2 & -> & Hc' & Hlk2 & F1 & F2 & F3 & F4 & F5 & F6 & F7 & F8).
  { destruct (last (l1.*1)) as [q|] eqn:Hlast.
    - assert (exists l1' rq, l1 = l1' ++ [(q, rq)]) as (l1' & rq & ->).
      { destruct (decide (l1 = [])) as [->|Hne]; [done|].
        destruct (exists_last Hne) as (l1' & [q' rq] & ->).
        rewrite fmap_app in Hlast. simpl in Hlast. rewrite last_snoc in Hlast.
        simplify_eq. eauto. }
      rewrite <- app_assoc in Hc. simpl in Hc.
      pose proof (chain_from _ _ _ _ _ _ Hc) as [_ (nd_q & Hq & Hdq & _)].
      assert (q <> p) as Hqp.
      { intros ->. apply Hp1. rewrite fmap_app. apply elem_of_app. right.
        apply list_elem_of_here. }
      unfold store_next. rewrite E1, Hq. simpl. eexists. split; [done|]. simpl.
      rewrite E2, E3, E4, E5, lookup_insert_ne by done.
      split; [|repeat split; try done].
      + rewrite <- app_assoc. simpl. by eapply chain_unlink.
      + intros x Hx. rewrite lookup_insert_ne; [by apply Hb|].
        intros ->. rewrite Hb in Hq by done. done.
    - apply last_None in Hlast. apply fmap_nil_inv in Hlast. subst l1. simpl in *.
      eexists. split; [done|]. simpl. rewrite E1, E3, E4, E5. by repeat split. }
  simpl.
  set (st3 := if decide (tail st2 = Some p)
              then set_tail match last (l1.*1) with Some q => Some q | None => None end st2
              else st2).
  assert (heap st3 = heap st2 /\ head st3 = head st2 /\ hashTable st3 = hashTable st2 /\
          brk st3 = brk st2 /\ undoStack st3 = undoStack st2 /\
          redoStack st3 = redoStack st2 /\ disk st3 = disk st2)
    as (G1 & G2 & G3 & G4 & G5 & G6 & G7) by (subst st3; by case_decide).
  assert (l1 ++ l2 <> [] -> tail st3 = last ((l1 ++ l2).*1)) as Htail3.
  { intros Hne. subst st3. rewrite F1, Htail. destruct l2 as [|[q' r'] l2].
    - simpl. rewrite decide_True by done. simpl. rewrite app_nil_r in *.
      destruct (last (l1.*1)) eqn:E; [done|]. apply last_None, fmap_nil_inv in E. done.
    - rewrite fmap_cons, last_cons_cons. rewrite decide_False.
      + rewrite F1, Htail, fmap_app, !fmap_cons, last_cons_cons. symmetry. apply last_app_cons.
      + intros Heq. apply Hp2. rewrite fmap_cons. by apply last_Some_elem_of. }
  unfold hashRemove. rewrite bucket_hash by done. simpl.
  assert (hashTable st3 !! hash (id r) = Some p) as Hbucket.
  { rewrite G3, F2. apply Htab. by exists r. }
  rewrite Hbucket.
  destruct (size (heap st3)) as [|fuel] eqn:Hsize.
  { apply map_size_empty_iff in Hsize. rewrite G1 in Hsize. rewrite Hsize in Hlk2. done. }
  simpl. rewrite G1, Hlk2. simpl. rewrite Hdata, Z.eqb_refl. simpl.
  eexists. split; [done|]. split; [|split].
  - split; [|split].
    + destruct b; simpl; rewrite G1, G2; by apply chain_delete_fresh;
        [|rewrite fmap_app; intros [?|?]%elem_of_app].
    + destruct b; simpl; done.
    + intros x Hx.
      assert (brk st <= x)%nat as Hx'
        by (destruct b; simpl in Hx; rewrite G4, F3 in Hx; exact Hx).
      destruct b; simpl; rewrite G1.
      all: destruct (decide (p = x)) as [->|Hne];
        [apply lookup_delete_eq|rewrite lookup_delete_ne by done; by apply F4].
  - destruct b; simpl; unfold set_bucket; simpl; by rewrite G3, F2, Hnext.
  - subst st1. destruct b; simpl; rewrite ?G5, ?G6, ?G7, ?F5, ?F6, ?F7; simpl;
      by rewrite ?Hdata.
Qed.

Lemma buckets_of_records l : bucket_of <$> l = (fun x => hash (id x)) <$> l.*2.
Proof. by rewrite <- list_fmap_compose. Qed.

Lemma deleteDB_last_exact st l p r b :
  exact_index st (l ++ [(p, r)]) ->
  exists st', deleteDB (id r) true b st = Some (true, st') /\
    exact_index st' l /\
    undoStack st' = (if b then undoStack st else DELETE_OP r :: undoStack st) /\
    redoStack st' = (if b then redoStack st else []) /\
    disk st' = disk st.
Proof.
  intros Hex. destruct (deleteDB_exact st l p r [] b Hex)
    as (st' & Hrun & Hl & Htab' & Hu & Hr & Hd).
  rewrite app_nil_r in Hl. exists st'. split; [done|]. split; [|done].
  destruct Hex as (Hl0 & Hids & Hnd & Htab).
  pose proof (chain_NoDup _ _ _ (proj1 Hl0)) as Hnda.
  rewrite fmap_app in Hnda. rewrite fmap_app in Hnd.
  apply NoDup_app in Hnda as (_ & Hdisa & _).
  apply NoDup_app in Hnd as (Hnd & Hdis & _).
  apply Forall_app in Hids as [Hids _].
  split; [done|]. split; [done|]. split; [done|].
  intros i q. rewrite Htab'. simpl. rewrite lookup_partial_alter.
  case_decide as Hi.
  - split; [done|]. intros (r' & Hin & Hh). exfalso.
    apply (Hdis (bucket_of (q, r'))); [by apply list_elem_of_fmap_2|].
    simpl. unfold bucket_of at 1. simpl. rewrite Hh, <- Hi. apply list_elem_of_here.
  - rewrite Htab. split.
    + intros (r' & Hin & Hh). apply elem_of_app in Hin as [Hin|Hin]; [by exists r'|].
      apply list_elem_of_singleton in Hin. by simplify_eq.
    + intros (r' & Hin & Hh). exists r'. split; [|done]. apply elem_of_app. by left.
Qed.

(** *** Loading *)

Section LoadLoop.
Variable Inv : CMS -> list (addr * StudentRecord) -> Prop.
Variable okR : StudentRecord -> list StudentRecord -> Prop.
Hypothesis add_step :
  forall st l r, Inv st l -> okR r (l.*2) ->
    exists st', add_record r st = Some st' /\ Inv st' (l ++ [(brk st, r)]) /\ same_env st st'.

Lemma loadDB_loop_inv fuel rest st l rs :
  Inv st l -> parse_lines fuel rest = Some rs -> all_ok okR (l.*2) rs ->
  exists st' l', loadDB_loop fuel rest st = Some st' /\
    Inv st' l' /\ l'.*2 = l.*2 ++ rs /\ same_env st st'.
Proof.
  revert rest st l rs. induction fuel as [|fuel IH]; intros [|ch rest] st l rs Hinv Hparse Hok;
    simplify_eq/=.
  - exists st, l. rewrite app_nil_r. auto using same_env_refl.
  - exists st, l. rewrite app_nil_r. auto using same_env_refl.
  - destruct (fgets _ _) as [raw rest'].
    destruct (is_header_line _); [by eapply IH|].
    unfold load_line. fold (add_record).
    destruct (parse_line _) as [r|]; simplify_eq/=.
    destruct (parse_lines fuel rest') as [rs'|] eqn:Hrest; simplify_eq/=.
    destruct Hok as [Hr Hok].
    destruct (add_step st l r Hinv Hr) as (st1 & Hadd & Hinv1 & Henv1).
    unfold add_record in Hadd. simpl in Hadd. rewrite Hadd.
    destruct (IH rest' st1 _ rs' Hinv1 Hrest) as (st' & l' & Hrun & Hinv' & Hl' & Henv').
    { rewrite fmap_app. done. }
    exists st', l'. split; [done|]. split; [done|]. split.
    + rewrite Hl', fmap_app. simpl. by rewrite <- app_assoc.
    + by eapply same_env_trans.
Qed.

Hypothesis Inv_init : forall st, linked st [] -> hashTable st = ∅ -> Inv st [].
Hypothesis Inv_store :
  forall st st' l,
    heap st' = heap st -> brk st' = brk st -> head st' = head st -> tail st' = tail st ->
    hashTable st' = hashTable st -> Inv st l -> Inv st' l.

Lemma loadDB_inv filename st l0 content rs :
  linked st l0 -> disk st !! filename = Some content ->
  parse_file content = Some rs -> all_ok okR [] rs ->
  exists st' l', loadDB filename st = Some st' /\
    Inv st' l' /\ l'.*2 = rs /\ same_history st st' /\ disk st' = disk st /\
    dbLoaded st' = true /\ dbModified st' = dbModified st.
Proof.
  intros Hl Hd Hparse Hok.
  destruct (freeDB_linked st l0 Hl) as (st1 & Hfree & Henv & Hh & Htab & Hb & Hfresh).
  destruct Henv as (a1 & a2 & a3 & a4 & a5 & a6 & a7).
  unfold loadDB. rewrite Hfree. simpl. rewrite a5, Hd.
  destruct (loadDB_loop_inv (length content) content (set_hashTable ∅ st1) [] rs)
    as (st3 & l' & Hrun & Hinv & Hl' & Henv3); [|done|done|].
  { apply Inv_init; [|done]. split; [done|]. split; [done|]. done. }
  rewrite Hrun. simpl. destruct Henv3 as (b1 & b2 & b3 & b4 & b5 & b6 & b7).
  eexists _, l'. split; [done|]. split; [by eapply Inv_store; [..|exact Hinv]|].
  simpl in b1, b2, b3, b4, b5, Hl'. unfold same_history. simpl.
  repeat split; congruence.
Qed.

End LoadLoop.

Lemma linked_store st st' l :
  heap st' = heap st -> brk st' = brk st -> head st' = head st -> tail st' = tail st ->
  hashTable st' = hashTable st -> linked st l -> linked st' l.
Proof. unfold linked. intros -> -> -> -> _. done. Qed.

(** Loading a file that holds valid keys, on a well linked store. *)
Lemma loadDB_linked filename st l0 content rs :
  linked st l0 -> disk st !! filename = Some content ->
  parse_file content = Some rs -> all_ok valid_key [] rs ->
  exists st' l', loadDB filename st = Some st' /\
    linked st' l' /\ l'.*2 = rs /\ same_history st st' /\ disk st' = disk st /\
    dbLoaded st' = true /\ dbModified st' = dbModified st.
Proof.
  apply (loadDB_inv linked valid_key).
  - intros st1 l r Hl Hr. destruct (add_record_linked st1 l r Hl Hr) as (st' & H1 & H2 & _ & H3).
    eauto.
  - done.
  - apply linked_store.
Qed.

(** Loading a file in which no two records share a bucket gives an exact
    index. *)
Lemma loadDB_exact filename st l0 content rs :
  linked st l0 -> disk st !! filename = Some content ->
  parse_file content = Some rs -> all_ok free_bucket [] rs ->
  exists st' l', loadDB filename st = Some st' /\
    exact_index st' l' /\ l'.*2 = rs /\ same_history st st' /\ disk st' = disk st /\
    dbLoaded st' = true /\ dbModified st' = dbModified st.
Proof.
  apply (loadDB_inv exact_index free_bucket).
  - intros st1 l r Hex [Hr Hfree]. apply add_record_exact; [done|done|].
    by rewrite buckets_of_records.
  - intros st1 Hl Htab. split; [done|]. split; [done|]. split; [constructor|].
    intros i p. rewrite Htab, lookup_empty. split; [done|].
    intros (r & Hin & _). by apply elem_of_nil in Hin.
  - apply exact_index_store.
Qed.

End Index.

(** ** Undo and redo on an exact index *)

Section UndoRedo.
Context {F : FloatOps}.
Implicit Types (l : list (addr * StudentRecord)) (r : StudentRecord).

Lemma record_eta r : mkRecord (id r) (name r) (programme r) (mark r) = r.
Proof. by destruct r. Qed.

Lemma exact_index_set_undoStack st l U :
  exact_index st l -> exact_index (set_undoStack U st) l.
Proof. by apply exact_index_store. Qed.

Lemma exact_index_set_redoStack st l R :
  exact_index st l -> exact_index (set_redoStack R st) l.
Proof. by apply exact_index_store. Qed.

Lemma exact_free_bucket_last st l p r :
  exact_index st (l ++ [(p, r)]) -> 0 <= id r /\ hash (id r) ∉ (bucket_of <$> l).
Proof.
  intros Hex. split.
  - apply (exact_id_nonneg st _ (p, r) Hex). apply elem_of_app. right. apply list_elem_of_here.
  - destruct Hex as (_ & _ & Hnd & _). rewrite fmap_app in Hnd.
    apply NoDup_app in Hnd as (_ & Hdis & _). intros Hin.
    apply (Hdis _ Hin). simpl. apply list_elem_of_here.
Qed.

(** Undoing an insert whose record is the last of the list. *)
Lemma undo_insert st l p new U :
  exact_index st (l ++ [(p, new)]) -> undoStack st = INSERT_OP new :: U ->
  exists st', undo st = Some st' /\ exact_index st' l /\
    undoStack st' = U /\ redoStack st' = INSERT_OP new :: redoStack st /\
    disk st' = disk st.
Proof.
  intros Hex HU. unfold undo. rewrite HU.
  destruct (deleteDB_last_exact (set_undoStack U st) l p new true)
    as (st' & Hrun & Hex' & Hu & Hr & Hd); [by apply exact_index_set_undoStack|].
  rewrite Hrun. simpl. eexists. split; [done|].
  split; [by eapply exact_index_store; [..|exact Hex']|].
  simpl. by rewrite Hu, Hr, Hd.
Qed.

(** Redoing an insert whose bucket is free. *)
Lemma redo_insert st l new R :
  exact_index st l -> redoStack st = INSERT_OP new :: R ->
  0 <= id new -> hash (id new) ∉ (bucket_of <$> l) ->
  exists st', redo st = Some st' /\ exact_index st' (l ++ [(brk st, new)]) /\
    undoStack st' = INSERT_OP new :: undoStack st /\ redoStack st' = R /\
    disk st' = disk st.
Proof.
  intros Hex HR Hid Hfree. unfold redo. rewrite HR.
  destruct (insertDB_exact (set_redoStack R st) l (id new) (name new) (programme new)
              (mark new) true) as (st' & Hrun & Hex' & Hu & Hr & Hd);
    [by apply exact_index_set_redoStack|done|done|].
  rewrite Hrun. simpl. rewrite record_eta in Hex'. eexists. split; [done|].
  split; [by eapply exact_index_store; [..|exact Hex']|].
  simpl. by rewrite Hu, Hr, Hd.
Qed.

(** Undoing a delete: the record comes back at the end of the list. *)
Lemma undo_delete st l old U :
  exact_index st l -> undoStack st = DELETE_OP old :: U ->
  0 <= id old -> hash (id old) ∉ (bucket_of <$> l) ->
  exists st', undo st = Some st' /\ exact_index st' (l ++ [(brk st, old)]) /\
    undoStack st' = U /\ redoStack st' = DELETE_OP old :: redoStack st /\
    disk st' = disk st.
Proof.
  intros Hex HU Hid Hfree. unfold undo. rewrite HU.
  destruct (insertDB_exact (set_undoStack U st) l (id old) (name old) (programme old)
              (mark old) true) as (st' & Hrun & Hex' & Hu & Hr & Hd);
    [by apply exact_index_set_undoStack|done|done|].
  rewrite Hrun. simpl. rewrite record_eta in Hex'. eexists. split; [done|].
  split; [by eapply exact_index_store; [..|exact Hex']|].
  simpl. by rewrite Hu, Hr, Hd.
Qed.

Lemma redo_delete st l p old R :
  exact_index st (l ++ [(p, old)]) -> redoStack st = DELETE_OP old :: R ->
  exists st', redo st = Some st' /\ exact_index st' l /\
    undoStack st' = DELETE_OP old :: undoStack st /\ redoStack st' = R /\
    disk st' = disk st.
Proof.
  intros Hex HR. unfold redo. rewrite HR.
  destruct (deleteDB_last_exact (set_redoStack R st) l p old true)
    as (st' & Hrun & Hex' & Hu & Hr & Hd); [by apply exact_index_set_redoStack|].
  rewrite Hrun. simpl. eexists. split; [done|].
  split; [by eapply exact_index_store; [..|exact Hex']|].
  simpl. by rewrite Hu, Hr, Hd.
Qed.

(** Undoing an update: the old values are written back through the patch
    rule of [updateDB]. *)
Lemma undo_update st l1 p new l2 old U :
  exact_index st (l1 ++ (p, new) :: l2) -> undoStack st = UPDATE_OP old new :: U ->
  id old = id new ->
  exists st', undo st = Some st' /\
    exact_index st' (l1 ++ (p, patched new (name old) (programme old) (mark old)) :: l2) /\
    undoStack st' = U /\ redoStack st' = UPDATE_OP old new :: redoStack st /\
    disk st' = disk st.
Proof.
  intros Hex HU Hid. unfold undo. rewrite HU, Hid.
  destruct (updateDB_exact (set_undoStack U st) l1 p new l2 (name old) (programme old)
              (mark old) true) as (st' & Hrun & Hex' & _ & Hu & Hr & Hd);
    [by apply exact_index_set_undoStack|].
  rewrite Hrun. simpl. eexists. split; [done|].
  split; [by eapply exact_index_store; [..|exact Hex']|].
  simpl. by rewrite Hu, Hr, Hd.
Qed.

Lemma redo_update st l1 p r l2 old new R :
  exact_index st (l1 ++ (p, r) :: l2) -> redoStack st = UPDATE_OP old new :: R ->
  id r = id new ->
  exists st', redo st = Some st' /\
    exact_index st' (l1 ++ (p, patched r (name new) (programme new) (mark new)) :: l2) /\
    undoStack st' = UPDATE_OP old new :: undoStack st /\ redoStack st' = R /\
    disk st' = disk st.
Proof.
  intros Hex HR Hid. unfold redo. rewrite HR, <- Hid.
  destruct (updateDB_exact (set_redoStack R st) l1 p r l2 (name new) (programme new)
              (mark new) true) as (st' & Hrun & Hex' & _ & Hu & Hr & Hd);
    [by apply exact_index_set_redoStack|].
  rewrite Hrun. simpl. eexists. split; [done|].
  split; [by eapply exact_index_store; [..|exact Hex']|].
  simpl. by rewrite Hu, Hr, Hd.
Qed.

Lemma length_zero_iff_nil' (s : cstring) : (0 <? length s)%nat = false <-> s = [].
Proof. destruct s; simpl; split; intros; done. Qed.

(** Writing the old values back and then the new ones again gives the new
    record, because a field the update left empty (or a mark it left
    negative) was so before. *)
Lemma patched_back_and_forth old new :
  id old = id new ->
  (name new = [] -> name old = []) ->
  (programme new = [] -> programme old = []) ->
  (f_le f_zero (mark new) = false -> f_le f_zero (mark old) = false) ->
  patched (patched new (name old) (programme old) (mark old))
    (name new) (programme new) (mark new) = new.
Proof.
  intros Hid Hn Hp Hm. destruct new as [i n p m], old as [i' n' p' m']. simpl in *.
  unfold patched. simpl. f_equal.
  - destruct n; [|done]. by rewrite Hn.
  - destruct p; [|done]. by rewrite Hp.
  - destruct (f_le f_zero m) eqn:E; [done|]. by rewrite Hm.
Qed.

Lemma loadDB_absent filename st l :
  linked st l -> disk st !! filename = None ->
  exists st', loadDB filename st = Some st' /\ linked st' [] /\
    same_history st st' /\ disk st' = disk st.
Proof.
  intros Hl Hd.
  destruct (freeDB_linked st l Hl) as (st1 & Hfree & Henv & Hh & Htab & Hb & Hfresh).
  destruct Henv as (a1 & a2 & a3 & a4 & a5 & a6 & a7).
  unfold loadDB. rewrite Hfree. simpl. rewrite a5, Hd. eexists. split; [done|].
  unfold same_history. simpl. by repeat split.
Qed.

Lemma loadDB_loadable filename st l :
  linked st l -> loadable (disk st !! filename) ->
  exists st' l', loadDB filename st = Some st' /\ linked st' l' /\
    same_history st st' /\ disk st' = disk st.
Proof.
  intros Hl Hload. destruct (disk st !! filename) as [content|] eqn:Hd.
  - destruct Hload as (rs & Hparse & Hok).
    destruct (loadDB_linked filename st l content rs Hl Hd Hparse Hok)
      as (st' & l' & Hrun & Hl' & _ & Hh & Hdisk & _). eauto 10.
  - destruct (loadDB_absent filename st l Hl Hd) as (st' & Hrun & Hl' & Hh & Hdisk). eauto 10.
Qed.

Lemma all_ok_free_bucket S0 S :
  Forall (fun r => 0 <= id r) S -> NoDup ((fun x => hash (id x)) <$> (S0 ++ S)) ->
  all_ok free_bucket S0 S.
Proof.
  revert S0. induction S as [|r S IH]; intros S0 Hids Hnd; [done|].
  apply Forall_cons in Hids as [Hr Hids]. simpl. split.
  - split; [done|]. rewrite fmap_app in Hnd. apply NoDup_app in Hnd as (_ & Hdis & _).
    intros Hin. apply (Hdis _ Hin). simpl. apply list_elem_of_here.
  - apply IH; [done|]. by rewrite <- app_assoc.
Qed.

Lemma exact_all_ok st l : exact_index st l -> all_ok free_bucket [] (l.*2).
Proof.
  intros (_ & Hids & Hnd & _). apply all_ok_free_bucket.
  - apply Forall_fmap. eapply Forall_impl; [exact Hids|]. done.
  - simpl. by rewrite <- buckets_of_records.
Qed.

Lemma linked_set_undoStack st l U : linked st l -> linked (set_undoStack U st) l.
Proof. by apply linked_store. Qed.

Lemma linked_set_redoStack st l R : linked st l -> linked (set_redoStack R st) l.
Proof. by apply linked_store. Qed.

(** C10 (as amended).  On a well linked store whose files are absent or
    readable, [loadDB] and [openDB] return and leave the undo and the redo
    stack as they are; so does [restoreDB] when undo or redo replays it, and
    when there is no backup file.  A restore asked for by the user with a
    backup file at hand is the exception: it returns with its own Restore
    action on top of the undo stack and with the redo stack emptied, the
    reload inside it changing neither.  An action that was on the undo stack
    before a reload is therefore still there afterwards, for a later undo to
    replay on the reloaded records. *)
Theorem load_keeps_history (filename : string) (st : CMS)
    (l : list (addr * StudentRecord))
    (Hl : linked st l)
    (Hfile : loadable (disk st !! filename))
    (Hprimary : loadable (disk st !! primary_path))
    (Hbackup : loadable (disk st !! backup_path)) :
  (exists st1, loadDB filename st = Some st1 /\ same_history st st1) /\
  (exists st2, openDB st = Some st2 /\ same_history st st2) /\
  (exists st3, restoreDB true st = Some st3 /\ same_history st st3) /\
  (exists st4, restoreDB false st = Some st4 /\
     match disk st !! backup_path with
     | None => same_history st st4
     | Some _ => undoStack st4 = RESTORE_OP :: undoStack st /\ redoStack st4 = []
     end).
Proof.
  split.
  { destruct (loadDB_loadable filename st l Hl Hfile) as (st1 & l1 & H1 & _ & Hh1 & _).
    by exists st1. }
  split.
  { unfold openDB. destruct (dbLoaded st).
    - eexists. split; [done|]. by split.
    - destruct (loadDB_loadable primary_path st l Hl Hprimary)
        as (st2 & l2 & H2 & _ & Hh2 & _).
      by exists st2. }
  unfold restoreDB. destruct (disk st !! backup_path) as [content|] eqn:Hb.
  - split.
    + destruct (loadDB_loadable backup_path st l Hl) as (st3 & l3 & H3 & _ & Hh3 & _).
      { by rewrite Hb. }
      rewrite H3. cbn [mbind option_bind]. eexists. split; [done|]. exact Hh3.
    + destruct (loadDB_loadable backup_path (pushUndo RESTORE_OP st) l)
        as (st4 & l4 & H4 & _ & [Hu Hr] & _).
      { by apply linked_set_redoStack, linked_set_undoStack. }
      { change (disk (pushUndo RESTORE_OP st)) with (disk st). by rewrite Hb. }
      rewrite H4. cbn [mbind option_bind]. eexists. split; [done|].
      split; [exact Hu|exact Hr].
  - split; (eexists; split; [done|by split]).
Qed.

(** Undoing a restore reloads the primary file. *)
Lemma undo_restore st l U :
  linked st l -> undoStack st = RESTORE_OP :: U -> loadable (disk st !! primary_path) ->
  exists st' l', undo st = Some st' /\ linked st' l' /\
    undoStack st' = U /\ redoStack st' = RESTORE_OP :: redoStack st /\
    disk st' = disk st.
Proof.
  intros Hl HU Hload. unfold undo. rewrite HU.
  destruct (loadDB_loadable primary_path (set_undoStack U st) l)
    as (st' & l' & Hrun & Hl' & [Hu Hr] & Hd); [by apply linked_set_undoStack|done|].
  rewrite Hrun. simpl. eexists _, l'. split; [done|].
  split; [by eapply linked_store; [..|exact Hl']|].
  simpl. by rewrite Hu, Hr, Hd.
Qed.

(** Redoing a restore reloads the backup file. *)
Lemma redo_restore st l R content S :
  linked st l -> redoStack st = RESTORE_OP :: R ->
  disk st !! backup_path = Some content -> parse_file content = Some S ->
  all_ok free_bucket [] S ->
  exists st' l', redo st = Some st' /\ exact_index st' l' /\ l'.*2 = S /\
    undoStack st' = RESTORE_OP :: undoStack st /\ redoStack st' = R /\
    disk st' = disk st.
Proof.
  intros Hl HR Hd Hparse Hok. unfold redo, restoreDB. rewrite HR. simpl. rewrite Hd.
  destruct (loadDB_exact backup_path (set_redoStack R st) l content S)
    as (st' & l' & Hrun & Hex' & Hl' & [Hu Hr] & Hdisk & _);
    [by apply linked_set_redoStack|done|done|done|].
  rewrite Hrun. simpl. eexists _, l'. split; [done|].
  split; [by eapply exact_index_store; [..|exact Hex']|].
  simpl. by rewrite Hu, Hr, Hdisk.
Qed.

Lemma fmap_snd_snoc_inv l S0 r :
  l.*2 = S0 ++ [r] -> exists l0 p, l = l0 ++ [(p, r)] /\ l0.*2 = S0.
Proof.
  intros H. apply fmap_app_inv in H as (l0 & l1 & -> & Hl1 & ->).
  destruct l1 as [|[p r'] [|? ?]]; simplify_eq/=. eauto.
Qed.

Lemma elem_of_fmap_snd_split l r :
  r ∈ l.*2 -> exists l1 p l2, l = l1 ++ (p, r) :: l2.
Proof.
  intros Hin. apply list_elem_of_fmap in Hin as ([p r'] & -> & Hin).
  apply list_elem_of_split in Hin as (l1 & l2 & ->). eauto.
Qed.

(** C4 (as amended).  On a store whose hash table is an exact index and
    whose top undo action describes the records it holds, [undo] followed
    by [redo] returns, and leaves the record sequence, every lookup by id
    and both stacks as they were. *)
Theorem undo_redo_identity (st : CMS) (l : list (addr * StudentRecord))
    (a : Action) (U : list Action) :
  exact_index st l -> undoStack st = a :: U -> describes a st (l.*2) ->
  exists st1 st2, undo st = Some st1 /\ redo st1 = Some st2 /\
    records st2 = records st /\
    (forall i, lookup_record i st2 = lookup_record i st) /\
    undoStack st2 = undoStack st /\ redoStack st2 = redoStack st.
Proof.
  intros Hex HU Hdesc.
  assert (forall st2 l2, exact_index st2 l2 -> l2.*2 = l.*2 ->
            records st2 = records st /\
            forall i, lookup_record i st2 = lookup_record i st) as Hsame.
  { intros st2 l2 Hex2 Hl2. split.
    - rewrite (records_chain st2 l2), (records_chain st l); [by rewrite Hl2| |].
      + by destruct Hex as ((? & _) & _).
      + by destruct Hex2 as ((? & _) & _).
    - intros i. rewrite (lookup_record_exact st2 l2), (lookup_record_exact st l) by done.
      by rewrite Hl2. }
  destruct a as [new|old new|old|]; simpl in Hdesc.
  - destruct Hdesc as [S0 HS]. apply fmap_snd_snoc_inv in HS as (l0 & p & -> & _).
    destruct (undo_insert st l0 p new U Hex HU) as (st1 & Hundo & Hex1 & Hu1 & Hr1 & Hd1).
    destruct (exact_free_bucket_last _ _ _ _ Hex) as [Hid Hfree].
    destruct (redo_insert st1 l0 new (redoStack st) Hex1 Hr1 Hid Hfree)
      as (st2 & Hredo & Hex2 & Hu2 & Hr2 & Hd2).
    exists st1, st2. split; [done|]. split; [done|].
    destruct (Hsame st2 _ Hex2) as [H1 H2]; [by rewrite !fmap_app|].
    split; [done|]. split; [done|]. by rewrite Hu2, Hu1, Hr2, HU.
  - destruct Hdesc as (Hid & Hin & Hn & Hp & Hm).
    apply elem_of_fmap_snd_split in Hin as (l1 & p & l2 & ->).
    destruct (undo_update st l1 p new l2 old U Hex HU Hid)
      as (st1 & Hundo & Hex1 & Hu1 & Hr1 & Hd1).
    destruct (redo_update st1 l1 p _ l2 old new (redoStack st) Hex1 Hr1)
      as (st2 & Hredo & Hex2 & Hu2 & Hr2 & Hd2); [done|].
    rewrite patched_back_and_forth in Hex2 by done.
    exists st1, st2. split; [done|]. split; [done|].
    destruct (Hsame st2 _ Hex2) as [H1 H2]; [done|].
    split; [done|]. split; [done|]. by rewrite Hu2, Hu1, Hr2, HU.
  - destruct Hdesc as [Hid Hfree]. rewrite <- buckets_of_records in Hfree.
    destruct (undo_delete st l old U Hex HU Hid Hfree)
      as (st1 & Hundo & Hex1 & Hu1 & Hr1 & Hd1).
    destruct (redo_delete st1 l (brk st) old (redoStack st) Hex1 Hr1)
      as (st2 & Hredo & Hex2 & Hu2 & Hr2 & Hd2).
    exists st1, st2. split; [done|]. split; [done|].
    destruct (Hsame st2 _ Hex2) as [H1 H2]; [done|].
    split; [done|]. split; [done|]. by rewrite Hu2, Hu1, Hr2, HU.
  - destruct Hdesc as [(content & Hbak & Hparse) Hload].
    destruct (undo_restore st l U (proj1 Hex) HU Hload)
      as (st1 & l1 & Hundo & Hl1 & Hu1 & Hr1 & Hd1).
    destruct (redo_restore st1 l1 (redoStack st) content (l.*2) Hl1 Hr1)
      as (st2 & l2 & Hredo & Hex2 & Hl2 & Hu2 & Hr2 & Hd2);
      [by rewrite Hd1|done|by eapply exact_all_ok|].
    exists st1, st2. split; [done|]. split; [done|].
    destruct (Hsame st2 _ Hex2) as [H1 H2]; [done|].
    split; [done|]. split; [done|]. by rewrite Hu2, Hu1, Hr2, HU.
Qed.

Lemma run_cons (step : CMS -> option CMS) (steps : list (CMS -> option CMS)) (st : CMS) :
  run (step :: steps) st = step st ≫= run steps.
Proof.
  unfold run. simpl. destruct (step st) as [st'|]; [done|].
  simpl. induction steps as [|s steps IH]; [done|]. simpl. apply IH.
Qed.

Lemma undo_n_S k st : undo_n (S k) st = undo_n k st ≫= undo.
Proof. done. Qed.

(** Writing the new values and then the old ones back gives the old record
    when no empty string and no negative mark was overwritten. *)
Lemma patched_forth_and_back r n p mk :
  ((0 <? length n)%nat = true -> name r <> []) ->
  ((0 <? length p)%nat = true -> programme r <> []) ->
  (f_le f_zero mk = true -> f_le f_zero (mark r) = true) ->
  patched (patched r n p mk) (name r) (programme r) (mark r) = r.
Proof.
  intros Hn Hp Hm. destruct r as [i n0 p0 m0]. simpl in *. unfold patched. simpl. f_equal.
  - destruct n0; [|done]. simpl. destruct (0 <? length n)%nat; [|done]. by destruct Hn.
  - destruct p0; [|done]. simpl. destruct (0 <? length p)%nat; [|done]. by destruct Hp.
  - destruct (f_le f_zero m0) eqn:E; [done|].
    destruct (f_le f_zero mk); [|done]. by discriminate Hm.
Qed.

Lemma fmap_snd_mid_inv l S1 r S2 :
  l.*2 = S1 ++ r :: S2 ->
  exists l1 p l2, l = l1 ++ (p, r) :: l2 /\ l1.*2 = S1 /\ l2.*2 = S2.
Proof.
  intros H. apply fmap_app_inv in H as (l1 & l' & -> & Hl' & ->).
  destruct l' as [|[p r'] l2]; simplify_eq/=. eauto 10.
Qed.

(** One reversible mutation and, later, its undo, on exact indexes. *)
Lemma user_mutation_exact m st l :
  exact_index st l -> reversible m (l.*2) ->
  exists st' l' a, user_mutation m st = Some st' /\ exact_index st' l' /\
    undoStack st' = a :: undoStack st /\
    forall st2 l2, exact_index st2 l2 -> l2.*2 = l'.*2 -> undoStack st2 = a :: undoStack st ->
      exists st3 l3, undo st2 = Some st3 /\ exact_index st3 l3 /\ l3.*2 = l.*2 /\
        undoStack st3 = undoStack st.
Proof.
  intros Hex Hrev. destruct m as [i n p mk|i n p mk|i]; simpl in Hrev.
  - destruct Hrev as [Hi Hfree]. rewrite <- buckets_of_records in Hfree.
    destruct (insertDB_exact st l i n p mk false Hex Hi Hfree)
      as (st' & Hrun & Hex' & Hu & _).
    eexists st', _, _. split; [exact Hrun|]. split; [exact Hex'|]. split; [exact Hu|].
    intros st2 l2 Hex2 Hl2 Hu2. rewrite fmap_app in Hl2. simpl in Hl2.
    apply fmap_snd_snoc_inv in Hl2 as (l0 & q & -> & Hl0).
    destruct (undo_insert st2 l0 q _ _ Hex2 Hu2) as (st3 & Hundo & Hex3 & Hu3 & _).
    eauto 10.
  - destruct Hrev as (r & Hin & Hid & Hn & Hp & Hm).
    apply elem_of_fmap_snd_split in Hin as (l1 & q & l2 & ->). subst i.
    destruct (updateDB_exact st l1 q r l2 n p mk false Hex)
      as (st' & Hrun & Hex' & _ & Hu & _).
    eexists st', _, _. split; [exact Hrun|]. split; [exact Hex'|]. split; [exact Hu|].
    intros st2 l2' Hex2 Hl2 Hu2. rewrite fmap_app, fmap_cons in Hl2. simpl in Hl2.
    apply fmap_snd_mid_inv in Hl2 as (k1 & q' & k2 & -> & Hk1 & Hk2).
    destruct (undo_update st2 k1 q' _ k2 r _ Hex2 Hu2) as (st3 & Hundo & Hex3 & Hu3 & _);
      [done|].
    rewrite patched_forth_and_back in Hex3 by done.
    eexists st3, _. split; [done|]. split; [exact Hex3|]. split; [|done].
    rewrite !fmap_app, !fmap_cons. simpl. by rewrite Hk1, Hk2.
  - destruct Hrev as (S0 & r & HS & Hid). subst i.
    apply fmap_snd_snoc_inv in HS as (l0 & q & -> & Hl0).
    destruct (deleteDB_last_exact st l0 q r false Hex) as (st' & Hrun & Hex' & Hu & _).
    eexists st', l0, _. simpl. rewrite Hrun. simpl. split; [done|]. split; [exact Hex'|].
    split; [exact Hu|].
    intros st2 l2 Hex2 Hl2 Hu2.
    destruct (exact_free_bucket_last _ _ _ _ Hex) as [Hi Hfree].
    destruct (undo_delete st2 l2 r _ Hex2 Hu2 Hi) as (st3 & Hundo & Hex3 & Hu3 & _).
    { by rewrite buckets_of_records, Hl2, <- buckets_of_records. }
    eexists st3, _. split; [done|]. split; [exact Hex3|]. split; [|done].
    rewrite !fmap_app. simpl. by rewrite Hl2.
Qed.

(** C2 (as amended).  On a store whose hash table is an exact index, a
    sequence of user mutations that are each reversible where they apply
    (inserts into free buckets, updates that overwrite no empty string and
    no negative mark, deletes of the last record) succeeds, and as many
    undos afterwards return the record sequence, every lookup by id and the
    undo stack to what they were before the sequence. *)
Theorem undo_all_mutations (ms : list Mutation) (st : CMS)
    (l : list (addr * StudentRecord)) :
  exact_index st l -> all_reversible ms st ->
  exists st1 st2, run (user_mutation <$> ms) st = Some st1 /\
    undo_n (length ms) st1 = Some st2 /\
    records st2 = records st /\
    (forall i, lookup_record i st2 = lookup_record i st) /\
    undoStack st2 = undoStack st.
Proof.
  intros Hex Hall.
  assert (exists st1 st2 l2, run (user_mutation <$> ms) st = Some st1 /\
            undo_n (length ms) st1 = Some st2 /\ exact_index st2 l2 /\
            l2.*2 = l.*2 /\ undoStack st2 = undoStack st) as
    (st1 & st2 & l2 & Hrun & Hundo & Hex2 & Hl2 & Hu2).
  { revert st l Hex Hall. induction ms as [|m ms IH]; intros st l Hex Hall.
    - exists st, st, l. split; [done|]. split; [done|]. split; [exact Hex|]. by split.
    - destruct Hall as [(S & HS & Hrev) Hall].
      rewrite (records_chain st l) in HS by (by destruct Hex as ((? & _) & _)).
      injection HS as <-.
      destruct (user_mutation_exact m st l Hex Hrev)
        as (st' & l' & a & Hstep & Hex' & Hu' & Hback).
      destruct (IH st' l' Hex' (Hall st' Hstep))
        as (st1 & st2 & l2 & Hrun & Hundo & Hex2 & Hl2 & Hu2).
      destruct (Hback st2 l2 Hex2 Hl2) as (st3 & l3 & Hlast & Hex3 & Hl3 & Hu3);
        [by rewrite Hu2|].
      exists st1, st3, l3. rewrite fmap_cons, run_cons, Hstep.
      split; [exact Hrun|]. split.
      { change (undo_n (length ms) st1 ≫= undo = Some st3). by rewrite Hundo. }
      split; [exact Hex3|]. by split. }
  exists st1, st2. split; [done|]. split; [done|]. split; [|split; [|done]].
  - rewrite (records_chain st2 l2), (records_chain st l); [by rewrite Hl2| |].
    + by destruct Hex as ((? & _) & _).
    + by destruct Hex2 as ((? & _) & _).
  - intros i. rewrite (lookup_record_exact st2 l2), (lookup_record_exact st l) by done.
    by rewrite Hl2.
Qed.

End UndoRedo.

(** ** Lines of text *)

Section Text.

Lemma one_line_app s1 s2 : one_line (s1 ++ s2) <-> one_line s1 /\ one_line s2.
Proof. unfold one_line. rewrite forallb_app. apply andb_true_iff. Qed.

Lemma plain_text_app s1 s2 : plain_text (s1 ++ s2) <-> plain_text s1 /\ plain_text s2.
Proof. unfold plain_text. rewrite forallb_app. apply andb_true_iff. Qed.

Lemma plain_one_line s : plain_text s -> one_line s.
Proof.
  unfold plain_text, one_line. induction s as [|ch s IH]; [done|]. simpl.
  intros [H1 H2]%andb_true_iff. rewrite IH by done. rewrite andb_true_r.
  unfold is_plain, is_eol in *. destruct (ascii_eqb ch TAB); [done|]. done.
Qed.

Lemma fgets_line n line rest :
  one_line line -> (length line < n)%nat ->
  fgets n (line ++ LF :: rest) = (line ++ [LF], rest).
Proof.
  unfold one_line. revert n. induction line as [|ch line IH]; intros n Hl Hn.
  - destruct n; [simpl in Hn; lia|]. done.
  - simpl in Hl, Hn. apply andb_true_iff in Hl as [Hch Hl].
    destruct n as [|n]; [lia|].
    change (fgets (S n) ((ch :: line) ++ LF :: rest))
      with (if ascii_eqb ch LF then ([ch], line ++ LF :: rest)
            else let '(l, r) := fgets n (line ++ LF :: rest) in (ch :: l, r)).
    unfold is_eol in Hch. destruct (ascii_eqb ch LF).
    + by rewrite orb_true_r in Hch.
    + rewrite IH by (done || lia). done.
Qed.

Lemma cut_eol_line line : one_line line -> cut_eol (line ++ [LF]) = line.
Proof.
  unfold one_line. induction line as [|ch line IH]; intros Hl; [done|].
  simpl in Hl. apply andb_true_iff in Hl as [Hch Hl].
  change (cut_eol ((ch :: line) ++ [LF]))
    with (if ascii_eqb ch CR || ascii_eqb ch LF || ascii_eqb ch NUL then []
          else ch :: cut_eol (line ++ [LF])).
  unfold is_eol in Hch. apply negb_true_iff in Hch. rewrite Hch. by rewrite IH.
Qed.

Lemma split_tab_field f rest :
  plain_text f -> split_tab (f ++ TAB :: rest) = (f, Some rest).
Proof.
  unfold plain_text. induction f as [|ch f IH]; intros Hf; [done|].
  simpl in Hf. apply andb_true_iff in Hf as [Hch Hf]. simpl.
  unfold is_plain in Hch. destruct (ascii_eqb ch TAB); [done|]. by rewrite IH.
Qed.

Lemma split_tab_last f : plain_text f -> split_tab f = (f, None).
Proof.
  unfold plain_text. induction f as [|ch f IH]; intros Hf; [done|].
  simpl in Hf. apply andb_true_iff in Hf as [Hch Hf]. simpl.
  unfold is_plain in Hch. destruct (ascii_eqb ch TAB); [done|]. by rewrite IH.
Qed.

Lemma cstr_one_line s : one_line s -> cstr s = s.
Proof.
  unfold one_line. induction s as [|ch s IH]; intros Hs; [done|].
  simpl in Hs. apply andb_true_iff in Hs as [Hch Hs]. simpl.
  unfold is_eol in Hch. destruct (ascii_eqb ch NUL).
  - by rewrite !orb_true_r in Hch.
  - by rewrite IH.
Qed.

Lemma cstring_eqb_refl s : cstring_eqb s s = true.
Proof.
  induction s as [|ch s IH]; [done|]. simpl. rewrite IH.
  unfold ascii_eqb. by rewrite Ascii.eqb_refl.
Qed.

(** *** Decimal digits *)

Lemma code_chr n : 0 <= n < 256 -> code (chr n) = n.
Proof.
  intros Hn. unfold code, chr. rewrite N_ascii_embedding; lia.
Qed.

Lemma digit_char d :
  0 <= d <= 9 ->
  isdigit (chr (48 + d)) = true /\ digit_val (chr (48 + d)) = d /\
  is_plain (chr (48 + d)) = true /\ isspace (chr (48 + d)) = false /\
  ascii_eqb (chr (48 + d)) "-"%char = false /\ ascii_eqb (chr (48 + d)) "+"%char = false.
Proof.
  intros Hd.
  assert (d = 0 \/ d = 1 \/ d = 2 \/ d = 3 \/ d = 4 \/ d = 5 \/ d = 6 \/ d = 7 \/ d = 8 \/ d = 9)
    as H by lia.
  repeat (destruct H as [->|H]; [by vm_compute|]). subst d. by vm_compute.
Qed.

Lemma dec_digits_spec fuel n s :
  0 <= n < 10 ^ Z.of_nat fuel -> (0 < fuel)%nat ->
  exists ds k, dec_digits fuel n s = ds ++ s /\ ds <> [] /\
    forallb isdigit ds = true /\ plain_text ds /\
    (forall a rest, digits_acc a (ds ++ rest) = digits_acc (a * 10 ^ k + n) rest) /\ 0 <= k.
Proof.
  revert n s. induction fuel as [|fuel IH]; intros n s Hn Hfuel; [lia|].
  simpl. destruct (n <? 10) eqn:E.
  - apply Z.ltb_lt in E. destruct (digit_char (n mod 10)) as (D1 & D2 & D3 & _).
    { pose proof (Z.mod_pos_bound n 10). lia. }
    rewrite Z.mod_small in * by lia.
    exists [chr (48 + n)], 1. split; [done|]. split; [done|].
    split; [by simpl; rewrite D1|]. split; [by unfold plain_text; simpl; rewrite D3|].
    split; [|lia]. intros a rest. simpl. rewrite D1, D2. f_equal. lia.
  - apply Z.ltb_ge in E.
    destruct (digit_char (n mod 10)) as (D1 & D2 & D3 & _).
    { pose proof (Z.mod_pos_bound n 10). lia. }
    destruct (IH (n / 10) (chr (48 + n mod 10) :: s)) as (ds & k & Hds & Hne & Hdig & Hpl & Hacc & Hk).
    { split; [apply Z.div_pos; lia|]. apply Z.div_lt_upper_bound; [lia|].
      rewrite Nat2Z.inj_succ, Z.pow_succ_r in Hn by lia. lia. }
    { destruct fuel; [simpl in Hn; lia|lia]. }
    exists (ds ++ [chr (48 + n mod 10)]), (k + 1).
    split; [by rewrite Hds, <- app_assoc|].
    split; [by destruct ds|].
    split; [by rewrite forallb_app, Hdig; simpl; rewrite D1|].
    split; [apply plain_text_app; split; [done|by unfold plain_text; simpl; rewrite D3]|].
    split; [|lia]. intros a rest. rewrite <- app_assoc, Hacc. simpl.
    rewrite D1, D2. f_equal. rewrite Z.pow_add_r by lia.
    pose proof (Z.div_mod n 10). lia.
Qed.

Lemma cstr_app s1 s2 : cstr s1 = s1 -> cstr s2 = s2 -> cstr (s1 ++ s2) = s1 ++ s2.
Proof.
  intros H1 H2. induction s1 as [|ch s1 IH]; [done|]. simpl in *.
  destruct (ascii_eqb ch NUL); [done|]. f_equal. apply IH. congruence.
Qed.

Lemma isdigit_not_sign ch :
  isdigit ch = true ->
  isspace ch = false /\ ascii_eqb ch "-"%char = false /\ ascii_eqb ch "+"%char = false.
Proof.
  intros Hd. split; [|split].
  - unfold isdigit, isspace in *. lia.
  - unfold ascii_eqb. destruct (Ascii.eqb_spec ch "-"%char) as [->|]; [|done].
    by vm_compute in Hd.
  - unfold ascii_eqb. destruct (Ascii.eqb_spec ch "+"%char) as [->|]; [|done].
    by vm_compute in Hd.
Qed.

Lemma fmt_d_digits i :
  0 <= i ->
  exists (ds : cstring) (k : Z), fmt_d i = ds /\ ds <> [] /\ forallb isdigit ds = true /\ plain_text ds /\
    (forall a rest, digits_acc a (ds ++ rest) = digits_acc (a * 10 ^ k + i) rest).
Proof.
  intros Hi. unfold fmt_d. replace (i <? 0) with false by lia.
  destruct (dec_digits_spec (S (Z.to_nat (Z.log2 i))) i [])
    as (ds & k & H1 & H2 & H3 & H4 & H5 & _); [|lia|].
  - split; [done|]. pose proof (Z.log2_nonneg i) as Hl.
    replace (Z.of_nat (S (Z.to_nat (Z.log2 i)))) with (Z.succ (Z.log2 i)) by lia.
    destruct (decide (i = 0)) as [->|Hne]; [by vm_compute|].
    pose proof (Z.log2_spec i ltac:(lia)) as [_ Hlt].
    eapply Z.lt_le_trans; [exact Hlt|]. apply Z.pow_le_mono_l. lia.
  - exists ds, k. rewrite H1, app_nil_r. done.
Qed.

Lemma atoi_fmt_d i : 0 <= i <= INT_MAX -> atoi (fmt_d i) = Some i.
Proof.
  intros Hi. destruct (fmt_d_digits i) as (ds & k & -> & Hne & Hdig & _ & Hacc); [lia|].
  unfold atoi. destruct ds as [|ch ds]; [done|]. simpl in Hdig.
  apply andb_true_iff in Hdig as [Hch _].
  destruct (isdigit_not_sign ch Hch) as (Hs & Hm & Hp).
  simpl skip_spaces. rewrite Hs, Hm, Hp.
  pose proof (Hacc 0 []) as E. rewrite app_nil_r in E. rewrite E. simpl.
  unfold in_int, INT_MIN, INT_MAX in *.
  replace (_ && _) with true by lia. done.
Qed.

Lemma plain_fmt_d i : 0 <= i -> plain_text (fmt_d i) /\ fmt_d i <> [].
Proof.
  intros Hi. destruct (fmt_d_digits i) as (ds & k & -> & Hne & _ & Hpl & _); done.
Qed.

End Text.

(** ** The file format *)

Section Persistence.
Context {F : FloatOps}.

Lemma storable_one_line r : storable r -> one_line (line_text r).
Proof.
  intros (Hid & Hn & _ & Hp & _ & Hm & _). unfold line_text.
  destruct (plain_fmt_d (id r)) as [Hd _]; [lia|].
  repeat (apply one_line_app; split); try (by apply plain_one_line); done.
Qed.

(** One data line written by [saveDB] is read back as the record. *)
Lemma parse_line_text r : storable r -> parse_line (line_text r) = Some r.
Proof.
  intros (Hid & Hn & Hnl & Hp & Hpl & Hm & Hmne & Hatof & _).
  destruct (plain_fmt_d (id r)) as [Hd Hdne]; [lia|].
  unfold parse_line, line_text, next_field. simpl app.
  rewrite !split_tab_field by done. rewrite split_tab_last by done.
  rewrite atoi_fmt_d by done.
  replace (0 <? length (fmt_d (id r)))%nat with true
    by (by destruct (fmt_d (id r))).
  replace (0 <? length (fmt_1f (mark r)))%nat with true
    by (by destruct (fmt_1f (mark r))).
  simpl. rewrite option_guard_True by done. simpl.
  rewrite option_guard_True by done. simpl.
  rewrite Hatof. by destruct r.
Qed.

Lemma parse_lines_step fuel line rest :
  one_line line -> (length line < MAX_LINE - 1)%nat ->
  parse_lines (S fuel) (line ++ LF :: rest) =
    if is_header_line line then parse_lines fuel rest
    else r ← parse_line line; rs ← parse_lines fuel rest; Some (r :: rs).
Proof.
  intros H1 H2. pose proof (fgets_line (MAX_LINE - 1) line rest H1 H2) as Hf.
  destruct (line ++ LF :: rest) as [|ch s] eqn:E; [by destruct line|].
  cbn [parse_lines]. rewrite Hf, cut_eol_line by done. done.
Qed.

Lemma parse_lines_header fuel rest :
  parse_lines (5 + fuel) (file_header ++ rest) = parse_lines fuel rest.
Proof.
  change (file_header ++ rest)
    with (nth 0 header_lines [] ++ LF :: nth 1 header_lines [] ++ LF ::
          nth 2 header_lines [] ++ LF :: nth 3 header_lines [] ++ LF ::
          nth 4 header_lines [] ++ LF :: rest).
  change (5 + fuel)%nat with (S (S (S (S (S fuel))))).
  rewrite !parse_lines_step by (vm_compute; (reflexivity || lia)). done.
Qed.

Lemma record_line_text r : storable r -> record_line r = line_text r ++ [LF].
Proof.
  intros (_ & _ & _ & _ & _ & _ & _ & _ & Hlen & _). unfold record_line.
  apply take_ge. rewrite length_app. simpl. unfold MAX_LINE in *. lia.
Qed.

Lemma parse_lines_records rs fuel :
  Forall storable rs -> (length rs <= fuel)%nat ->
  parse_lines fuel (concat (map record_line rs)) = Some rs.
Proof.
  intros Hrs. revert fuel. induction Hrs as [|r rs Hr _ IH]; intros fuel Hf.
  - by destruct fuel.
  - destruct fuel as [|fuel]; [simpl in Hf; lia|]. simpl concat.
    rewrite record_line_text, <- app_assoc by done. simpl app.
    rewrite parse_lines_step.
    + pose proof Hr as (_ & _ & _ & _ & _ & _ & _ & _ & _ & ->).
      rewrite parse_line_text by done. simpl. rewrite IH by (simpl in Hf; lia). done.
    + by apply storable_one_line.
    + by destruct Hr as (_ & _ & _ & _ & _ & _ & _ & _ & Hlen & _).
Qed.

Lemma length_records_text rs :
  Forall storable rs -> (length rs <= length (concat (map record_line rs)))%nat.
Proof.
  induction 1 as [|r rs Hr _ IH]; [done|]. simpl.
  rewrite record_line_text, !length_app by done. simpl. lia.
Qed.

(** Reading what [saveDB] writes gives the records back. *)
Lemma parse_file_serialise rs : Forall storable rs -> parse_file (serialise rs) = Some rs.
Proof.
  intros Hrs. unfold parse_file, serialise. rewrite length_app.
  pose proof (length_records_text rs Hrs) as Hlen.
  replace (length file_header + length (concat (map record_line rs)))%nat
    with (5 + (length file_header - 5 + length (concat (map record_line rs))))%nat
    by (vm_compute (length file_header); lia).
  rewrite parse_lines_header. apply parse_lines_records; [done|lia].
Qed.

Lemma storable_valid_keys S rs : Forall storable rs -> all_ok valid_key S rs.
Proof.
  intros Hrs. revert S. induction Hrs as [|r rs Hr _ IH]; intros S; [done|].
  split; [|apply IH]. destruct Hr as (Hid & _). unfold valid_key. lia.
Qed.

Lemma cstr_serialise rs : Forall storable rs -> cstr (serialise rs) = serialise rs.
Proof.
  intros Hrs. unfold serialise. apply cstr_app; [reflexivity|].
  induction Hrs as [|r rs Hr _ IH]; [done|]. simpl.
  rewrite record_line_text by done.
  apply cstr_app; [|done]. apply cstr_app; [|done].
  apply cstr_one_line. by apply storable_one_line.
Qed.

(** [saveDB] on a store whose records serialise to the text of the primary
    file. *)
Lemma saveDB_unchanged st rs content :
  dbLoaded st = true -> records st = Some rs ->
  disk st !! primary_path = Some content -> content <> [] ->
  cstr content = serialise rs ->
  saveDB st = Some (printf (c "CMS: No changes detected. Nothing to save." ++ [LF]) st).
Proof.
  unfold saveDB, records. intros -> -> -> Hne Hc.
  destruct content as [|ch s]; [done|].
  cbn [negb mbind option_bind]. cbv beta iota zeta.
  rewrite Hc, cstring_eqb_refl. done.
Qed.

(** ... and on a store whose records serialise to another text than the one
    in the primary file: the file goes to the backup and the serialised
    records replace it. *)
Lemma saveDB_rewrites st rs content :
  dbLoaded st = true -> records st = Some rs ->
  disk st !! primary_path = Some content -> content <> [] ->
  cstring_eqb (cstr content) (serialise rs) = false ->
  backup_path ∉ readonly st -> primary_path ∉ readonly st ->
  exists st', saveDB st = Some st' /\
    disk st' !! backup_path = Some (cstr content) /\
    disk st' !! primary_path = Some (cstr (serialise rs)) /\
    dbModified st' = false.
Proof.
  unfold saveDB, records. intros -> -> -> Hne Hc Hb Hp.
  destruct content as [|ch s]; [done|].
  cbn [negb mbind option_bind]. cbv beta iota zeta. rewrite Hc.
  unfold fopen_w at 2. rewrite decide_False by done.
  unfold fopen_w. cbn [readonly fputs set_disk]. rewrite decide_False by done.
  eexists. split; [done|]. cbn [disk printf set_dbModified fputs set_disk dbModified].
  split; [|split; [|done]].
  - rewrite lookup_insert_ne by done. rewrite lookup_insert_ne by done.
    by rewrite lookup_insert_eq.
  - by rewrite lookup_insert_eq.
Qed.

(** C8 (as amended).  Records that the file format can hold come back
    unchanged: when every record is storable (an id from 0 to [INT_MAX], name
    and programme shorter than their buffers and free of TAB, CR, LF and NUL,
    a mark that [%.1f] prints exactly, a line that fits the line buffer and
    contains none of the header texts), loading the serialised records into
    a fresh store succeeds and yields the same records in the same order. *)
Theorem round_trip_storable (rs : list StudentRecord) (Hrs : Forall storable rs) :
  exists st, loadDB primary_path (fresh_store {[ primary_path := serialise rs ]}) = Some st /\
    records st = Some rs /\ dbLoaded st = true.
Proof.
  destruct (loadDB_linked primary_path (fresh_store {[ primary_path := serialise rs ]})
              [] (serialise rs) rs) as (st & l & Hrun & Hl & Hrec & _ & _ & Hloaded & _).
  - split; [done|]. split; [done|]. intros p _. apply lookup_empty.
  - apply lookup_singleton_eq.
  - by apply parse_file_serialise.
  - by apply storable_valid_keys.
  - exists st. split; [done|]. split; [|done].
    destruct Hl as (Hc & _). rewrite (records_chain st l Hc). by rewrite Hrec.
Qed.

(** C7 (as amended).  When the primary file is the serialised form of
    storable records, [loadDB] on a well linked store followed by [saveDB]
    leaves every file as it was and reports that there is nothing to save. *)
Theorem load_save_writes_nothing (st : CMS) (l0 : list (addr * StudentRecord))
    (rs : list StudentRecord)
    (Hl : linked st l0)
    (Hfile : disk st !! primary_path = Some (serialise rs))
    (Hrs : Forall storable rs) :
  exists st1, loadDB primary_path st = Some st1 /\
    records st1 = Some rs /\
    saveDB st1 =
      Some (printf (c "CMS: No changes detected. Nothing to save." ++ [LF]) st1) /\
    disk st1 = disk st.
Proof.
  destruct (loadDB_linked primary_path st l0 (serialise rs) rs Hl Hfile)
    as (st1 & l & Hrun & Hl1 & Hrec & _ & Hdisk & Hloaded & _).
  { by apply parse_file_serialise. }
  { by apply storable_valid_keys. }
  exists st1. split; [done|].
  destruct Hl1 as (Hc & _). pose proof (records_chain st1 l Hc) as Hwalk.
  rewrite Hrec in Hwalk. split; [done|]. split; [|done].
  apply (saveDB_unchanged st1 rs (serialise rs)); try done.
  - by rewrite Hdisk.
  - by apply cstr_serialise.
Qed.

End Persistence.

(** ** Delete anywhere, then undo *)

Section DeleteUndo.
Context {F : FloatOps}.

(** After a delete the bucket of the deleted id holds the cell that followed
    the deleted one in the list; a search for the id walks the rest of the
    list from there and finds nothing. *)
Lemma findNode_after_delete st l1 l2 i :
  linked st (l1 ++ l2) -> 0 <= i ->
  hashTable st !! hash i = hd_error (l2.*1) ->
  (forall x, x ∈ l2 -> id x.2 <> i) ->
  findNode i st = Some None.
Proof.
  intros (Hc & _) Hi Htab Hno. unfold findNode. rewrite bucket_hash by done.
  simpl. rewrite Htab. destruct l2 as [|[q rq] l2]; [by destruct (size (heap st))|].
  simpl. pose proof (chain_from _ _ _ _ _ _ Hc) as Hc'.
  rewrite (findNode_loop_chain _ _ _ _ _ Hc').
  - by rewrite first_with_none.
  - pose proof (chain_length _ _ _ Hc) as Hlen. rewrite length_app in Hlen. lia.
Qed.

(** A user delete of any record of the list followed by undo: both return,
    the undo stack is as before, and the record stands at the end of the
    list. *)
Lemma delete_undo_moves_to_tail st l1 p r l2 :
  exact_index st (l1 ++ (p, r) :: l2) ->
  exists st1 st2, deleteDB (id r) true false st = Some (true, st1) /\
    undo st1 = Some st2 /\
    records st = Some (l1.*2 ++ r :: l2.*2) /\
    records st2 = Some (l1.*2 ++ l2.*2 ++ [r]) /\
    undoStack st2 = undoStack st.
Proof.
  intros Hex.
  destruct (deleteDB_exact st l1 p r l2 false Hex)
    as (st1 & Hdel & Hl1 & Htab & Hu & _).
  assert ((p, r) ∈ l1 ++ (p, r) :: l2) as Hin
    by (apply elem_of_app; right; apply list_elem_of_here).
  pose proof (exact_id_nonneg _ _ _ Hex Hin) as Hid. simpl in Hid.
  assert (forall x, x ∈ l2 -> id x.2 <> id r) as Hno.
  { intros x Hx Hxid.
    assert (x = (p, r)) as ->.
    { eapply exact_bucket_inj; [exact Hex| |done|].
      - apply elem_of_app. right. by apply list_elem_of_further.
      - unfold bucket_of. by rewrite Hxid. }
    destruct Hex as ((Hc & _) & _). pose proof (chain_NoDup _ _ _ Hc) as Hnd.
    rewrite fmap_app in Hnd. apply NoDup_app in Hnd as (_ & _ & Hnd).
    rewrite fmap_cons in Hnd. apply NoDup_cons in Hnd as [Hnd _].
    apply Hnd. by apply (list_elem_of_fmap_2 fst) in Hx. }
  set (st0 := set_undoStack (undoStack st) st1).
  assert (linked st0 (l1 ++ l2)) as Hl0 by (by apply linked_set_undoStack).
  assert (findNode (id r) st0 = Some None) as Hfind.
  { apply (findNode_after_delete st0 l1 l2); try done.
    unfold st0. simpl. rewrite Htab. by rewrite lookup_partial_alter_eq. }
  destruct (add_record_linked st0 (l1 ++ l2) r Hl0 Hid) as (st3 & Hadd & (Hc3 & _) & _ & Henv).
  exists st1. eexists. split; [exact Hdel|].
  split.
  { unfold undo. rewrite Hu. fold st0. cbv beta iota zeta.
    rewrite insertDB_unfold, Hfind. simpl. rewrite record_eta, Hadd. simpl. done. }
  split.
  { destruct Hex as ((Hc & _) & _). rewrite (records_chain st _ Hc).
    by rewrite fmap_app. }
  split.
  - unfold records. simpl. fold (records st3). rewrite (records_chain st3 _ Hc3).
    by rewrite !fmap_app, <- app_assoc.
  - simpl. destruct Henv as (_ & _ & Hus & _). by rewrite Hus.
Qed.

End DeleteUndo.

(** ** Runs on concrete stores *)

Section Runs.
#[local] Existing Instance decimal_float.

(** C1.  After two user inserts whose ids share a bucket (2000000 and
    2002003), both records are in the list, yet [findNode] no longer finds
    the first: the search starts at the newer node and follows the list
    pointer, which leads away from the older one. *)
Theorem index_loses_colliding_record :
  records_of (then_run colliding_inserts (opened [])) =
    Some [student 2000000 "Ann" "Cs" 90; student 2002003 "Ben" "Cs" 80] /\
  lookup_of 2002003 (then_run colliding_inserts (opened [])) =
    Some (Some (student 2002003 "Ben" "Cs" 80)) /\
  lookup_of 2000000 (then_run colliding_inserts (opened [])) = Some None.
Proof. repeat apply conj; reflexivity. Qed.

(** C5.  Because the first record has become invisible to [findNode], a
    third insert with its id is accepted and the list holds the id twice. *)
Theorem duplicate_id_accepted :
  ids_of (then_run
            (colliding_inserts ++
             [main_command (c "INSERT ID=2000000 NAME=eve PROGRAMME=ee MARK=10")])
            (opened [])) =
    Some [2000000; 2002003; 2000000].
Proof. reflexivity. Qed.

(** C3.  UPDATE with a NAME and no MARK: [parseCommand] hands [0.0f] to
    [updateDB] for the missing mark, which passes the test [mark >= 0.0f]
    and overwrites the stored 50.0. *)
Theorem update_without_mark_resets_mark :
  parseCommand (c "ID=2000002 NAME=bobby") true OPTIONAL_REQUIRED =
    Accepted (mkParsed 2000002 (c "Bobby") [] f_zero [true; true; false; false] true) /\
  records_of (opened [bob]) = Some [student 2000002 "Bob" "Ee" 50] /\
  records_of (then_run [main_command (c "UPDATE ID=2000002 NAME=bobby")] (opened [bob])) =
    Some [student 2000002 "Bobby" "Ee" 0].
Proof. repeat apply conj; reflexivity. Qed.

(** C9, the claim as stated fails: a store with one record loaded, whose
    file has disappeared, is emptied and marked as not loaded by the failed
    [loadDB]. *)
Lemma failed_load_counterexample :
  records_of orphaned = Some [bob] /\
  dbLoaded <$> orphaned = Some true /\
  orphaned ≫= (fun st => disk st !! primary_path) = None /\
  records_of (orphaned ≫= loadDB primary_path) = Some [] /\
  dbLoaded <$> (orphaned ≫= loadDB primary_path) = Some false.
Proof. repeat apply conj; reflexivity. Qed.

Lemma orphaned_store_linked : linked orphaned_store [(0%nat, bob)].
Proof.
  assert (heap orphaned_store = {[ 0%nat := mkNode bob None None ]}) as Hh
    by reflexivity.
  split; [|split].
  - simpl. split; [reflexivity|]. exists (mkNode bob None None).
    rewrite Hh. rewrite lookup_singleton_eq. by repeat split.
  - intros _. reflexivity.
  - intros p Hp. rewrite Hh. apply lookup_singleton_ne.
    assert (brk orphaned_store = 1%nat) as Hb by reflexivity. lia.
Qed.

Lemma failed_load_empties_store_witness :
  exists st', loadDB primary_path orphaned_store = Some st' /\
    records st' = Some [] /\ hashTable st' = ∅ /\ dbLoaded st' = false /\
    dbModified st' = dbModified orphaned_store /\ same_history orphaned_store st' /\
    disk st' = disk orphaned_store /\
    stdout st' = stdout orphaned_store ++
      [c "CMS: Could not open file " ++ [DQUOTE] ++ c primary_path ++ [DQUOTE] ++ c "." ++ [LF]].
Proof.
  apply (failed_load_empties_store primary_path orphaned_store [(0%nat, bob)]).
  - apply orphaned_store_linked.
  - reflexivity.
Defined.

(** C6.  The descending view is not stable.  For marks 80.0, 80.0, 70.0
    entered as 2000004, 2000005, 2000006 the view by mark, descending, lists
    2000005 before 2000004, where a stable sort lists 2000004 first; the
    ascending view of the same records keeps the two in the order they were
    entered.  [mergeSorted] takes from the first list on [compare <= 0] when
    ascending and only on [compare > 0] when descending, so that there a tie
    goes to the second list. *)
Theorem descending_sort_reverses_ties :
  records_of (opened tie_records) = Some tie_records /\
  sorted_ids false false (opened tie_records) = Some [2000005; 2000004; 2000006] /\
  sorted_ids false false (opened tie_records) <> Some [2000004; 2000005; 2000006] /\
  sorted_ids false true (opened tie_records) = Some [2000006; 2000004; 2000005].
Proof.
  assert (sorted_ids false false (opened tie_records) = Some [2000005; 2000004; 2000006])
    as E by reflexivity.
  split; [reflexivity|]. split; [exact E|]. split; [|reflexivity]. rewrite E. intros H.
  apply (inj Some) in H. apply (f_equal (fun l => nth 0 l 0)) in H. by simpl in H.
Qed.

Lemma decimal_lt_order : StrictWeakOrder (f_lt (FloatOps := decimal_float)).
Proof.
  split; simpl.
  - intros a b Hab. apply negb_true_iff in Hab. apply negb_false_iff.
    apply Qle_bool_iff. apply Qlt_le_weak, Qnot_le_lt. intros Hle.
    apply Qle_bool_iff in Hle. congruence.
  - intros a b c Hab Hbc. apply negb_false_iff in Hab, Hbc. apply negb_false_iff.
    apply Qle_bool_iff in Hab, Hbc. apply Qle_bool_iff. by eapply Qle_trans.
Qed.

Lemma sorted_view_ties_witness :
  Permutation (mergeSort tie_records false false) tie_records /\
  StronglySorted (fun r1 r2 => view_order false false r1 r2 = true)
    (mergeSort tie_records false false) /\
  forall k, k ∈ tie_records ->
    List.filter (same_key false k) (mergeSort tie_records false false) =
      rev (List.filter (same_key false k) tie_records).
Proof.
  apply (sorted_view_ties false false tie_records). exact decimal_lt_order.
Defined.

(** C2, the claim as stated fails.  A delete from the middle of the list
    followed by undo puts the record back at the end; and an update of an
    empty name followed by undo keeps the new name. *)
Lemma undo_counterexample :
  records_of (opened [amy; bob]) = Some [amy; bob] /\
  records_of (then_run [confirmed_delete 2000001; undo] (opened [amy; bob])) =
    Some [bob; amy] /\
  records_of (opened [nameless]) = Some [nameless] /\
  records_of (then_run [main_command (c "UPDATE ID=2000005 NAME=zed MARK=60"); undo]
                (opened [nameless])) =
    Some [student 2000005 "Zed" "Ee" 50].
Proof. repeat apply conj; reflexivity. Qed.

(** C4, the claim as stated fails: with the insert of [cy] on top of the
    undo stack but [cy] no longer last in the list, undo followed by redo
    moves [cy] to the end. *)
Lemma undo_redo_counterexample :
  top_of_undoStack shuffled = Some (INSERT_OP cy) /\
  records_of shuffled = Some [bob; cy; amy] /\
  records_of (then_run [undo; redo] shuffled) = Some [bob; amy; cy].
Proof. repeat apply conj; reflexivity. Qed.

Lemma opened_bob_exact : exists l, exact_index opened_bob l /\ l.*2 = [bob].
Proof.
  destruct (loadDB_exact primary_path (fresh_store (data_dir [bob])) []
              (serialise [bob]) [bob]) as (st' & l' & Hrun & Hex & Hl' & _).
  - split; [done|]. split; [done|]. intros p _. apply lookup_empty.
  - apply lookup_singleton_eq.
  - reflexivity.
  - simpl. split; [|done]. split; [done|]. apply not_elem_of_nil.
  - exists l'. unfold opened_bob, opened, openDB.
    change (dbLoaded (fresh_store (data_dir [bob]))) with false. cbv iota.
    rewrite Hrun. split; [exact Hex|exact Hl'].
Qed.

Lemma with_cy_exact :
  exists l, exact_index with_cy l /\
    undoStack with_cy = INSERT_OP cy :: undoStack opened_bob /\
    describes (INSERT_OP cy) with_cy (l.*2).
Proof.
  destruct opened_bob_exact as (l & Hex & Hl).
  destruct (insertDB_exact opened_bob l 2000003 (c "Cy") (c "Ee") (Qmake 70 1) false Hex)
    as (st' & Hrun & Hex' & Hu & _).
  - done.
  - rewrite buckets_of_records, Hl. simpl.
    apply not_elem_of_cons. split; [by vm_compute|apply not_elem_of_nil].
  - exists (l ++ [(brk opened_bob, cy)]). unfold with_cy. rewrite Hrun. simpl.
    split; [exact Hex'|]. split; [exact Hu|]. exists (l.*2). by rewrite fmap_app.
Qed.

Lemma undo_redo_identity_witness :
  exists st1 st2, undo with_cy = Some st1 /\ redo st1 = Some st2 /\
    records st2 = records with_cy /\
    (forall i, lookup_record i st2 = lookup_record i with_cy) /\
    undoStack st2 = undoStack with_cy /\ redoStack st2 = redoStack with_cy.
Proof.
  destruct with_cy_exact as (l & Hex & Hu & Hdesc).
  exact (undo_redo_identity with_cy l (INSERT_OP cy) (undoStack opened_bob) Hex Hu Hdesc).
Defined.

Lemma three_mutations_reversible : all_reversible three_mutations opened_bob.
Proof.
  split.
  { exists [bob]. split; [reflexivity|]. simpl. split; [done|].
    apply not_elem_of_cons. split; [by vm_compute|apply not_elem_of_nil]. }
  intros st1 H1. rewrite (returns_default _ opened_bob) in H1 by (by vm_compute).
  apply (inj Some) in H1. subst st1. split.
  { exists [bob; cy]. split; [reflexivity|]. exists bob.
    split; [apply list_elem_of_here|]. split; [done|]. by repeat split. }
  intros st2 H2. rewrite (returns_default _ opened_bob) in H2 by (by vm_compute).
  apply (inj Some) in H2. subst st2. split.
  { exists [student 2000002 "Bob" "Ee" 75; cy]. split; [reflexivity|].
    by exists [student 2000002 "Bob" "Ee" 75], cy. }
  done.
Qed.

Lemma undo_all_mutations_witness :
  exists st1 st2, run (user_mutation <$> three_mutations) opened_bob = Some st1 /\
    undo_n (length three_mutations) st1 = Some st2 /\
    records st2 = records opened_bob /\
    (forall i, lookup_record i st2 = lookup_record i opened_bob) /\
    undoStack st2 = undoStack opened_bob.
Proof.
  destruct opened_bob_exact as (l & Hex & _).
  exact (undo_all_mutations three_mutations opened_bob l Hex three_mutations_reversible).
Defined.

Lemma bob_storable : storable bob.
Proof.
  split; [by vm_compute|]. split; [reflexivity|]. split; [simpl; unfold MAX_NAME; lia|].
  split; [reflexivity|]. split; [simpl; unfold MAX_PROGRAMME; lia|].
  split; [reflexivity|]. split; [by vm_compute|]. split; [reflexivity|].
  split; [vm_compute; lia|reflexivity].
Qed.

Lemma amy_storable : storable amy.
Proof.
  split; [by vm_compute|]. split; [reflexivity|]. split; [simpl; unfold MAX_NAME; lia|].
  split; [reflexivity|]. split; [simpl; unfold MAX_PROGRAMME; lia|].
  split; [reflexivity|]. split; [by vm_compute|]. split; [reflexivity|].
  split; [vm_compute; lia|reflexivity].
Qed.

(** C8, the claim as stated fails: the user inserts the mark 85.25; the
    file format holds one fractional digit, so the serialised store loads
    with the mark 85.2. *)
Lemma round_trip_counterexample :
  records_of with_al = Some [bob; al (Qmake 341 4)] /\
  records_of (reloaded with_al) = Some [bob; al (Qmake 426 5)].
Proof. repeat apply conj; reflexivity. Qed.

Lemma round_trip_storable_witness :
  Forall storable [amy; bob] /\
  exists st,
    loadDB primary_path (fresh_store (data_dir [amy; bob])) = Some st /\
    records st = Some [amy; bob] /\ dbLoaded st = true.
Proof.
  assert (Forall storable [amy; bob]) as Hs.
  { constructor; [exact amy_storable|]. constructor; [exact bob_storable|]. constructor. }
  split; [exact Hs|]. exact (round_trip_storable [amy; bob] Hs).
Defined.

(** C7, the claim as stated fails: a file whose mark reads 50 is opened
    without complaint; SAVE straight afterwards finds the serialised text
    (mark 50.0) different from the file, copies the file to the backup and
    rewrites the primary file. *)
Lemma load_save_counterexample :
  records_of whole_mark_opened = Some [bob] /\
  file_of backup_path whole_mark_opened = None /\
  file_of backup_path (then_run [saveDB] whole_mark_opened) = Some whole_mark_file /\
  file_of primary_path (then_run [saveDB] whole_mark_opened) = Some (serialise [bob]) /\
  cstring_eqb (serialise [bob]) whole_mark_file = false /\
  last_message (then_run [saveDB] whole_mark_opened) =
    Some (c "CMS: The database file " ++ [DQUOTE] ++ c "P4_1-CMS.txt" ++ [DQUOTE]
            ++ c " has been successfully saved." ++ [LF]).
Proof. repeat apply conj; reflexivity. Qed.

Lemma load_save_writes_nothing_witness :
  records with_cy = Some [bob; cy] /\
  exists st1, loadDB primary_path with_cy = Some st1 /\
    records st1 = Some [bob] /\
    saveDB st1 =
      Some (printf (c "CMS: No changes detected. Nothing to save." ++ [LF]) st1) /\
    disk st1 = disk with_cy.
Proof.
  split; [reflexivity|].
  destruct with_cy_exact as (l & Hex & _). destruct Hex as (Hl & _).
  apply (load_save_writes_nothing with_cy l [bob] Hl); [reflexivity|].
  constructor; [exact bob_storable|constructor].
Defined.

End Runs.

(** * Further properties of the store operations *)

Section Operations.
Context {F : FloatOps}.

Lemma holds_split st S1 r S2 :
  holds st (S1 ++ r :: S2) ->
  exists l1 p l2, exact_index st (l1 ++ (p, r) :: l2) /\ l1.*2 = S1 /\ l2.*2 = S2.
Proof.
  intros (l & Hex & Hl).
  destruct (fmap_snd_mid_inv l S1 r S2 Hl) as (l1 & p & l2 & -> & H1 & H2). eauto 10.
Qed.

Lemma holds_elem st S r :
  holds st S -> r ∈ S -> exists S1 S2, S = S1 ++ r :: S2.
Proof. intros _ Hin. apply list_elem_of_split in Hin as (S1 & S2 & ->). eauto. Qed.

Lemma holds_id_nonneg st S r : holds st S -> r ∈ S -> 0 <= id r.
Proof.
  intros (l & Hex & <-) Hin. apply list_elem_of_fmap in Hin as ([p r'] & -> & Hin).
  apply (exact_id_nonneg st l (p, r') Hex Hin).
Qed.

Lemma holds_buckets st S : holds st S -> NoDup (buckets S).
Proof.
  intros (l & (_ & _ & Hnd & _) & <-). unfold buckets.
  by rewrite <- buckets_of_records.
Qed.

Lemma find_by_id_unique S r :
  NoDup (buckets S) -> r ∈ S -> List.find (fun x => id x =? id r) S = Some r.
Proof.
  unfold buckets. induction S as [|x S IH]; intros Hnd Hin; [by apply elem_of_nil in Hin|].
  rewrite fmap_cons in Hnd. apply NoDup_cons in Hnd as [Hx Hnd]. simpl.
  apply elem_of_cons in Hin as [->|Hin]; [by rewrite Z.eqb_refl|].
  destruct (id x =? id r) eqn:E; [|by apply IH].
  apply Z.eqb_eq in E. exfalso. apply Hx. rewrite E.
  by apply (list_elem_of_fmap_2 (fun x => hash (id x))).
Qed.

Lemma find_by_id_none S i :
  i ∉ id <$> S -> List.find (fun x => id x =? i) S = None.
Proof.
  induction S as [|x S IH]; intros Hin; [done|]. simpl.
  rewrite fmap_cons in Hin. apply not_elem_of_cons in Hin as [Hx Hin].
  destruct (id x =? i) eqn:E; [|by apply IH]. apply Z.eqb_eq in E. congruence.
Qed.

Lemma free_bucket_fresh_id S i : hash i ∉ buckets S -> i ∉ id <$> S.
Proof.
  intros Hfree Hin. apply Hfree. apply list_elem_of_fmap in Hin as (x & -> & Hin).
  by apply (list_elem_of_fmap_2 (fun x => hash (id x))).
Qed.

(** X1.  On a store that holds [S], [findNode] serves every record of [S]
    under its id, and finds nothing under an id that no record of [S]
    carries. *)
Theorem lookup_finds_each_record (st : CMS) (S : list StudentRecord)
    (Hst : holds st S) :
  (forall r, r ∈ S -> lookup_record (id r) st = Some (Some r)) /\
  (forall i, 0 <= i -> i ∉ id <$> S -> lookup_record i st = Some None).
Proof.
  pose proof (holds_buckets st S Hst) as Hnd.
  pose proof Hst as (l & Hex & Hl). split.
  - intros r Hin. rewrite (lookup_record_exact st l) by done.
    rewrite in_table_hash by (by eapply holds_id_nonneg).
    rewrite Hl. by rewrite find_by_id_unique.
  - intros i Hi Hin. rewrite (lookup_record_exact st l) by done.
    rewrite in_table_hash by done. rewrite Hl. by rewrite find_by_id_none.
Qed.

(** X2.  INSERT of an id whose bucket is free: the record goes to the end
    of the list and into the index, the action is pushed on the undo stack,
    the redo stack is emptied, the store is marked as modified, and no file
    is touched. *)
Theorem insert_appends_record (st : CMS) (S : list StudentRecord)
    (i : Z) (n pg : cstring) (m : float)
    (Hst : holds st S) (Hi : 0 <= i) (Hfree : hash i ∉ buckets S) :
  exists st', insertDB i n pg m false st = Some st' /\
    holds st' (S ++ [mkRecord i n pg m]) /\
    undoStack st' = INSERT_OP (mkRecord i n pg m) :: undoStack st /\
    redoStack st' = [] /\ dbModified st' = true /\ disk st' = disk st /\
    stdout st' =
      stdout st ++ [c "CMS: Record with ID=" ++ fmt_d i ++ c " inserted." ++ [LF]].
Proof.
  destruct Hst as (l & Hex & Hl).
  assert (hash i ∉ bucket_of <$> l) as Hfree'
    by (by rewrite buckets_of_records, Hl).
  rewrite insertDB_unfold. rewrite (findNode_exact st l) by done.
  rewrite first_with_none by (by apply not_in_buckets_ids). simpl.
  destruct (add_record_exact st l (mkRecord i n pg m) Hex Hi Hfree')
    as (st3 & -> & Hex3 & Henv).
  destruct Henv as (a1 & a2 & a3 & a4 & a5 & a6 & a7). simpl.
  eexists. split; [done|]. split.
  { exists (l ++ [(brk st, mkRecord i n pg m)]). split.
    - by eapply exact_index_store; [..|exact Hex3].
    - by rewrite fmap_app, Hl. }
  simpl. by rewrite a3, a5, a7.
Qed.

(** X3.  On a store that holds [S] (the table an exact index of the list,
    no two records in one bucket), INSERT of an id that a record of [S]
    carries is refused: the user is told so and nothing else changes; from
    undo or redo it is a silent no-op. *)
Theorem insert_refuses_duplicate (st : CMS) (S : list StudentRecord)
    (r : StudentRecord) (n pg : cstring) (m : float)
    (Hst : holds st S) (Hin : r ∈ S) :
  insertDB (id r) n pg m false st =
    Some (printf (c "CMS: Record with ID=" ++ fmt_d (id r)
                    ++ c " already exists." ++ [LF]) st) /\
  insertDB (id r) n pg m true st = Some st.
Proof.
  pose proof (holds_id_nonneg st S r Hst Hin) as Hid.
  destruct (holds_elem st S r Hst Hin) as (S1 & S2 & ->).
  destruct (holds_split st S1 r S2 Hst) as (l1 & p & l2 & Hex & _).
  rewrite !insertDB_unfold. rewrite (findNode_exact st _ _ Hex Hid).
  rewrite (exact_first_with st l1 p r l2 Hex). done.
Qed.

(** *** What the operations leave alone *)

Lemma hashRemove_loop_env fuel index i cur prev st st' :
  hashRemove_loop fuel index i cur prev st = Some st' -> same_env st st'.
Proof.
  revert cur prev. induction fuel as [|fuel IH]; intros cur prev H.
  - destruct cur; simplify_eq/=. apply same_env_refl.
  - destruct cur as [p|]; simplify_eq/=; [|apply same_env_refl].
    destruct (heap st !! p) as [nd|]; simplify_eq/=.
    destruct (id (data nd) =? i).
    + destruct prev as [q|]; simplify_eq/=; [by eapply store_next_env|by repeat split].
    + by eapply IH.
Qed.

Lemma hashRemove_env i st st' : hashRemove i st = Some st' -> same_env st st'.
Proof.
  unfold hashRemove, bucket. intros H. case_match; simplify_eq/=.
  by eapply hashRemove_loop_env.
Qed.

Lemma add_record_env r st st' : add_record r st = Some st' -> same_env st st'.
Proof.
  unfold add_record, malloc. intros H.
  destruct (append_node _ _) as [st2|] eqn:E2; simplify_eq/=.
  apply append_node_env in E2. apply hashInsert_env in H.
  eapply same_env_trans; [|exact H]. eapply same_env_trans; [|exact E2].
  by repeat split.
Qed.

Lemma insertDB_disk i n pg m b st st' :
  insertDB i n pg m b st = Some st' ->
  disk st' = disk st /\ readonly st' = readonly st /\ dbLoaded st' = dbLoaded st.
Proof.
  rewrite insertDB_unfold. intros H.
  destruct (findNode i st) as [[q|]|]; simplify_eq/=; [by destruct b|].
  destruct (add_record _ _) as [st3|] eqn:E; simplify_eq/=.
  apply add_record_env in E. destruct E as (a1 & a2 & a3 & a4 & a5 & a6 & a7).
  by destruct b.
Qed.

Lemma updateDB_disk i n pg m b st st' :
  updateDB i n pg m b st = Some st' ->
  disk st' = disk st /\ readonly st' = readonly st /\ dbLoaded st' = dbLoaded st.
Proof.
  unfold updateDB. intros H.
  destruct (findNode i st) as [[q|]|]; simplify_eq/=; [|by destruct b].
  destruct (heap st !! q) as [nd|]; simplify_eq/=. by destruct b.
Qed.

Lemma deleteDB_disk i cf b st found st' :
  deleteDB i cf b st = Some (found, st') ->
  disk st' = disk st /\ readonly st' = readonly st /\ dbLoaded st' = dbLoaded st.
Proof.
  unfold deleteDB. intros H.
  destruct (deleteDB_loop _ _ _ _ _) as [[cur prev]|]; simplify_eq/=.
  destruct cur as [p|]; simplify_eq/=; [|done].
  destruct cf; simplify_eq/=; [|done].
  destruct (heap st !! p) as [nd|]; simplify_eq/=.
  set (st1 := if b then st else pushUndo (DELETE_OP (data nd)) st) in *.
  assert (disk st1 = disk st /\ readonly st1 = readonly st /\ dbLoaded st1 = dbLoaded st)
    as (E1 & E2 & E3) by (subst st1; by destruct b).
  destruct (match prev with
            | Some q => store_next q (next nd) st1
            | None => Some (set_head (next nd) st1)
            end) as [st2|] eqn:Est2; simplify_eq/=.
  assert (same_env st1 st2) as (_ & a2 & _ & _ & a5 & a6 & _).
  { destruct prev; simplify_eq/=; [by eapply store_next_env|by repeat split]. }
  destruct (hashRemove _ _) as [st4|] eqn:E4; simplify_eq/=.
  apply hashRemove_env in E4. destruct E4 as (_ & c2 & _ & _ & c5 & c6 & _).
  assert (disk st4 = disk st /\ readonly st4 = readonly st /\ dbLoaded st4 = dbLoaded st)
    as (D1 & D2 & D3).
  { rewrite c5, c6, c2. case_decide; simpl; by rewrite a2, a5, a6. }
  by destruct b.
Qed.

Lemma updateDB_user_flags i n pg m st st' p :
  updateDB i n pg m false st = Some st' -> findNode i st = Some (Some p) ->
  dbModified st' = true /\
  stdout st' = stdout st ++ [c "CMS: The record with ID=" ++ fmt_d i
                               ++ c " is successfully updated." ++ [LF]].
Proof.
  unfold updateDB. intros H Hfind. rewrite Hfind in H. simpl in H.
  destruct (heap st !! p) as [nd|]; by simplify_eq/=.
Qed.

Lemma deleteDB_user_flags i st st' :
  deleteDB i true false st = Some (true, st') ->
  dbModified st' = true /\
  stdout st' = stdout st ++ [c "CMS: The record with ID=" ++ fmt_d i
                               ++ c " is successfully deleted." ++ [LF]].
Proof.
  unfold deleteDB. intros H.
  destruct (deleteDB_loop _ _ _ _ _) as [[cur prev]|]; simplify_eq/=.
  destruct cur as [p|]; simplify_eq/=.
  destruct (heap st !! p) as [nd|]; simplify_eq/=.
  destruct (match prev with
            | Some q => store_next q (next nd) (pushUndo (DELETE_OP (data nd)) st)
            | None => Some (set_head (next nd) (pushUndo (DELETE_OP (data nd)) st))
            end) as [st2|] eqn:Est2; simplify_eq/=.
  assert (same_env (pushUndo (DELETE_OP (data nd)) st) st2) as (_ & _ & _ & _ & _ & _ & a7).
  { destruct prev; simplify_eq/=; [by eapply store_next_env|by repeat split]. }
  destruct (hashRemove _ _) as [st4|] eqn:E4; simplify_eq/=.
  apply hashRemove_env in E4. destruct E4 as (_ & _ & _ & _ & _ & _ & c7).
  split; [done|]. rewrite c7. case_decide; simpl; by rewrite a7.
Qed.

(** A search that starts from the right bucket head finds the record, on
    any well linked store. *)
Lemma lookup_record_linked st a q x b :
  linked st (a ++ (q, x) :: b) -> 0 <= id x ->
  hashTable st !! hash (id x) = Some q ->
  lookup_record (id x) st = Some (Some x).
Proof.
  intros (Hc & _) Hid Htab. unfold lookup_record, findNode.
  rewrite bucket_hash by done. simpl. rewrite Htab.
  pose proof (chain_from _ _ _ _ _ _ Hc) as Hc'.
  rewrite (findNode_loop_chain _ _ _ _ _ Hc').
  2:{ pose proof (chain_length _ _ _ Hc) as Hlen. rewrite length_app in Hlen.
      simpl in *. lia. }
  simpl. rewrite Z.eqb_refl. simpl.
  destruct Hc' as [_ (nd & -> & <- & _)]. done.
Qed.

(** X4.  On a store that holds its records (the table an exact index of
    the list, no two records in one bucket), UPDATE of one of them: the
    record is patched in place
    (a non-empty name or programme and a mark [>= 0] overwrite, the id and
    the position stay), the old and the new record go on the undo stack, the
    redo stack is emptied, the store is marked as modified and no file is
    touched. *)
Theorem update_patches_record (st : CMS) (S1 : list StudentRecord) (r : StudentRecord)
    (S2 : list StudentRecord) (n pg : cstring) (m : float)
    (Hst : holds st (S1 ++ r :: S2)) :
  exists st', updateDB (id r) n pg m false st = Some st' /\
    holds st' (S1 ++ patched r n pg m :: S2) /\
    undoStack st' = UPDATE_OP r (patched r n pg m) :: undoStack st /\
    redoStack st' = [] /\ dbModified st' = true /\ disk st' = disk st /\
    stdout st' = stdout st ++ [c "CMS: The record with ID=" ++ fmt_d (id r)
                                 ++ c " is successfully updated." ++ [LF]].
Proof.
  destruct (holds_split st S1 r S2 Hst) as (l1 & p & l2 & Hex & H1 & H2).
  destruct (updateDB_exact st l1 p r l2 n pg m false Hex)
    as (st' & Hrun & Hex' & _ & Hu & Hr & Hd).
  assert (findNode (id r) st = Some (Some p)) as Hfind.
  { rewrite (findNode_exact st _ _ Hex).
    - by rewrite (exact_first_with st l1 p r l2 Hex).
    - apply (exact_id_nonneg st _ (p, r) Hex). apply elem_of_app. right.
      apply list_elem_of_here. }
  destruct (updateDB_user_flags _ _ _ _ _ _ _ Hrun Hfind) as (Hm & Hout).
  exists st'. split; [done|]. split; [|done].
  eexists. split; [exact Hex'|]. by rewrite fmap_app, fmap_cons, H1, H2.
Qed.

(** X5.  On a store that holds [S] (the table an exact index of the list,
    no two records in one bucket), UPDATE of a non-negative id that no record
    of [S] carries: the user is told so and nothing else changes; from undo or
    redo it is a silent no-op. *)
Theorem update_unknown_id (st : CMS) (S : list StudentRecord)
    (i : Z) (n pg : cstring) (m : float)
    (Hst : holds st S) (Hi : 0 <= i) (Hnew : i ∉ id <$> S) :
  updateDB i n pg m false st =
    Some (printf (c "CMS: The record with ID=" ++ fmt_d i
                    ++ c " does not exist." ++ [LF]) st) /\
  updateDB i n pg m true st = Some st.
Proof.
  destruct Hst as (l & Hex & Hl). unfold updateDB.
  rewrite (findNode_exact st l i Hex Hi).
  rewrite first_with_none; [done|].
  intros pr Hin Hid. apply Hnew. rewrite <- Hl, <- Hid.
  apply list_elem_of_fmap. exists pr.2. split; [done|].
  by apply (list_elem_of_fmap_2 snd).
Qed.

Lemma deleteDB_holds (st : CMS) (S1 : list StudentRecord) (r : StudentRecord)
    (S2 : list StudentRecord) :
  holds st (S1 ++ r :: S2) ->
  exists st', deleteDB (id r) true false st = Some (true, st') /\
    records st' = Some (S1 ++ S2) /\
    lookup_record (id r) st' = Some None /\
    (forall x, x ∈ S1 ++ S2 -> lookup_record (id x) st' = Some (Some x)) /\
    undoStack st' = DELETE_OP r :: undoStack st /\
    redoStack st' = [] /\ dbModified st' = true /\ disk st' = disk st /\
    stdout st' = stdout st ++ [c "CMS: The record with ID=" ++ fmt_d (id r)
                                 ++ c " is successfully deleted." ++ [LF]].
Proof.
  intros Hst.
  destruct (holds_split st S1 r S2 Hst) as (l1 & p & l2 & Hex & H1 & H2).
  destruct (deleteDB_exact st l1 p r l2 false Hex)
    as (st' & Hrun & Hl' & Htab' & Hu & Hr & Hd).
  destruct (deleteDB_user_flags _ _ _ Hrun) as (Hm & Hout).
  pose proof Hex as (_ & Hids & Hnd & Htab).
  assert ((p, r) ∈ l1 ++ (p, r) :: l2) as Hin
    by (apply elem_of_app; right; apply list_elem_of_here).
  pose proof (exact_id_nonneg _ _ _ Hex Hin) as Hid. simpl in Hid.
  assert (forall y, y ∈ l1 ++ l2 -> y ∈ l1 ++ (p, r) :: l2) as Hsub.
  { intros y [Hy|Hy]%elem_of_app; apply elem_of_app; [by left|right].
    by apply list_elem_of_further. }
  assert (forall y, y ∈ l1 ++ l2 -> bucket_of y <> bucket_of (p, r)) as Hother.
  { intros y Hy Hb. rewrite fmap_app, fmap_cons in Hnd.
    apply NoDup_app in Hnd as (_ & Hdis & Hnd2). apply NoDup_cons in Hnd2 as [Hp2 _].
    apply elem_of_app in Hy as [Hy|Hy].
    - apply (Hdis (bucket_of y)); [by apply list_elem_of_fmap_2|].
      rewrite Hb. apply list_elem_of_here.
    - apply Hp2. rewrite <- Hb. by apply list_elem_of_fmap_2. }
  exists st'. split; [done|]. split.
  { destruct Hl' as (Hc & _). rewrite (records_chain st' _ Hc).
    by rewrite fmap_app, H1, H2. }
  split.
  { unfold lookup_record.
    rewrite (findNode_after_delete st' l1 l2 (id r)); try done.
    - rewrite Htab'. by rewrite lookup_partial_alter_eq.
    - intros y Hy Hyid. apply (Hother y); [apply elem_of_app; by right|].
      unfold bucket_of. by rewrite Hyid. }
  split; [|done].
  intros x Hx. rewrite <- H1, <- H2, <- fmap_app in Hx.
  apply list_elem_of_fmap in Hx as ([q x'] & -> & Hx). simpl.
  pose proof Hx as Hx'. apply list_elem_of_split in Hx' as (a & b & Hab).
  rewrite Hab in Hl'. apply (lookup_record_linked st' a q x' b Hl').
  - apply (exact_id_nonneg st _ (q, x') Hex). by apply Hsub.
  - rewrite Htab', lookup_partial_alter_ne by (symmetry; apply (Hother _ Hx)).
    apply Htab. exists x'. split; [by apply Hsub|done].
Qed.

(** X6.  On a store that holds its records (the table an exact index of
    the list, no two records in one bucket), DELETE (confirmed) of one of
    them: the record leaves the list, the others keep their order and are
    still found by id, the deleted id is no longer found, the deleted record
    goes on the undo stack, the redo stack is emptied, the store is marked as
    modified and no file is touched. *)
Theorem delete_removes_record (st : CMS) (S1 : list StudentRecord) (r : StudentRecord)
    (S2 : list StudentRecord)
    (Hst : holds st (S1 ++ r :: S2)) :
  exists st', deleteDB (id r) true false st = Some (true, st') /\
    records st' = Some (S1 ++ S2) /\
    lookup_record (id r) st' = Some None /\
    (forall x, x ∈ S1 ++ S2 -> lookup_record (id x) st' = Some (Some x)) /\
    undoStack st' = DELETE_OP r :: undoStack st /\
    redoStack st' = [] /\ dbModified st' = true /\ disk st' = disk st /\
    stdout st' = stdout st ++ [c "CMS: The record with ID=" ++ fmt_d (id r)
                                 ++ c " is successfully deleted." ++ [LF]].
Proof. by apply deleteDB_holds. Qed.

(** *** Searching the list without the index *)

Lemma walk_inv fuel h cur S :
  walk fuel h cur = Some S -> exists l, chain h cur l /\ l.*2 = S.
Proof.
  revert cur S. induction fuel as [|fuel IH]; intros [p|] S H; simplify_eq/=;
    try (by exists []).
  destruct (h !! p) as [nd|] eqn:Hnd; simplify_eq/=.
  destruct (walk fuel h (next nd)) as [rs|] eqn:Hw; simplify_eq/=.
  destruct (IH _ _ Hw) as (l & Hc & Hl).
  exists ((p, data nd) :: l). split; [|by rewrite fmap_cons, Hl].
  simpl. split; [done|]. by exists nd.
Qed.

Lemma deleteDB_loop_none fuel h i cur prev l :
  chain h cur l -> (forall x, x ∈ l -> id x.2 <> i) -> (length l <= fuel)%nat ->
  exists prev', deleteDB_loop fuel h i cur prev = Some (None, prev').
Proof.
  revert cur prev fuel. induction l as [|[p r] l IH]; intros cur prev fuel; simpl.
  - intros -> _ _. exists prev. by destruct fuel.
  - intros [-> (nd & Hnd & <- & Hc)] Hno Hlen. destruct fuel as [|fuel]; [lia|].
    simpl. rewrite Hnd. simpl.
    assert ((id (data nd) =? i) = false) as ->.
    { apply Z.eqb_neq. apply (Hno (p, data nd)). apply list_elem_of_here. }
    apply IH; [done| |lia]. intros x Hx. apply Hno. by apply list_elem_of_further.
Qed.

Lemma first_occurrence i (l : list (addr * StudentRecord)) :
  i ∈ id <$> l.*2 ->
  exists l1 p r l2, l = l1 ++ (p, r) :: l2 /\ (forall x, x ∈ l1 -> id x.2 <> i) /\ id r = i.
Proof.
  induction l as [|[p r] l IH]; intros Hin; [by apply elem_of_nil in Hin|].
  destruct (decide (id r = i)) as [Heq|Hne].
  - exists [], p, r, l. split; [done|]. split; [|done]. intros x Hx.
    by apply elem_of_nil in Hx.
  - simpl in Hin. apply elem_of_cons in Hin as [Hin|Hin]; [congruence|].
    destruct (IH Hin) as (l1 & q & rq & l2 & -> & Hno & Hid).
    exists ((p, r) :: l1), q, rq, l2. split; [done|]. split; [|done].
    intros x [->|Hx]%elem_of_cons; [done|by apply Hno].
Qed.

Lemma deleteDB_preview (st : CMS) (S : list StudentRecord) (i : Z) (b : bool) :
  records st = Some S ->
  deleteDB i false b st = Some (bool_decide (i ∈ id <$> S), st) /\
  (i ∉ id <$> S -> deleteDB i true b st = Some (false, st)).
Proof.
  intros Hrec.
  destruct (walk_inv _ _ _ _ Hrec) as (l & Hc & <-).
  pose proof (chain_length _ _ _ Hc) as Hlen.
  assert (i ∉ id <$> l.*2 -> forall cf, deleteDB i cf b st = Some (false, st)) as Hnone.
  { intros Hno cf. unfold deleteDB.
    destruct (deleteDB_loop_none (size (heap st)) (heap st) i (head st) None l)
      as (prev' & ->); [done| |done|done].
    intros x Hx Hid. apply Hno. rewrite <- Hid.
    apply list_elem_of_fmap. exists x.2. split; [done|].
    by apply (list_elem_of_fmap_2 snd). }
  split; [|by intros Hno; apply Hnone].
  case_bool_decide as Hin; [|by apply Hnone].
  destruct (first_occurrence i l Hin) as (l1 & p & r & l2 & -> & Hno & Hid).
  unfold deleteDB.
  by rewrite (deleteDB_loop_chain _ _ _ _ None l1 p r l2).
Qed.

(** X7.  DELETE before the confirmation ([confirm = 0]) only tells whether
    a record with the id is in the list, and a DELETE of an id that no record
    carries returns 0 even when confirmed: neither changes the store. *)
Theorem delete_preview_changes_nothing (st : CMS) (S : list StudentRecord) (i : Z)
    (b : bool) (Hrec : records st = Some S) :
  deleteDB i false b st = Some (bool_decide (i ∈ id <$> S), st) /\
  (i ∉ id <$> S -> deleteDB i true b st = Some (false, st)).
Proof. by apply deleteDB_preview. Qed.

(** *** Releasing the list *)

Lemma freeDB_loop_heap fuel cur st l :
  chain (heap st) cur l -> (length l <= fuel)%nat ->
  exists st', freeDB_loop fuel cur st = Some st' /\
    forall q, heap st' !! q = if decide (q ∈ l.*1) then None else heap st !! q.
Proof.
  revert cur fuel st. induction l as [|[p r] l IH]; intros cur fuel st Hc Hlen.
  - simpl in Hc. subst cur. exists st. split; [by destruct fuel|].
    intros q. rewrite decide_False; [done|]. apply not_elem_of_nil.
  - pose proof (chain_NoDup _ _ _ Hc) as Hnd. simpl in Hnd.
    apply NoDup_cons in Hnd as [Hp _].
    destruct Hc as [-> (nd & Hlk & _ & Hc)]. destruct fuel as [|fuel]; [simpl in Hlen; lia|].
    simpl. rewrite Hlk. simpl.
    destruct (IH (next nd) fuel (free p st)) as (st' & Hrun & Hheap).
    { simpl. by apply chain_delete_fresh. }
    { simpl in Hlen. lia. }
    exists st'. split; [done|]. intros q. rewrite Hheap. simpl.
    destruct (decide (q = p)) as [->|Hne].
    + rewrite decide_False by done. rewrite lookup_delete_eq.
      rewrite decide_True; [done|]. apply list_elem_of_here.
    + rewrite lookup_delete_ne by done. destruct (decide (q ∈ l.*1)) as [Hq|Hq].
      * rewrite decide_True; [done|]. by apply list_elem_of_further.
      * rewrite decide_False; [done|]. by intros [?|?]%elem_of_cons.
Qed.

(** X8.  [freeDB] on a well linked list releases every cell of the list
    and no other, and resets [head], so that the store has no records; the
    hash table and [tail] keep the addresses they held, and neither the flags,
    the stacks, the files nor the output change. *)
Theorem freeDB_releases_list (st : CMS) (l : list (addr * StudentRecord))
    (Hl : linked st l) :
  exists st', freeDB st = Some st' /\ records st' = Some [] /\
    (forall q, q ∈ l.*1 -> heap st' !! q = None) /\
    (forall q, q ∉ l.*1 -> heap st' !! q = heap st !! q) /\
    hashTable st' = hashTable st /\ tail st' = tail st /\ same_env st st'.
Proof.
  destruct Hl as (Hc & _).
  destruct (freeDB_loop_heap (size (heap st)) (head st) st l Hc) as (st1 & Hrun & Hheap);
    [by eapply chain_length|].
  destruct (freeDB_loop_chain (size (heap st)) (head st) st l Hc)
    as (st1' & Hrun' & Henv & _ & Ht & Htab & _); [by eapply chain_length|].
  rewrite Hrun in Hrun'. apply (inj Some) in Hrun'. subst st1'.
  unfold freeDB. rewrite Hrun. simpl. eexists. split; [done|].
  split; [unfold records; simpl; by destruct (size (heap st1))|].
  simpl. split; [intros q Hq; by rewrite Hheap, decide_True|].
  split; [intros q Hq; by rewrite Hheap, decide_False|].
  split; [done|]. split; [done|].
  destruct Henv as (a1 & a2 & a3 & a4 & a5 & a6 & a7). by repeat split.
Qed.

(** *** Loading and restoring *)

Lemma valid_keys S rs : Forall (fun r => 0 <= id r) rs -> all_ok valid_key S rs.
Proof.
  intros Hrs. revert S. induction Hrs as [|r rs Hr _ IH]; intros S; [done|].
  split; [done|apply IH].
Qed.

Lemma loadDB_disk f st st' :
  loadDB f st = Some st' -> disk st' = disk st /\ readonly st' = readonly st.
Proof.
  unfold loadDB. intros H.
  destruct (freeDB st) as [st1|] eqn:E1; simplify_eq/=.
  apply freeDB_env in E1. destruct E1 as (_ & _ & _ & _ & a5 & a6 & _).
  destruct (disk st1 !! f) as [content|]; simplify_eq/=; [|done].
  destruct (loadDB_loop _ _ _) as [st3|] eqn:E3; simplify_eq/=.
  apply loadDB_loop_env in E3. destruct E3 as (_ & _ & _ & _ & b5 & b6 & _).
  simpl in *. split; congruence.
Qed.

Lemma loadDB_stdout f st st' content :
  loadDB f st = Some st' -> disk st !! f = Some content ->
  stdout st' =
    stdout st ++ [c "CMS: The database file " ++ [DQUOTE] ++ c "P4_1-CMS.txt"
                    ++ [DQUOTE] ++ c " is successfully opened." ++ [LF]].
Proof.
  unfold loadDB. intros H Hf.
  destruct (freeDB st) as [st1|] eqn:E1; simplify_eq/=.
  apply freeDB_env in E1. destruct E1 as (_ & _ & _ & _ & a5 & _ & a7).
  rewrite a5, Hf in H.
  destruct (loadDB_loop _ _ _) as [st3|] eqn:E3; simplify_eq/=.
  apply loadDB_loop_env in E3. destruct E3 as (_ & _ & _ & _ & _ & _ & b7).
  simpl in *. congruence.
Qed.

Lemma loadDB_holds f st l0 content rs :
  linked st l0 -> disk st !! f = Some content -> parse_file content = Some rs ->
  Forall (fun r => 0 <= id r) rs -> NoDup (buckets rs) ->
  exists st', loadDB f st = Some st' /\ holds st' rs /\ dbLoaded st' = true /\
    dbModified st' = dbModified st /\ same_history st st'.
Proof.
  intros Hl Hf Hparse Hids Hnd.
  destruct (loadDB_exact f st l0 content rs Hl Hf Hparse)
    as (st' & l' & Hrun & Hex & Hl' & Hh & _ & Hld & Hm).
  { by apply all_ok_free_bucket. }
  exists st'. split; [done|]. split; [by exists l'|done].
Qed.

(** X9.  [loadDB] of a file that can be read replaces whatever the store
    held: afterwards the store holds exactly the records of the file, in
    file order; it is marked as loaded, the modified flag keeps its value,
    no file changes, and the message names P4_1-CMS.txt whatever the file. *)
Theorem load_replaces_records (st : CMS) (l0 : list (addr * StudentRecord))
    (f : string) (content : cstring) (rs : list StudentRecord)
    (Hl : linked st l0) (Hf : disk st !! f = Some content)
    (Hparse : parse_file content = Some rs)
    (Hids : Forall (fun r => 0 <= id r) rs) (Hnd : NoDup (buckets rs)) :
  exists st', loadDB f st = Some st' /\ holds st' rs /\
    dbLoaded st' = true /\ dbModified st' = dbModified st /\ disk st' = disk st /\
    stdout st' =
      stdout st ++ [c "CMS: The database file " ++ [DQUOTE] ++ c "P4_1-CMS.txt"
                      ++ [DQUOTE] ++ c " is successfully opened." ++ [LF]].
Proof.
  destruct (loadDB_holds f st l0 content rs Hl Hf Hparse Hids Hnd)
    as (st' & Hrun & Hh & Hld & Hm & _).
  exists st'. split; [done|]. split; [done|]. split; [done|]. split; [done|].
  split; [by apply (loadDB_disk f st st')|by apply (loadDB_stdout f st st' content)].
Qed.

Lemma linked_pushUndo st l a : linked st l -> linked (pushUndo a st) l.
Proof. by apply linked_store. Qed.

Lemma restoreDB_holds (st : CMS) (l0 : list (addr * StudentRecord))
    (content : cstring) (rs : list StudentRecord) :
  linked st l0 -> disk st !! backup_path = Some content ->
  parse_file content = Some rs ->
  Forall (fun r => 0 <= id r) rs -> NoDup (buckets rs) ->
  exists st', restoreDB false st = Some st' /\ holds st' rs /\
    undoStack st' = RESTORE_OP :: undoStack st /\ redoStack st' = [] /\
    dbLoaded st' = true /\ dbModified st' = true /\ disk st' = disk st.
Proof.
  intros Hl Hf Hparse Hids Hnd.
  destruct (loadDB_holds backup_path (pushUndo RESTORE_OP st) l0 content rs)
    as (st' & Hrun & (l & Hex & Hl') & Hld & _ & Hu & Hr);
    [by apply linked_pushUndo|done..|].
  pose proof (loadDB_disk _ _ _ Hrun) as [Hd _].
  unfold restoreDB. rewrite Hf. simpl. rewrite Hrun. simpl.
  eexists. split; [done|]. split.
  { exists l. split; [|done]. by eapply exact_index_store; [..|exact Hex]. }
  simpl. by rewrite Hu, Hr, Hd.
Qed.

(** X10.  RESTORE by the user with a readable backup file: the store then
    holds the records of the backup, a Restore action is on top of the undo
    stack, the redo stack is empty, the store is marked as loaded and as
    modified, and no file changes. *)
Theorem restore_loads_backup (st : CMS) (l0 : list (addr * StudentRecord))
    (content : cstring) (rs : list StudentRecord)
    (Hl : linked st l0) (Hf : disk st !! backup_path = Some content)
    (Hparse : parse_file content = Some rs)
    (Hids : Forall (fun r => 0 <= id r) rs) (Hnd : NoDup (buckets rs)) :
  exists st', restoreDB false st = Some st' /\ holds st' rs /\
    undoStack st' = RESTORE_OP :: undoStack st /\ redoStack st' = [] /\
    dbLoaded st' = true /\ dbModified st' = true /\ disk st' = disk st.
Proof. by apply (restoreDB_holds st l0 content). Qed.

(** X11.  UNDO of a restore does not bring back the records the store held
    before the restore: it loads the primary file.  After RESTORE and UNDO
    the store lists the records of the primary file, the undo stack is as
    before the restore and the restore waits on the redo stack. *)
Theorem undo_of_restore_reloads_primary (st : CMS) (l0 : list (addr * StudentRecord))
    (backup primary : cstring) (rsB rsP : list StudentRecord)
    (Hl : linked st l0)
    (HfB : disk st !! backup_path = Some backup) (HparseB : parse_file backup = Some rsB)
    (HidsB : Forall (fun r => 0 <= id r) rsB)
    (HfP : disk st !! primary_path = Some primary) (HparseP : parse_file primary = Some rsP)
    (HidsP : Forall (fun r => 0 <= id r) rsP) :
  exists st1 st2, restoreDB false st = Some st1 /\ undo st1 = Some st2 /\
    records st1 = Some rsB /\ records st2 = Some rsP /\
    undoStack st2 = undoStack st /\ redoStack st2 = [RESTORE_OP].
Proof.
  destruct (loadDB_linked backup_path (pushUndo RESTORE_OP st) l0 backup rsB)
    as (st1 & l1 & Hrun1 & Hl1 & Hrs1 & (Hu1 & Hr1) & Hd1 & _);
    [by apply linked_pushUndo|done|done|by apply valid_keys|].
  set (st1' := set_dbModified true
    (printf (c "CMS: Database successfully restored from backup. Changes are not saved yet."
               ++ [LF]) st1)).
  assert (restoreDB false st = Some st1') as Hres.
  { unfold restoreDB. rewrite HfB. simpl. by rewrite Hrun1. }
  assert (linked (set_undoStack (undoStack st) st1') l1) as Hl1'
    by (by eapply linked_store; [..|exact Hl1]).
  destruct (loadDB_linked primary_path (set_undoStack (undoStack st) st1') l1 primary rsP)
    as (st2 & l2 & Hrun2 & Hl2 & Hrs2 & (Hu2 & Hr2) & _);
    [done|simpl; by rewrite Hd1|done|by apply valid_keys|].
  exists st1'. eexists. split; [done|]. split.
  { unfold undo. assert (undoStack st1' = RESTORE_OP :: undoStack st) as ->
      by (simpl; by rewrite Hu1).
    cbv beta iota zeta. rewrite Hrun2. simpl. done. }
  split.
  { destruct Hl1 as (Hc & _). unfold records. simpl. fold (records st1).
    by rewrite (records_chain st1 l1 Hc), Hrs1. }
  split.
  { destruct Hl2 as (Hc & _). unfold records. simpl. fold (records st2).
    by rewrite (records_chain st2 l2 Hc), Hrs2. }
  simpl. rewrite Hu2. simpl. split; [done|]. rewrite Hr2. simpl. by rewrite Hr1.
Qed.

(** *** Files *)

Lemma openDB_disk st st' :
  openDB st = Some st' -> disk st' = disk st /\ readonly st' = readonly st.
Proof.
  unfold openDB. destruct (dbLoaded st); [by intros [= <-]|apply loadDB_disk].
Qed.

Lemma restoreDB_disk b st st' :
  restoreDB b st = Some st' -> disk st' = disk st /\ readonly st' = readonly st.
Proof.
  unfold restoreDB. intros H. destruct (disk st !! backup_path); simplify_eq/=; [|done].
  destruct (loadDB _ _) as [st2|] eqn:E; simplify_eq/=.
  apply loadDB_disk in E as [E1 E2]. by destruct b.
Qed.

Lemma undo_disk st st' :
  undo st = Some st' -> disk st' = disk st /\ readonly st' = readonly st.
Proof.
  unfold undo. intros H. destruct (undoStack st) as [|a U]; simplify_eq/=; [done|].
  destruct a as [new|old new|old|]; simpl in H.
  - destruct (deleteDB _ _ _ _) as [[fd st1]|] eqn:E; simplify_eq/=.
    apply deleteDB_disk in E as (E1 & E2 & _). done.
  - destruct (updateDB _ _ _ _ _ _) as [st1|] eqn:E; simplify_eq/=.
    apply updateDB_disk in E as (E1 & E2 & _). done.
  - destruct (insertDB _ _ _ _ _ _) as [st1|] eqn:E; simplify_eq/=.
    apply insertDB_disk in E as (E1 & E2 & _). done.
  - destruct (loadDB _ _) as [st1|] eqn:E; simplify_eq/=.
    apply loadDB_disk in E as (E1 & E2). done.
Qed.

Lemma redo_disk st st' :
  redo st = Some st' -> disk st' = disk st /\ readonly st' = readonly st.
Proof.
  unfold redo. intros H. destruct (redoStack st) as [|a R]; simplify_eq/=; [done|].
  destruct a as [new|old new|old|]; simpl in H.
  - destruct (insertDB _ _ _ _ _ _) as [st1|] eqn:E; simplify_eq/=.
    apply insertDB_disk in E as (E1 & E2 & _). done.
  - destruct (updateDB _ _ _ _ _ _) as [st1|] eqn:E; simplify_eq/=.
    apply updateDB_disk in E as (E1 & E2 & _). done.
  - destruct (deleteDB _ _ _ _) as [[fd st1]|] eqn:E; simplify_eq/=.
    apply deleteDB_disk in E as (E1 & E2 & _). done.
  - destruct (restoreDB _ _) as [st1|] eqn:E; simplify_eq/=.
    apply restoreDB_disk in E as (E1 & E2). done.
Qed.

Lemma perform_disk op st st' :
  perform op st = Some st' -> disk st' = disk st /\ readonly st' = readonly st.
Proof.
  destruct op; simpl; intros H.
  - by apply insertDB_disk in H as (? & ? & _).
  - by apply updateDB_disk in H as (? & ? & _).
  - destruct (deleteDB _ _ _ _) as [[fd st1]|] eqn:E; simplify_eq/=.
    by apply deleteDB_disk in E as (? & ? & _).
  - by apply loadDB_disk in H.
  - by apply openDB_disk in H.
  - by apply restoreDB_disk in H.
  - by apply undo_disk in H.
  - by apply redo_disk in H.
  - apply freeDB_env in H. by destruct H as (_ & _ & _ & _ & ? & ? & _).
Qed.

(** X12.  Only SAVE writes: whatever sequence of inserts, updates, deletes,
    loads, restores, undos and redos runs on a store, every file is afterwards
    what it was before. *)
Theorem only_save_writes_files (ops : list Operation) (st st' : CMS)
    (Hrun : run (perform <$> ops) st = Some st') :
  disk st' = disk st /\ readonly st' = readonly st.
Proof.
  revert st Hrun. induction ops as [|op ops IH]; intros st Hrun.
  - unfold run in Hrun. simpl in Hrun. by simplify_eq.
  - rewrite fmap_cons, run_cons in Hrun.
    destruct (perform op st) as [st1|] eqn:E; simplify_eq/=.
    apply perform_disk in E as [E1 E2]. apply IH in Hrun as [H1 H2].
    split; congruence.
Qed.

End Operations.

(** ** Saving *)

Section Saving.
Context {F : FloatOps}.

Lemma cstring_eqb_eq a b : cstring_eqb a b = true -> a = b.
Proof.
  revert b. induction a as [|x a IH]; intros [|y b] H; simplify_eq/=; [done|].
  apply andb_true_iff in H as [Hxy Hab]. unfold ascii_eqb in Hxy.
  apply Ascii.eqb_eq in Hxy. f_equal; [done|by apply IH].
Qed.

Lemma cstr_idemp s : cstr (cstr s) = cstr s.
Proof.
  induction s as [|ch s IH]; [done|]. simpl.
  destruct (ascii_eqb ch NUL) eqn:E; [done|]. simpl. by rewrite E, IH.
Qed.

Lemma nul_free_app s1 s2 : nul_free s1 -> nul_free s2 -> nul_free (s1 ++ s2).
Proof. apply cstr_app. Qed.

Lemma nul_free_take n s : nul_free s -> nul_free (take n s).
Proof.
  unfold nul_free. revert n. induction s as [|ch s IH]; intros [|n] H; simpl in *; try done.
  destruct (ascii_eqb ch NUL); [done|]. f_equal. apply IH. congruence.
Qed.

Lemma nul_free_fmt_d z : nul_free (fmt_d z).
Proof.
  unfold fmt_d. destruct (z <? 0) eqn:E.
  - apply Z.ltb_lt in E. apply nul_free_app; [reflexivity|].
    destruct (dec_digits_spec (S (Z.to_nat (Z.log2 (- z)))) (- z) [])
      as (ds & k & H1 & _ & _ & H4 & _); [|lia|].
    + split; [lia|]. pose proof (Z.log2_nonneg (- z)) as Hl.
      replace (Z.of_nat (S (Z.to_nat (Z.log2 (- z))))) with (Z.succ (Z.log2 (- z))) by lia.
      pose proof (Z.log2_spec (- z) ltac:(lia)) as [_ Hlt].
      eapply Z.lt_le_trans; [exact Hlt|]. apply Z.pow_le_mono_l. lia.
    + rewrite H1, app_nil_r. by apply cstr_one_line, plain_one_line.
  - apply Z.ltb_ge in E. destruct (plain_fmt_d z E) as [Hp _].
    fold (fmt_d z). unfold fmt_d in Hp. rewrite (proj2 (Z.ltb_ge z 0) E) in Hp.
    by apply cstr_one_line, plain_one_line.
Qed.

Lemma nul_free_serialise rs : Forall text_record rs -> nul_free (serialise rs).
Proof.
  intros Hrs. unfold serialise. apply nul_free_app; [reflexivity|].
  induction Hrs as [|r rs (Hn & Hp & Hm) _ IH]; [done|]. simpl.
  apply nul_free_app; [|done]. unfold record_line. apply nul_free_take.
  unfold line_text. repeat (apply nul_free_app; try done); try reflexivity.
  apply nul_free_fmt_d.
Qed.

Lemma storable_text_record r : storable r -> text_record r.
Proof.
  intros (_ & Hn & _ & Hp & _ & Hm & _).
  repeat split; by apply cstr_one_line, plain_one_line.
Qed.

Lemma serialise_cons rs : exists ch s, serialise rs = ch :: s.
Proof. by eexists _, _. Qed.

Lemma records_printf msg st : records (printf msg st) = records st.
Proof. done. Qed.

(** What [saveDB] does on a loaded store whose two files can be written. *)
Lemma saveDB_writable st rs :
  dbLoaded st = true -> records st = Some rs ->
  backup_path ∉ readonly st -> primary_path ∉ readonly st ->
  exists st1, saveDB st = Some st1 /\ records st1 = Some rs /\ dbLoaded st1 = true /\
    ((exists content, disk st !! primary_path = Some content /\ content <> [] /\
        cstr content = serialise rs /\
        st1 = printf (c "CMS: No changes detected. Nothing to save." ++ [LF]) st) \/
     (disk st1 !! primary_path = Some (cstr (serialise rs)) /\ dbModified st1 = false /\
      (forall content, disk st !! primary_path = Some content ->
         disk st1 !! backup_path = Some (cstr content)))).
Proof.
  intros Hld Hrec Hb Hp.
  destruct (disk st !! primary_path) as [content|] eqn:Hf.
  - destruct content as [|ch s].
    + unfold saveDB. unfold records in Hrec. rewrite Hld, Hf, Hrec.
      cbn [negb mbind option_bind]. cbv beta iota zeta.
      unfold fopen_w at 2. rewrite decide_False by done.
      unfold fopen_w. cbn [readonly set_disk]. rewrite decide_False by done.
      eexists. split; [done|]. split; [done|]. split; [done|]. right.
      cbn [disk printf set_dbModified fputs set_disk dbModified].
      split; [by rewrite lookup_insert_eq|]. split; [done|].
      intros content [= <-]. rewrite lookup_insert_ne by done.
      rewrite lookup_insert_ne by done. by rewrite lookup_insert_eq.
    + destruct (cstring_eqb (cstr (ch :: s)) (serialise rs)) eqn:Heq.
      * apply cstring_eqb_eq in Heq.
        rewrite (saveDB_unchanged st rs (ch :: s)) by done.
        eexists. split; [done|]. split; [done|]. split; [done|]. left.
        by exists (ch :: s).
      * destruct (saveDB_rewrites st rs (ch :: s)) as (st1 & Hrun & H1 & H2 & H3); try done.
        exists st1. split; [done|].
        assert (records st1 = Some rs /\ dbLoaded st1 = true) as [? ?].
        { revert Hrun. unfold saveDB. unfold records in Hrec. rewrite Hld, Hf, Hrec.
          cbn [negb mbind option_bind]. cbv beta iota zeta. rewrite Heq.
          unfold fopen_w at 2. rewrite decide_False by done.
          unfold fopen_w. cbn [readonly fputs set_disk]. rewrite decide_False by done.
          intros [= <-]. done. }
        split; [done|]. split; [done|]. right. split; [done|]. split; [done|].
        by intros content [= <-].
  - unfold saveDB. unfold records in Hrec. rewrite Hld, Hf, Hrec.
    cbn [negb mbind option_bind]. cbv beta iota zeta.
    unfold fopen_w at 2. rewrite decide_False by done.
    unfold fopen_w. cbn [readonly set_disk]. rewrite decide_False by done.
    eexists. split; [done|]. split; [done|]. split; [done|]. right.
    cbn [disk printf set_dbModified fputs set_disk dbModified].
    split; [by rewrite lookup_insert_eq|]. split; [done|]. done.
Qed.

(** X13.  SAVE is idempotent: on a loaded store whose files can be
    written, SAVE leaves a primary file that reads as the serialised records,
    and a second SAVE right after it reports that there is nothing to save
    and writes nothing. *)
Theorem save_twice_writes_once (st : CMS) (rs : list StudentRecord)
    (Hld : dbLoaded st = true) (Hrec : records st = Some rs)
    (Htext : Forall text_record rs)
    (Hb : backup_path ∉ readonly st) (Hp : primary_path ∉ readonly st) :
  exists st1, saveDB st = Some st1 /\
    (exists text, disk st1 !! primary_path = Some text /\ cstr text = serialise rs) /\
    saveDB st1 =
      Some (printf (c "CMS: No changes detected. Nothing to save." ++ [LF]) st1).
Proof.
  destruct (saveDB_writable st rs Hld Hrec Hb Hp) as (st1 & Hrun & Hrec1 & Hld1 & Hcase).
  pose proof (nul_free_serialise rs Htext) as Hnf.
  exists st1. split; [done|].
  destruct Hcase as [(content & Hf & Hne & Hc & ->)|(Hf & _)].
  - split; [by exists content|].
    by apply (saveDB_unchanged _ rs content).
  - rewrite Hnf in Hf. split; [by exists (serialise rs)|].
    by apply (saveDB_unchanged _ rs (serialise rs)).
Qed.

(** X14.  What SAVE writes, OPEN reads back: after SAVE on a loaded store
    of storable records (the primary file, if there is one, being a text
    without NUL), the primary file is the serialised form of the records, and
    OPEN in a new session on these files lists the same records in the same
    order. *)
Theorem saved_file_reads_back (st : CMS) (rs : list StudentRecord)
    (Hld : dbLoaded st = true) (Hrec : records st = Some rs)
    (Hrs : Forall storable rs)
    (Hfile : forall content, disk st !! primary_path = Some content -> nul_free content)
    (Hb : backup_path ∉ readonly st) (Hp : primary_path ∉ readonly st) :
  exists st1 st2, saveDB st = Some st1 /\
    disk st1 !! primary_path = Some (serialise rs) /\
    openDB (fresh_store (disk st1)) = Some st2 /\
    records st2 = Some rs /\ dbLoaded st2 = true.
Proof.
  destruct (saveDB_writable st rs Hld Hrec Hb Hp) as (st1 & Hrun & Hrec1 & Hld1 & Hcase).
  assert (Forall text_record rs) as Htext
    by (eapply Forall_impl; [exact Hrs|apply storable_text_record]).
  pose proof (nul_free_serialise rs Htext) as Hnf.
  assert (disk st1 !! primary_path = Some (serialise rs)) as Hf1.
  { destruct Hcase as [(content & Hf & Hne & Hc & ->)|(Hf & _)].
    - simpl. rewrite Hf. f_equal. rewrite <- Hc. symmetry. by apply Hfile.
    - by rewrite Hf, Hnf. }
  destruct (loadDB_linked primary_path (fresh_store (disk st1)) [] (serialise rs) rs)
    as (st2 & l & Hrun2 & (Hc & _) & Hl & _ & _ & Hld2 & _).
  - split; [done|]. split; [done|]. intros p _. apply lookup_empty.
  - done.
  - by apply parse_file_serialise.
  - by apply storable_valid_keys.
  - exists st1, st2. split; [done|]. split; [done|]. split; [exact Hrun2|].
    split; [|done]. by rewrite (records_chain st2 l Hc), Hl.
Qed.

(** X15.  SAVE when the primary file cannot be opened for writing: the
    backup has by then been overwritten with a copy of the primary file, the
    primary file and the modified flag stay as they were, and the user is told
    of the error. *)
Theorem failed_save_still_writes_backup (st : CMS) (rs : list StudentRecord)
    (content : cstring)
    (Hld : dbLoaded st = true) (Hrec : records st = Some rs)
    (Hf : disk st !! primary_path = Some content) (Hne : content <> [])
    (Hdiff : cstring_eqb (cstr content) (serialise rs) = false)
    (Hb : backup_path ∉ readonly st) (Hp : primary_path ∈ readonly st) :
  exists st1, saveDB st = Some st1 /\
    disk st1 !! backup_path = Some (cstr content) /\
    disk st1 !! primary_path = Some content /\
    dbModified st1 = dbModified st /\ records st1 = Some rs /\
    stdout st1 = stdout st ++ [c "CMS: Error saving the database file." ++ [LF]].
Proof.
  unfold saveDB. unfold records in *. rewrite Hld, Hf, Hrec.
  destruct content as [|ch s]; [done|].
  cbn [negb mbind option_bind]. cbv beta iota zeta. rewrite Hdiff.
  unfold fopen_w. rewrite (decide_False (P := backup_path ∈ readonly st)) by done.
  cbn [readonly fputs set_disk]. rewrite decide_True by done.
  eexists. split; [done|].
  cbn [disk printf fputs set_disk dbModified heap head stdout].
  split; [by rewrite lookup_insert_eq|]. split; [|done].
  rewrite lookup_insert_ne by done. by rewrite lookup_insert_ne.
Qed.

End Saving.

(** ** The input layer *)

Section Input.

(** Facts about single characters, by going through the 256 of them. *)
Ltac each_char ch :=
  destruct ch as [[] [] [] [] [] [] [] []]; vm_compute; try done; auto.

Lemma toupper_fixed ch :
  isspace ch = false ->
  isspace (toupper ch) = false /\ toupper (toupper ch) = toupper ch.
Proof. each_char ch. Qed.

Lemma tolower_fixed ch :
  isspace ch = false ->
  isspace (tolower ch) = false /\ tolower (tolower ch) = tolower ch.
Proof. each_char ch. Qed.

Lemma toTitleCase_loop_idemp b s :
  toTitleCase_loop b (toTitleCase_loop b s) = toTitleCase_loop b s.
Proof.
  revert b. induction s as [|ch s IH]; intros b; [done|]. simpl.
  destruct (isspace ch) eqn:E.
  - simpl. by rewrite E, IH.
  - destruct b; simpl.
    + destruct (toupper_fixed ch E) as [-> ->]. by rewrite IH.
    + destruct (tolower_fixed ch E) as [-> ->]. by rewrite IH.
Qed.

Lemma toTitleCase_loop_length b s : length (toTitleCase_loop b s) = length s.
Proof.
  revert b. induction s as [|ch s IH]; intros b; [done|]. simpl.
  destruct (isspace ch); [|destruct b]; simpl; by rewrite IH.
Qed.

(** X16.  [toTitleCase] keeps the length of the text and is idempotent: a
    text in title case is left as it is. *)
Theorem toTitleCase_idempotent (s : cstring) :
  toTitleCase (toTitleCase s) = toTitleCase s /\
  length (toTitleCase s) = length s.
Proof.
  split; [apply toTitleCase_loop_idemp|apply toTitleCase_loop_length].
Qed.

(** *** Identifiers *)

Lemma isdigit_val ch : isdigit ch = true -> 0 <= digit_val ch <= 9.
Proof. unfold isdigit, digit_val. lia. Qed.

Lemma validateID_atoi (s : cstring) :
  validateID s = true ->
  exists i, atoi s = Some i /\ 2000000 <= i <= 2999999 /\ in_table (hash i) = true.
Proof.
  intros Hs. unfold validateID in Hs.
  apply andb_true_iff in Hs as [Hs Hdig]. apply andb_true_iff in Hs as [Hlen Hfirst].
  destruct s as [|c1 [|c2 [|c3 [|c4 [|c5 [|c6 [|c7 [|c8 s]]]]]]]]; try done.
  unfold ascii_eqb in Hfirst. apply Ascii.eqb_eq in Hfirst. subst c1.
  simpl in Hdig.
  repeat (apply andb_true_iff in Hdig as [? Hdig]).
  pose proof (isdigit_val c2 ltac:(done)). pose proof (isdigit_val c3 ltac:(done)).
  pose proof (isdigit_val c4 ltac:(done)). pose proof (isdigit_val c5 ltac:(done)).
  pose proof (isdigit_val c6 ltac:(done)). pose proof (isdigit_val c7 ltac:(done)).
  set (i := 2000000 + 100000 * digit_val c2 + 10000 * digit_val c3 + 1000 * digit_val c4
            + 100 * digit_val c5 + 10 * digit_val c6 + digit_val c7).
  assert (atoi ("2"%char :: [c2; c3; c4; c5; c6; c7]) = Some i) as Hatoi.
  { unfold atoi.
    change (skip_spaces ("2"%char :: [c2; c3; c4; c5; c6; c7]))
      with ("2"%char :: [c2; c3; c4; c5; c6; c7]).
    cbv beta iota zeta. change (ascii_eqb "2"%char "-"%char) with false.
    change (ascii_eqb "2"%char "+"%char) with false. cbv iota.
    assert (digits_acc 0 ("2"%char :: [c2; c3; c4; c5; c6; c7]) = i) as ->.
    { cbn [digits_acc]. change (isdigit "2"%char) with true. cbv iota.
      change (digit_val "2"%char) with 2.
      repeat match goal with H : isdigit _ = true |- _ => rewrite H; clear H end.
      subst i. lia. }
    unfold in_int, INT_MIN, INT_MAX. subst i.
    replace (_ && _) with true by lia. done. }
  exists i. split; [done|]. split; [subst i; lia|].
  apply in_table_hash. subst i. lia.
Qed.

(** X17.  An id that passes [validateID] is read by [atoi] as a number
    from 2000000 to 2999999; its bucket lies inside the hash table. *)
Theorem valid_id_range (s : cstring) (Hs : validateID s = true) :
  exists i, atoi s = Some i /\ 2000000 <= i <= 2999999 /\ in_table (hash i) = true.
Proof. by apply validateID_atoi. Qed.

(** X18.  [hash] stays inside the table exactly for the ids that are not
    negative or are a multiple of the table size; for every other id
    [findNode] and [hashRemove] index the table out of bounds. *)
Theorem hash_index_bounds {F : FloatOps} (i : Z) (st : CMS) :
  (in_table (hash i) = true <-> 0 <= i \/ Z.rem i TABLE_SIZE = 0) /\
  (in_table (hash i) = false -> findNode i st = None /\ hashRemove i st = None).
Proof.
  split.
  - unfold in_table, hash, TABLE_SIZE. split.
    + intros H. destruct (decide (0 <= i)) as [|Hneg]; [by left|right].
      pose proof (Z.rem_opp_l i 2003 ltac:(lia)).
      pose proof (Z.rem_bound_pos (- i) 2003 ltac:(lia) ltac:(lia)). lia.
    + intros [Hi|Hi].
      * pose proof (Z.rem_bound_pos i 2003 ltac:(lia) ltac:(lia)). lia.
      * rewrite Hi. done.
  - intros H. unfold findNode, hashRemove, bucket. unfold in_table in H.
    by rewrite H.
Qed.

(** *** Marks *)

Lemma digit_not_point ch :
  isdigit ch = true ->
  is_point ch = false /\ ascii_eqb ch "+"%char = false /\ ascii_eqb ch "-"%char = false.
Proof. each_char ch. Qed.

Lemma point_not_sign ch :
  is_point ch = true ->
  ascii_eqb ch "+"%char = false /\ ascii_eqb ch "-"%char = false.
Proof. each_char ch. Qed.

Lemma validateMark_loop_spec d f body :
  (d <= 1)%nat ->
  validateMark_loop d f body = true <->
    Forall (fun ch => isdigit ch = true \/ is_point ch = true) body /\
    (d + length (List.filter is_point body) <= 1)%nat /\
    (f = true \/ Exists (fun ch => isdigit ch = true) body).
Proof.
  revert d f. induction body as [|ch body IH]; intros d f Hd; simpl.
  - split.
    + intros ->. split; [constructor|]. split; [lia|by left].
    + intros (_ & _ & [->|H]); [done|]. by apply Exists_nil in H.
  - destruct (isdigit ch) eqn:Edig.
    + destruct (digit_not_point ch Edig) as (Ept & _). rewrite Ept.
      rewrite (IH d true Hd). split.
      * intros (H1 & H2 & _). split; [constructor; [by left|done]|].
        split; [done|]. right. by constructor.
      * intros (H1 & H2 & _). apply Forall_cons in H1 as [_ H1]. split; [done|].
        split; [done|by left].
    + fold (is_point ch). destruct (is_point ch) eqn:Ept.
      * destruct d as [|d].
        -- simpl. rewrite (IH 1%nat f ltac:(lia)). split.
           ++ intros (H1 & H2 & H3). split; [constructor; [by right|done]|].
              split; [simpl in *; lia|]. destruct H3 as [H3|H3]; [by left|right].
              by apply Exists_cons_tl.
           ++ intros (H1 & H2 & H3). apply Forall_cons in H1 as [_ H1].
              split; [done|]. split; [simpl in *; lia|].
              destruct H3 as [H3|H3]; [by left|right].
              apply Exists_cons in H3 as [H3|H3]; [congruence|done].
        -- replace (1 <? S (S d))%nat with true by (symmetry; apply Nat.ltb_lt; lia).
           split; [done|]. intros (_ & H2 & _). simpl in H2. lia.
      * split; [done|]. intros (H1 & _). apply Forall_cons in H1 as [[H1|H1] _]; congruence.
Qed.

(** X19.  [validateMark] accepts the empty text and otherwise exactly the
    texts made of an optional sign followed by digits with at most one point
    among them, one digit at least. *)
Theorem validateMark_syntax (s : cstring) :
  validateMark s = true <-> s = [] \/ mark_syntax s.
Proof.
  unfold validateMark, mark_syntax, mark_body. split.
  - destruct s as [|ch s]; [by left|]. intros H. right.
    destruct (ascii_eqb ch "+"%char || ascii_eqb ch "-"%char) eqn:Esign.
    + right. exists s. apply validateMark_loop_spec in H; [|lia].
      destruct H as (H1 & H2 & [H3|H3]); [done|]. split; [|done].
      apply orb_true_iff in Esign as [E|E]; unfold ascii_eqb in E;
        apply Ascii.eqb_eq in E; subst ch; auto.
    + left. apply validateMark_loop_spec in H; [|lia].
      by destruct H as (H1 & H2 & [H3|H3]).
  - intros [->|[(H1 & H2 & H3)|(body & Hs & H1 & H2 & H3)]]; [done| |].
    + destruct s as [|ch s]; [by apply Exists_nil in H3|].
      assert (ascii_eqb ch "+"%char || ascii_eqb ch "-"%char = false) as ->.
      { pose proof H1 as H1'. apply Forall_cons in H1' as [[Hd|Hp] _].
        - destruct (digit_not_point ch Hd) as (_ & -> & ->). done.
        - destruct (point_not_sign ch Hp) as (-> & ->). done. }
      apply validateMark_loop_spec; [lia|]. split; [done|]. split; [done|by right].
    + destruct Hs as [-> | ->]; simpl;
        (apply validateMark_loop_spec; [lia|]); (split; [done|]); (split; [done|by right]).
Qed.

(** *** Command words *)

Lemma space_tolower k x :
  isspace x = true -> ascii_eqb (tolower k) (tolower x) = true -> isspace k = true.
Proof.
  intros Hx Hk. unfold ascii_eqb in Hk. apply Ascii.eqb_eq in Hk.
  assert (tolower x = x) as Hfix by (revert Hx; each_char x).
  rewrite Hfix in Hk. subst x. revert Hx. each_char k.
Qed.

Lemma prefix_nocase_longer c1 c2 s :
  prefix_nocase c1 s = true -> prefix_nocase c2 s = true ->
  (length c1 < length c2)%nat -> word c2 ->
  exists ch rest, drop (length c1) s = ch :: rest /\ isspace ch = false.
Proof.
  revert c2 s. induction c1 as [|a c1 IH]; intros [|k c2] [|x s] H1 H2 Hlen Hw;
    simpl in *; try done; try lia.
  - apply andb_true_iff in H2 as [Hk _]. apply Forall_cons in Hw as [Hk' _].
    exists x, s. split; [done|]. destruct (isspace x) eqn:Ex; [|done].
    by rewrite (space_tolower k x Ex Hk) in Hk'.
  - apply andb_true_iff in H1 as [_ H1]. apply andb_true_iff in H2 as [_ H2].
    apply Forall_cons in Hw as [_ Hw]. apply (IH c2 s); [done|done|lia|done].
Qed.

Lemma prefix_nocase_same c1 c2 s :
  prefix_nocase c1 s = true -> prefix_nocase c2 s = true ->
  length c1 = length c2 -> same_nocase c1 c2.
Proof.
  unfold same_nocase.
  revert c2 s. induction c1 as [|a c1 IH]; intros [|k c2] [|x s] H1 H2 Hlen;
    simpl in *; try done.
  apply andb_true_iff in H1 as [Ha H1]. apply andb_true_iff in H2 as [Hk H2].
  unfold ascii_eqb in Ha, Hk. apply Ascii.eqb_eq in Ha, Hk.
  f_equal; [congruence|]. apply (IH c2 s); [done|done|lia].
Qed.

Lemma validateCommand_inv input cmd rest :
  validateCommand input cmd = Some rest ->
  prefix_nocase cmd (skip_spaces input) = true /\
  (drop (length cmd) (skip_spaces input) = [] \/
   exists ch tl, drop (length cmd) (skip_spaces input) = ch :: tl /\ isspace ch = true) /\
  rest = skip_spaces (drop (length cmd) (skip_spaces input)).
Proof.
  unfold validateCommand. intros H.
  destruct (prefix_nocase cmd (skip_spaces input)); [|done]. split; [done|].
  destruct (drop (length cmd) (skip_spaces input)) as [|ch tl] eqn:E.
  - simplify_eq. split; [by left|done].
  - destruct (isspace ch) eqn:Ech; [|done]. simplify_eq. split; [|done].
    right. by exists ch, tl.
Qed.

Lemma skip_spaces_idemp s : skip_spaces (skip_spaces s) = skip_spaces s.
Proof.
  induction s as [|ch s IH]; [done|]. simpl.
  destruct (isspace ch) eqn:E; [done|]. simpl. by rewrite E.
Qed.

Lemma validateCommand_words (input c1 c2 r1 r2 : cstring) :
  validateCommand input c1 = Some r1 -> validateCommand input c2 = Some r2 ->
  word c1 -> word c2 ->
  same_nocase c1 c2 /\ r1 = r2 /\ skip_spaces r1 = r1.
Proof.
  intros H1 H2 Hw1 Hw2.
  apply validateCommand_inv in H1 as (P1 & D1 & ->).
  apply validateCommand_inv in H2 as (P2 & D2 & ->).
  assert (length c1 = length c2) as Hlen.
  { destruct (Nat.lt_trichotomy (length c1) (length c2)) as [Hlt|[Heq|Hgt]]; [|done|].
    - destruct (prefix_nocase_longer c1 c2 _ P1 P2 Hlt Hw2) as (ch & rest & E & Hch).
      destruct D1 as [D1|(ch' & tl & D1 & Hsp)]; rewrite E in D1; [done|].
      simplify_eq. congruence.
    - destruct (prefix_nocase_longer c2 c1 _ P2 P1 Hgt Hw1) as (ch & rest & E & Hch).
      destruct D2 as [D2|(ch' & tl & D2 & Hsp)]; rewrite E in D2; [done|].
      simplify_eq. congruence. }
  split; [by eapply prefix_nocase_same|]. rewrite Hlen. split; [done|].
  apply skip_spaces_idemp.
Qed.

(** X20.  No input line is taken for two different commands: when
    [validateCommand] accepts a line for two command words, the words are the
    same up to letter case, and the arguments handed on are the same; they
    never start with white space. *)
Theorem validateCommand_unambiguous (input c1 c2 r1 r2 : cstring)
    (H1 : validateCommand input c1 = Some r1) (H2 : validateCommand input c2 = Some r2)
    (Hw1 : word c1) (Hw2 : word c2) :
  same_nocase c1 c2 /\ r1 = r2 /\ skip_spaces r1 = r1.
Proof. by apply (validateCommand_words input). Qed.

Lemma other_command (input c1 c2 r1 : cstring) :
  validateCommand input c1 = Some r1 -> word c1 -> word c2 -> ~ same_nocase c1 c2 ->
  validateCommand input c2 = None.
Proof.
  intros H1 Hw1 Hw2 Hne. destruct (validateCommand input c2) as [r2|] eqn:H2; [|done].
  by destruct (validateCommand_words input c1 c2 r1 r2 H1 H2 Hw1 Hw2) as (? & _).
Qed.

End Input.

(** *** Parsed commands *)

Section Parsing.
Context {F : FloatOps}.

Lemma store_field_rejects k len value bufs acc r :
  store_field k len value bufs acc = inl r -> exists m, r = Rejected m.
Proof.
  unfold store_field, reject. intros H.
  repeat (case_match; simplify_eq/=); eauto.
Qed.

Lemma store_field_ok mode k len value bufs acc acc' :
  store_field k len value bufs acc = inr acc' ->
  fields_ok mode acc -> (mode = OPTIONAL_NONE -> k = 0%nat) ->
  (length value <= len)%nat ->
  fields_ok mode acc' /\
  (p_optionalProvided acc = true -> p_optionalProvided acc' = true) /\
  p_found acc' = p_found acc.
Proof.
  intros H (Hid & Hn & Htn & Hp & Htp & Hm & Hnone) Hmode Hlen.
  destruct k as [|[|[|k]]]; unfold store_field in H.
  - destruct (len =? 0)%nat; [done|]. destruct (validateID value) eqn:Hv; [|done].
    cbn [negb] in H. destruct (validateID_atoi value Hv) as (i & Hatoi & Hi & _).
    rewrite Hatoi in H. simplify_eq/=. split; [|done]. unfold fields_ok. simpl.
    split; [by right|]. repeat (split; [done|]). done.
  - destruct bufs; [|done]. cbn [negb] in H. destruct (0 <? len)%nat; [|by simplify_eq].
    destruct (MAX_NAME <=? len)%nat eqn:Hl; [done|]. simplify_eq.
    split; [|done]. unfold fields_ok. simpl.
    split; [done|]. split.
    { unfold toTitleCase. rewrite toTitleCase_loop_length, length_take.
      unfold MAX_NAME. lia. }
    split; [apply toTitleCase_loop_idemp|].
    split; [done|]. split; [done|]. split; [done|].
    intros Hmd. by specialize (Hmode Hmd).
  - destruct bufs; [|done]. cbn [negb] in H. destruct (0 <? len)%nat; [|by simplify_eq].
    destruct (MAX_PROGRAMME <=? len)%nat eqn:Hl; [done|]. simplify_eq.
    split; [|done]. unfold fields_ok. simpl.
    split; [done|]. split; [done|]. split; [done|]. split.
    { unfold toTitleCase. rewrite toTitleCase_loop_length, length_take.
      unfold MAX_PROGRAMME. lia. }
    split; [apply toTitleCase_loop_idemp|]. split; [done|].
    intros Hmd. by specialize (Hmode Hmd).
  - destruct bufs; [|done]. cbn [negb] in H. destruct (0 <? len)%nat; [|by simplify_eq].
    destruct (validateMark value); [|done]. cbn [negb] in H. cbv zeta in H.
    destruct (f_lt (atof value) f_zero || f_lt f_hundred (atof value)) eqn:Hr; [done|].
    simplify_eq. apply orb_false_iff in Hr as [Hr1 Hr2].
    split; [|done]. unfold fields_ok. simpl.
    repeat (split; [done|]). split; [by right|].
    intros Hmd. by specialize (Hmode Hmd).
Qed.

Lemma parseCommand_loop_ok fuel ptr bufs mode acc v :
  parseCommand_loop fuel ptr bufs mode acc = Accepted v ->
  fields_ok mode acc ->
  fields_ok mode v /\ (p_optionalProvided acc = true -> p_optionalProvided v = true).
Proof.
  revert ptr acc. induction fuel as [|fuel IH]; intros [|ch ptr] acc H Hok;
    simpl in H; try (by simplify_eq).
  destruct (field_at (ch :: ptr)) as [k|] eqn:Hk; [|done].
  destruct (nth k (p_found acc) false); [done|].
  destruct (skip_spaces (drop (length (key_name k)) (ch :: ptr))) as [|e rest] eqn:Hsk; [done|].
  destruct (negb (ascii_eqb e "="%char)); [done|].
  destruct (_ <? _)%nat; [done|].
  destruct (scan_value (skip_spaces rest)) as [raw ptr'] eqn:Hscan.
  destruct ((mode =? OPTIONAL_NONE) && negb (k =? 0)%nat) eqn:Hmode; [done|].
  destruct (store_field _ _ _ _ _) as [r|acc2] eqn:Hstore.
  { apply store_field_rejects in Hstore as (m & ->). done. }
  apply store_field_ok with (mode := mode) in Hstore as (Hok2 & Hprov & _).
  - destruct (IH _ _ H Hok2) as [Hv Hpv]. split; [done|]. intros Hp. apply Hpv.
    by apply Hprov.
  - done.
  - intros ->. apply andb_false_iff in Hmode as [Hm|Hm]; [done|].
    apply negb_false_iff, Nat.eqb_eq in Hm. done.
  - rewrite length_take. lia.
Qed.

Lemma parseCommand_id_valid (input : cstring) (bufs : bool) (mode : Z) (v : Parsed) :
  parseCommand input bufs mode = Accepted v -> 2000000 <= p_id v <= 2999999.
Proof.
  unfold parseCommand. intros H.
  destruct (parseCommand_loop _ _ _ _ _) as [acc|m] eqn:Hloop; [|done].
  apply parseCommand_loop_ok in Hloop as [(Hid & _) _].
  2:{ unfold fields_ok. simpl. unfold MAX_NAME, MAX_PROGRAMME.
      repeat split; try done; try lia; by left. }
  destruct (p_id acc =? -1) eqn:Eid; [done|]. apply Z.eqb_neq in Eid.
  destruct ((mode =? OPTIONAL_REQUIRED) && negb (p_optionalProvided acc)); [done|].
  simplify_eq. by destruct Hid.
Qed.

(** X21.  What [parseCommand] accepts is safe to hand on: the id is a
    number from 2000000 to 2999999, name and programme fit the 100-byte
    fields of a record and are in title case, the mark is the initial 0.0 or
    lies from 0 to 100; in the mode of QUERY and DELETE nothing but the id is
    set, and in the mode of UPDATE at least one value besides the id was
    given. *)
Theorem parseCommand_accepts_valid_fields (input : cstring) (bufs : bool)
    (mode : Z) (v : Parsed)
    (H : parseCommand input bufs mode = Accepted v) :
  2000000 <= p_id v <= 2999999 /\
  (length (p_name v) < MAX_NAME)%nat /\ toTitleCase (p_name v) = p_name v /\
  (length (p_programme v) < MAX_PROGRAMME)%nat /\
  toTitleCase (p_programme v) = p_programme v /\
  (p_mark v = f_zero \/ mark_in_range (p_mark v)) /\
  (mode = OPTIONAL_NONE ->
     p_name v = [] /\ p_programme v = [] /\ p_mark v = f_zero) /\
  (mode = OPTIONAL_REQUIRED -> p_optionalProvided v = true).
Proof.
  unfold parseCommand in H.
  destruct (parseCommand_loop _ _ _ _ _) as [acc|m] eqn:Hloop; [|done].
  apply parseCommand_loop_ok in Hloop as [(Hid & Hn & Htn & Hp & Htp & Hm & Hnone) _].
  2:{ unfold fields_ok. simpl. unfold MAX_NAME, MAX_PROGRAMME.
      repeat split; try done; try lia; by left. }
  destruct (p_id acc =? -1) eqn:Eid; [done|]. apply Z.eqb_neq in Eid.
  destruct ((mode =? OPTIONAL_REQUIRED) && negb (p_optionalProvided acc)) eqn:Ereq; [done|].
  simplify_eq. split; [by destruct Hid|]. repeat (split; [done|]).
  split.
  - intros Hmd. destruct (Hnone Hmd) as (? & ? & ? & _). done.
  - intros ->. simpl in Ereq. by apply negb_false_iff in Ereq.
Qed.

End Parsing.

(** ** Stores made by OPEN *)

Section Opening.
Context {F : FloatOps}.

(** OPEN on a fresh store whose primary file is the serialised form of
    storable records with pairwise different buckets. *)
Lemma fresh_load_holds rs :
  Forall storable rs -> NoDup (buckets rs) ->
  exists st, loadDB primary_path (fresh_store {[ primary_path := serialise rs ]}) = Some st /\
    holds st rs /\ dbLoaded st = true /\ disk st = {[ primary_path := serialise rs ]} /\
    undoStack st = [] /\ redoStack st = [] /\ readonly st = ∅.
Proof.
  intros Hrs Hnd.
  destruct (loadDB_holds primary_path (fresh_store {[ primary_path := serialise rs ]})
              [] (serialise rs) rs) as (st & Hrun & Hh & Hld & _ & Hu & Hr).
  - split; [done|]. split; [done|]. intros p _. apply lookup_empty.
  - apply lookup_singleton_eq.
  - by apply parse_file_serialise.
  - eapply Forall_impl; [exact Hrs|]. intros r (Hid & _). simpl. lia.
  - done.
  - exists st. split; [done|]. split; [done|]. split; [done|].
    destruct (loadDB_disk _ _ _ Hrun) as [Hd Hro]. done.
Qed.

End Opening.

(** ** Summary statistics *)

Section Summary.
Context {F : FloatOps} {G : FloatSummary F}.

Lemma lt_irrefl (Hord : StrictWeakOrder f_lt) a : f_lt a a = false.
Proof.
  destruct (f_lt a a) eqn:E; [|done]. by rewrite (lt_asym _ Hord a a E) in E.
Qed.

Lemma lt_trans (Hord : StrictWeakOrder f_lt) a b c :
  f_lt a b = true -> f_lt b c = true -> f_lt a c = true.
Proof.
  intros Hab Hbc. destruct (f_lt a c) eqn:E; [done|].
  pose proof (lt_asym _ Hord b c Hbc) as Hcb.
  pose proof (lt_neg_trans _ Hord a c b E Hcb). congruence.
Qed.

Lemma summary_fold_None filter rs : foldl (summary_step filter) None rs = None.
Proof. induction rs as [|r rs IH]; [done|]. simpl. apply IH. Qed.

Lemma summary_fold (Hord : StrictWeakOrder f_lt) filter rs s0 :
  total s0 + Z.of_nat (length (List.filter (in_summary filter) rs)) <= INT_MAX ->
  exists s, foldl (summary_step filter) (Some s0) rs = Some s /\
    total s = total s0 + Z.of_nat (length (List.filter (in_summary filter) rs)) /\
    sum s = foldl f_add (sum s0) (mark <$> List.filter (in_summary filter) rs) /\
    f_lt (maxMark s) (maxMark s0) = false /\ f_lt (minMark s0) (minMark s) = false /\
    (forall r, r ∈ List.filter (in_summary filter) rs ->
       f_lt (maxMark s) (mark r) = false /\ f_lt (mark r) (minMark s) = false) /\
    (maxMark s = maxMark s0 \/
     exists r, r ∈ List.filter (in_summary filter) rs /\ maxMark s = mark r) /\
    (minMark s = minMark s0 \/
     exists r, r ∈ List.filter (in_summary filter) rs /\ minMark s = mark r).
Proof.
  revert s0. induction rs as [|r rs IH]; intros s0 Hlen.
  { exists s0. simpl. split; [done|]. split; [lia|]. split; [done|].
    split; [by apply lt_irrefl|]. split; [by apply lt_irrefl|].
    split; [intros r Hr; by apply elem_of_nil in Hr|]. split; by left. }
  cbn [foldl]. unfold summary_step at 2. cbn [mbind option_bind].
  cbn [List.filter] in *.
  destruct (in_summary filter r) eqn:Hin.
  - cbn [length] in Hlen. replace (total s0 <? INT_MAX) with true by lia.
    set (s1 := mkStats (total s0 + 1) (f_add (sum s0) (mark r))
                 (if f_lt (maxMark s0) (mark r) then mark r else maxMark s0)
                 (if f_lt (mark r) (minMark s0) then mark r else minMark s0)).
    destruct (IH s1) as (s & Hrun & Ht & Hs & Hmax & Hmin & Hall & Hmx & Hmn).
    { simpl. lia. }
    exists s. split; [done|]. simpl in *. split; [lia|]. split; [done|].
    assert (f_lt (maxMark s1) (maxMark s0) = false /\ f_lt (maxMark s1) (mark r) = false)
      as [Hm0 Hmr].
    { subst s1. simpl. destruct (f_lt (maxMark s0) (mark r)) eqn:E.
      - split; [by apply (lt_asym _ Hord)|by apply lt_irrefl].
      - split; [by apply lt_irrefl|done]. }
    assert (f_lt (minMark s0) (minMark s1) = false /\ f_lt (mark r) (minMark s1) = false)
      as [Hn0 Hnr].
    { subst s1. simpl. destruct (f_lt (mark r) (minMark s0)) eqn:E.
      - split; [by apply (lt_asym _ Hord)|by apply lt_irrefl].
      - split; [by apply lt_irrefl|done]. }
    split; [by apply (lt_neg_trans _ Hord _ (maxMark s1))|].
    split; [by apply (lt_neg_trans _ Hord _ (minMark s1))|].
    split.
    { intros x [->|Hx]%elem_of_cons; [|by apply Hall]. split.
      - by apply (lt_neg_trans _ Hord _ (maxMark s1)).
      - by apply (lt_neg_trans _ Hord _ (minMark s1)). }
    split.
    + destruct Hmx as [Hmx|(x & Hx & Hmx)].
      * rewrite Hmx. subst s1. simpl. destruct (f_lt (maxMark s0) (mark r)); [|by left].
        right. exists r. split; [apply list_elem_of_here|done].
      * right. exists x. split; [by apply list_elem_of_further|done].
    + destruct Hmn as [Hmn|(x & Hx & Hmn)].
      * rewrite Hmn. subst s1. simpl. destruct (f_lt (mark r) (minMark s0)); [|by left].
        right. exists r. split; [apply list_elem_of_here|done].
      * right. exists x. split; [by apply list_elem_of_further|done].
  - by apply IH.
Qed.

Lemma filter_length_le {A} (f : A -> bool) (l : list A) :
  (length (List.filter f l) <= length l)%nat.
Proof. induction l as [|x l IH]; [done|]. simpl. destruct (f x); simpl; lia. Qed.

(** X22.  The first loop of [showSummary] counts the records that pass the
    programme filter, adds up their marks, and leaves in [maxMark] and
    [minMark] values that no such mark exceeds or falls below; when these
    marks lie above -1 (below 101) the highest (lowest) is the mark of one of
    the records counted. *)
Theorem summary_statistics (filter : option cstring) (rs : list StudentRecord)
    (Hord : StrictWeakOrder f_lt) (Hlen : Z.of_nat (length rs) <= INT_MAX) :
  exists s, summary_stats filter rs = Some s /\
    total s = Z.of_nat (length (List.filter (in_summary filter) rs)) /\
    sum s = foldl f_add f_zero (mark <$> List.filter (in_summary filter) rs) /\
    (forall r, r ∈ List.filter (in_summary filter) rs ->
       f_lt (maxMark s) (mark r) = false /\ f_lt (mark r) (minMark s) = false) /\
    (List.filter (in_summary filter) rs <> [] ->
     (forall r, r ∈ List.filter (in_summary filter) rs -> f_lt f_neg_one (mark r) = true) ->
     exists r, r ∈ List.filter (in_summary filter) rs /\ maxMark s = mark r) /\
    (List.filter (in_summary filter) rs <> [] ->
     (forall r, r ∈ List.filter (in_summary filter) rs -> f_lt (mark r) f_101 = true) ->
     exists r, r ∈ List.filter (in_summary filter) rs /\ minMark s = mark r).
Proof.
  destruct (summary_fold Hord filter rs (mkStats 0 f_zero f_neg_one f_101))
    as (s & Hrun & Ht & Hs & _ & _ & Hall & Hmx & Hmn).
  { simpl. pose proof (filter_length_le (in_summary filter) rs). lia. }
  exists s. split; [done|]. simpl in *. split; [lia|]. split; [done|]. split; [done|].
  split.
  - intros Hne Habove. destruct Hmx as [Hmx|Hmx]; [|done].
    destruct (List.filter (in_summary filter) rs) as [|r M] eqn:EM; [done|].
    assert (r ∈ r :: M) as Hr by apply list_elem_of_here.
    destruct (Hall r Hr) as [H1 _]. rewrite Hmx in H1.
    rewrite (Habove r Hr) in H1. done.
  - intros Hne Hbelow. destruct Hmn as [Hmn|Hmn]; [|done].
    destruct (List.filter (in_summary filter) rs) as [|r M] eqn:EM; [done|].
    assert (r ∈ r :: M) as Hr by apply list_elem_of_here.
    destruct (Hall r Hr) as [_ H1]. rewrite Hmn in H1.
    rewrite (Hbelow r Hr) in H1. done.
Qed.

End Summary.

(** ** The command loop *)

Section Loop.
Context {F : FloatOps} {G : FloatSummary F}.

Lemma prints_app a b st : prints (a ++ b) st = prints b (prints a st).
Proof. unfold prints. apply foldl_app. Qed.

Lemma prints_only_refl st : prints_only st st.
Proof. by exists []. Qed.

Lemma prints_only_printf text st : prints_only st (printf text st).
Proof. by exists [text]. Qed.

Lemma prints_only_prints texts st : prints_only st (prints texts st).
Proof. by exists texts. Qed.

Lemma prints_only_trans st1 st2 st3 :
  prints_only st1 st2 -> prints_only st2 st3 -> prints_only st1 st3.
Proof. intros [a ->] [b ->]. exists (a ++ b). by rewrite prints_app. Qed.

Lemma prints_same texts st :
  heap (prints texts st) = heap st /\ brk (prints texts st) = brk st /\
  head (prints texts st) = head st /\ tail (prints texts st) = tail st /\
  hashTable (prints texts st) = hashTable st /\
  dbModified (prints texts st) = dbModified st /\ dbLoaded (prints texts st) = dbLoaded st /\
  undoStack (prints texts st) = undoStack st /\ redoStack (prints texts st) = redoStack st /\
  disk (prints texts st) = disk st /\ readonly (prints texts st) = readonly st /\
  stdout (prints texts st) = stdout st ++ texts.
Proof.
  revert st. induction texts as [|t texts IH]; intros st.
  { simpl. by rewrite app_nil_r. }
  change (prints (t :: texts) st) with (prints texts (printf t st)).
  destruct (IH (printf t st)) as (a1 & a2 & a3 & a4 & a5 & a6 & a7 & a8 & a9 & a10 & a11 & a12).
  rewrite a1, a2, a3, a4, a5, a6, a7, a8, a9, a10, a11, a12. simpl.
  by rewrite <- app_assoc.
Qed.

Lemma handleShow_prints input st st' : handleShow input st = Some st' -> prints_only st st'.
Proof.
  unfold handleShow. intros H. destruct (show_request input).
  - unfold showDB in H. destruct (walk _ _ _); cbn [mbind option_bind] in H; [|done].
    apply (inj Some) in H; rewrite <- H. apply prints_only_prints.
  - unfold showDBSorted_out in H. destruct (head st).
    + destruct (showDBSorted _ _ _); cbn [mbind option_bind] in H; [|done].
      apply (inj Some) in H; rewrite <- H. apply prints_only_prints.
    + apply (inj Some) in H; rewrite <- H. apply prints_only_printf.
  - unfold showSummary in H. destruct (head st).
    + destruct (walk _ _ _); cbn [mbind option_bind] in H; [|done].
      destruct (summary_stats _ _); cbn [mbind option_bind] in H; [|done].
      destruct (total _ =? 0); apply (inj Some) in H; rewrite <- H;
        [apply prints_only_printf|apply prints_only_prints].
    + apply (inj Some) in H; rewrite <- H. apply prints_only_printf.
  - apply (inj Some) in H; rewrite <- H. apply prints_only_printf.
Qed.

Lemma queryDB_prints i st st' : queryDB i st = Some st' -> prints_only st st'.
Proof.
  unfold queryDB. intros H.
  destruct (findNode i st) as [[p|]|]; cbn [mbind option_bind] in H; [| |done].
  - destruct (heap st !! p); cbn [mbind option_bind] in H; [|done].
    apply (inj Some) in H; rewrite <- H.
    eapply prints_only_trans; [apply prints_only_printf|apply prints_only_prints].
  - apply (inj Some) in H; rewrite <- H. apply prints_only_printf.
Qed.

Lemma print_rejection_prints m st : prints_only st (print_rejection m st).
Proof. destruct m; [apply prints_only_printf|apply prints_only_refl]. Qed.

(** The command words of [main]. *)
Lemma command_word (w : string) :
  forallb (fun ch => negb (isspace ch)) (c w) = true -> word (c w).
Proof.
  unfold word. intros H. apply Forall_forall. intros ch Hch.
  rewrite forallb_forall in H. apply negb_true_iff, H. by apply list_elem_of_In.
Qed.

Ltac other_word H :=
  rewrite (other_command _ _ _ _ H) by
    (try (apply command_word; reflexivity); intros Hsame; vm_compute in Hsame; discriminate).

Lemma holds_prints texts st S : holds st S -> holds (prints texts st) S.
Proof.
  intros (l & Hex & Hl). exists l. split; [|done].
  destruct (prints_same texts st) as (a1 & a2 & a3 & a4 & a5 & _).
  by eapply exact_index_store; [..|exact Hex].
Qed.

Lemma holds_records st S : holds st S -> records st = Some S.
Proof. intros (l & ((Hc & _) & _) & <-). by apply records_chain. Qed.

Lemma summary_fold_returns filter rs s0 :
  total s0 + Z.of_nat (length rs) <= INT_MAX ->
  is_Some (foldl (summary_step filter) (Some s0) rs).
Proof.
  revert s0. induction rs as [|r rs IH]; intros s0 Hlen; [by eexists|].
  cbn [foldl]. unfold summary_step at 2. cbn [mbind option_bind].
  cbn [length] in Hlen. destruct (in_summary filter r).
  - replace (total s0 <? INT_MAX) with true by lia. apply IH. simpl. lia.
  - apply IH. lia.
Qed.

Lemma handleShow_returns input st S :
  records st = Some S -> Z.of_nat (length S) <= INT_MAX -> is_Some (handleShow input st).
Proof.
  unfold records. intros Hrec Hlen. unfold handleShow. destruct (show_request input).
  - unfold showDB. rewrite Hrec. by eexists.
  - unfold showDBSorted_out, showDBSorted, cloneList. rewrite Hrec.
    destruct (head st); by eexists.
  - unfold showSummary. rewrite Hrec. destruct (head st); [|by eexists].
    cbn [mbind option_bind].
    destruct (summary_fold_returns programmeFilter S (mkStats 0 f_zero f_neg_one f_101))
      as (s & Hs); [simpl; lia|].
    unfold summary_stats. rewrite Hs. cbn [mbind option_bind].
    destruct (total s =? 0); by eexists.
  - by eexists.
Qed.

Lemma queryDB_returns i st S : holds st S -> 0 <= i -> is_Some (queryDB i st).
Proof.
  intros (l & Hex & _) Hi. pose proof (lookup_record_exact st l i Hex) as H.
  rewrite in_table_hash in H by done. unfold lookup_record in H. unfold queryDB.
  destruct (findNode i st) as [[p|]|]; cbn [mbind option_bind] in *; [|by eexists|done].
  destruct (heap st !! p); cbn [mbind option_bind] in *; [by eexists|done].
Qed.

(** X23.  With no database loaded, a line that is neither OPEN nor QUIT
    only prints: the round leaves the records, the index, the stacks, the
    flags and the files as they are, and reads no second line. *)
Theorem nothing_before_open (input : cstring) (rest : list cstring) (st : CMS)
    (Hnl : dbLoaded st = false)
    (Hopen : validateCommand (cstr input) (c "OPEN") = None)
    (Hquit : validateCommand (cstr input) (c "QUIT") = None) :
  exists st', main_round (input :: rest) st = Some (Continue st' rest) /\
    prints_only st st'.
Proof.
  assert (forall text, prints_only st (printf text (printf prompt st))) as Hp2.
  { intros text. eapply prints_only_trans; apply prints_only_printf. }
  unfold main_round, readLine. rewrite Hopen, Hquit.
  destruct (validateCommand (cstr input) (c "SHOW")) as [valid|] eqn:E1.
  { simpl. rewrite Hnl. simpl. eauto. }
  destruct (validateCommand (cstr input) (c "INSERT")) as [valid|] eqn:E2.
  { unfold main_INSERT. simpl. rewrite Hnl. simpl. eauto. }
  destruct (validateCommand (cstr input) (c "UPDATE")) as [valid|] eqn:E3.
  { unfold main_UPDATE. simpl. rewrite Hnl. simpl. eauto. }
  destruct (validateCommand (cstr input) (c "DELETE")) as [valid|] eqn:E4.
  { unfold main_DELETE. simpl. rewrite Hnl. simpl. eauto. }
  destruct (validateCommand (cstr input) (c "QUERY")) as [valid|] eqn:E5.
  { unfold main_QUERY. simpl. rewrite Hnl. simpl. eauto. }
  destruct (validateCommand (cstr input) (c "UNDO")) as [valid|] eqn:E6.
  { unfold main_plain. destruct valid; simpl; [rewrite Hnl; simpl|]; eauto. }
  destruct (validateCommand (cstr input) (c "REDO")) as [valid|] eqn:E7.
  { unfold main_plain. destruct valid; simpl; [rewrite Hnl; simpl|]; eauto. }
  destruct (validateCommand (cstr input) (c "SAVE")) as [valid|] eqn:E8.
  { unfold main_plain. destruct valid; simpl; [rewrite Hnl; simpl|]; eauto. }
  destruct (validateCommand (cstr input) (c "RESTORE")) as [valid|] eqn:E9.
  { unfold main_RESTORE. destruct valid; simpl; rewrite Hnl; simpl; [eauto|].
    eexists. split; [done|].
    eapply prints_only_trans; [apply Hp2|apply prints_only_printf]. }
  eauto.
Qed.

(** X24.  SHOW and QUERY only print.  Whatever they are asked and whatever
    store they run on, a round that serves one of them and comes back has
    changed nothing but the output and has read no second line; and on a store
    that holds its records (no more than [INT_MAX] of them) the round does
    come back. *)
Theorem show_and_query_only_print (input valid : cstring) (rest : list cstring)
    (st : CMS)
    (Hcmd : validateCommand (cstr input) (c "SHOW") = Some valid \/
            validateCommand (cstr input) (c "QUERY") = Some valid) :
  (forall r, main_round (input :: rest) st = Some r ->
     exists st', r = Continue st' rest /\ prints_only st st') /\
  (forall S, holds st S -> Z.of_nat (length S) <= INT_MAX ->
     is_Some (main_round (input :: rest) st)).
Proof.
  split.
  - intros r Hrun. unfold main_round, readLine in Hrun. destruct Hcmd as [Hcmd|Hcmd].
    + revert Hrun. other_word Hcmd. rewrite Hcmd.
      destruct (negb (dbLoaded (printf prompt st))).
      * intros [= <-]. eexists. split; [done|].
        eapply prints_only_trans; apply prints_only_printf.
      * destruct (handleShow valid _) as [st'|] eqn:E; [|done]. simpl. intros [= <-].
        exists st'. split; [done|]. apply handleShow_prints in E.
        eapply prints_only_trans; [apply prints_only_printf|exact E].
    + revert Hrun. do 5 other_word Hcmd. rewrite Hcmd. unfold main_QUERY.
      destruct (negb (dbLoaded (printf prompt st))).
      * simpl. intros [= <-]. eexists. split; [done|].
        eapply prints_only_trans; apply prints_only_printf.
      * destruct (parseCommand valid false OPTIONAL_NONE) as [v|m].
        -- destruct (queryDB _ _) as [st'|] eqn:E; [|done]. simpl. intros [= <-].
           exists st'. split; [done|]. apply queryDB_prints in E.
           eapply prints_only_trans; [apply prints_only_printf|exact E].
        -- simpl. intros [= <-]. eexists. split; [done|].
           eapply prints_only_trans; [apply prints_only_printf|apply print_rejection_prints].
  - intros S Hst Hlen. pose proof (holds_prints [prompt] st S Hst) as Hst1.
    change (prints [prompt] st) with (printf prompt st) in Hst1.
    unfold main_round, readLine. destruct Hcmd as [Hcmd|Hcmd].
    + other_word Hcmd. rewrite Hcmd.
      destruct (negb (dbLoaded (printf prompt st))); [by eexists|].
      destruct (handleShow_returns valid (printf prompt st) S (holds_records _ _ Hst1) Hlen)
        as (st' & ->).
      by eexists.
    + do 5 other_word Hcmd. rewrite Hcmd. unfold main_QUERY.
      destruct (negb (dbLoaded (printf prompt st))); [by eexists|].
      destruct (parseCommand valid false OPTIONAL_NONE) as [v|m] eqn:Hparse; [|by eexists].
      pose proof (parseCommand_id_valid _ _ _ _ Hparse) as Hid.
      destruct (queryDB_returns (p_id v) (printf prompt st) S Hst1) as (st' & ->); [lia|].
      by eexists.
Qed.

(** X25.  The loop does not notice the end of the input: there [readLine]
    hands back the empty line, the round answers that this is no valid
    command and goes on, so no number of rounds ends the loop. *)
Theorem end_of_input_never_exits (st : CMS) :
  main_round [] st =
    Some (Continue (printf (c "CMS: Enter a valid command" ++ [LF]) (printf prompt st)) []) /\
  forall rounds, main_loop rounds [] st = None.
Proof.
  split; [reflexivity|].
  intros rounds. revert st. induction rounds as [|rounds IH]; intros st; [done|].
  change (main_loop (S rounds) [] st)
    with (main_loop rounds [] (printf (c "CMS: Enter a valid command" ++ [LF])
                                 (printf prompt st))).
  apply IH.
Qed.

(** X26.  DELETE asks first.  On a loaded store that holds the record, the
    round prints the prompt, the question that names the id and the prompt for
    the answer, and reads one more line; the answer Y deletes the record (the
    others keep their order, the action goes on the undo stack), any other
    answer leaves everything but the output as it was. *)
Theorem delete_asks_first (line answer valid : cstring) (rest : list cstring) (st : CMS)
    (S1 : list StudentRecord) (r : StudentRecord) (S2 : list StudentRecord) (v : Parsed)
    (Hst : holds st (S1 ++ r :: S2)) (Hld : dbLoaded st = true)
    (Hcmd : validateCommand (cstr line) (c "DELETE") = Some valid)
    (Hparse : parseCommand valid false OPTIONAL_NONE = Accepted v)
    (Hid : p_id v = id r) :
  exists st', main_round (line :: answer :: rest) st = Some (Continue st' rest) /\
    take 3 (drop (length (stdout st)) (stdout st')) =
      [prompt; delete_question (id r); confirm_prompt] /\
    if answers (cstr answer) "Y"
    then records st' = Some (S1 ++ S2) /\
         undoStack st' = DELETE_OP r :: undoStack st /\ dbModified st' = true
    else prints_only st st'.
Proof.
  unfold main_round, readLine. do 4 other_word Hcmd. rewrite Hcmd.
  unfold main_DELETE, readLine.
  assert (dbLoaded (printf prompt st) = true) as -> by exact Hld. cbn [negb].
  rewrite Hparse, Hid.
  pose proof (holds_prints [prompt] st _ Hst) as Hst1.
  change (prints [prompt] st) with (printf prompt st) in Hst1.
  destruct (deleteDB_preview (printf prompt st) _ (id r) false (holds_records _ _ Hst1))
    as [-> _].
  rewrite bool_decide_true.
  2:{ rewrite fmap_app, fmap_cons. apply elem_of_app. right. apply list_elem_of_here. }
  cbn [mbind option_bind negb]. cbv beta iota zeta.
  fold (delete_question (id r)).
  change (printf confirm_prompt (printf (delete_question (id r)) (printf prompt st)))
    with (prints [prompt; delete_question (id r); confirm_prompt] st).
  destruct (prints_same [prompt; delete_question (id r); confirm_prompt] st)
    as (_ & _ & _ & _ & _ & _ & _ & Hu0 & _ & _ & _ & Hout).
  destruct (answers (cstr answer) "Y").
  - destruct (deleteDB_holds (prints [prompt; delete_question (id r); confirm_prompt] st)
                S1 r S2) as (st3 & -> & Hrec & _ & _ & Hu & _ & Hm & _ & Hout3).
    { by apply holds_prints. }
    cbn [mbind option_bind]. eexists. split; [done|]. split.
    { rewrite Hout3, Hout, <- app_assoc, drop_app_length. done. }
    split; [done|]. split; [|done]. by rewrite Hu, Hu0.
  - destruct (answers (cstr answer) "N"); cbn [mbind option_bind];
      (eexists; split; [done|]); (split;
        [ unfold printf at 1; cbn [stdout]; rewrite Hout, <- app_assoc, drop_app_length; done
        | (eapply prints_only_trans; [|apply prints_only_printf]);
          apply prints_only_prints ]).
Qed.

Lemma linked_prints texts st l : linked st l -> linked (prints texts st) l.
Proof.
  intros Hl. destruct (prints_same texts st) as (a1 & a2 & a3 & a4 & a5 & _).
  by eapply linked_store; [..|exact Hl].
Qed.

(** X30.  RESTORE does not stop at its own complaint: with words after
    RESTORE the round prints that this is no valid command and then asks and
    restores all the same.  On a loaded store with a readable backup file and
    the answer Y, the store afterwards holds the records of the backup and a
    Restore action is on the undo stack. *)
Theorem restore_ignores_its_arguments (line valid answer : cstring) (rest : list cstring)
    (st : CMS) (l0 : list (addr * StudentRecord)) (content : cstring)
    (rs : list StudentRecord)
    (Hl : linked st l0) (Hld : dbLoaded st = true)
    (Hcmd : validateCommand (cstr line) (c "RESTORE") = Some valid)
    (Hargs : valid <> [])
    (Hyes : answers (cstr answer) "Y" = true)
    (Hf : disk st !! backup_path = Some content)
    (Hparse : parse_file content = Some rs)
    (Hids : Forall (fun r => 0 <= id r) rs) (Hnd : NoDup (buckets rs)) :
  exists st', main_round (line :: answer :: rest) st = Some (Continue st' rest) /\
    holds st' rs /\ undoStack st' = RESTORE_OP :: undoStack st /\
    take 4 (drop (length (stdout st)) (stdout st')) =
      [prompt; enter_valid; restore_warning; confirm_prompt].
Proof.
  unfold main_round, readLine. do 9 other_word Hcmd. rewrite Hcmd.
  unfold main_RESTORE, readLine. destruct valid as [|ch valid]; [done|].
  assert (dbLoaded (printf enter_valid (printf prompt st)) = true) as -> by exact Hld.
  cbn [negb]. cbv beta iota zeta. rewrite Hyes. fold restore_warning.
  change (printf confirm_prompt (printf restore_warning
            (printf enter_valid (printf prompt st))))
    with (prints [prompt; enter_valid; restore_warning; confirm_prompt] st).
  destruct (prints_same [prompt; enter_valid; restore_warning; confirm_prompt] st)
    as (_ & _ & _ & _ & _ & _ & _ & Hu & _ & Hd & _ & Hout).
  destruct (restoreDB_holds (prints [prompt; enter_valid; restore_warning; confirm_prompt] st)
              l0 content rs) as (st' & Hrun & Hh & Hu' & _).
  { by apply linked_prints. }
  { by rewrite Hd. }
  { done. }
  { done. }
  { done. }
  rewrite Hrun. cbn [mbind option_bind]. exists st'. split; [done|]. split; [done|].
  split; [by rewrite Hu', Hu|].
  assert (exists more, stdout st' = stdout st
            ++ [prompt; enter_valid; restore_warning; confirm_prompt] ++ more)
    as (more & ->).
  { revert Hrun. unfold restoreDB. rewrite Hd, Hf. cbn [mbind option_bind].
    destruct (loadDB _ _) as [st2|] eqn:E; [|done]. cbn [mbind option_bind].
    intros [= <-].
    pose proof (loadDB_stdout _ _ _ content E) as Hout2.
    eexists. cbn [stdout set_dbModified printf pushUndo set_redoStack set_undoStack].
    rewrite Hout2 by (cbn [disk pushUndo set_redoStack set_undoStack]; by rewrite Hd).
    cbn [stdout pushUndo set_redoStack set_undoStack]. rewrite Hout.
    rewrite <- !app_assoc. done. }
  rewrite drop_app_length. done.
Qed.

End Loop.

(** *** A command that gives the id alone *)

Section IdAlone.
Context {F : FloatOps}.

Ltac each_digit ch :=
  destruct ch as [[] [] [] [] [] [] [] []]; intros Hdigit; vm_compute in Hdigit;
  try discriminate Hdigit; vm_compute; try done; auto.

Lemma field_at_digit d s : isdigit d = true -> field_at (d :: s) = None.
Proof. each_digit d. Qed.

Lemma digit_not_space d : isdigit d = true -> isspace d = false.
Proof. each_digit d. Qed.

Lemma scan_value_digits s : forallb isdigit s = true -> scan_value s = (s, []).
Proof.
  induction s as [|d s IH]; [done|]. intros [Hd Hs]%andb_true_iff.
  cbn [scan_value]. rewrite (field_at_digit d s Hd).
  rewrite bool_decide_false by (by intros [? ?]). by rewrite IH.
Qed.

Lemma rtrim_digits s : forallb isdigit s = true -> rtrim s = s.
Proof.
  induction s as [|d s IH]; [done|]. intros [Hd Hs]%andb_true_iff.
  cbn [rtrim]. rewrite IH by done. destruct s; [|done].
  by rewrite (digit_not_space d Hd).
Qed.

Lemma skip_spaces_digits s : forallb isdigit s = true -> skip_spaces s = s.
Proof.
  destruct s as [|d s]; [done|]. intros [Hd _]%andb_true_iff. simpl.
  by rewrite (digit_not_space d Hd).
Qed.

(** X27.  A command that gives a valid id and nothing else is accepted with
    an empty name, an empty programme and the mark 0.0 wherever values may be
    left out (QUERY, DELETE and also INSERT), and is turned down where a value
    is required (UPDATE). *)
Theorem id_alone_is_accepted (s : cstring) (bufs : bool) (mode : Z)
    (Hs : validateID s = true) :
  exists i, atoi s = Some i /\
    parseCommand (c "ID=" ++ s) bufs mode =
      if mode =? OPTIONAL_REQUIRED then
        reject "CMS: At least one of NAME, PROGRAMME, or MARK must be provided for UPDATE."
      else Accepted (mkParsed i [] [] f_zero [true; false; false; false] false).
Proof.
  destruct (validateID_atoi s Hs) as (i & Hatoi & Hi & _). exists i. split; [done|].
  assert (forallb isdigit s = true /\ length s = 7%nat) as [Hdig Hlen].
  { unfold validateID in Hs. apply andb_true_iff in Hs as [Hs ?].
    apply andb_true_iff in Hs as [Hl _]. split; [done|]. by apply Nat.eqb_eq. }
  unfold parseCommand.
  assert (parseCommand_loop (length (c "ID=" ++ s)) (c "ID=" ++ s) bufs mode
            (mkParsed (-1) [] [] f_zero [false; false; false; false] false)
          = Accepted (mkParsed i [] [] f_zero [true; false; false; false] false)) as ->.
  { rewrite length_app, Hlen.
    change (length (c "ID=") + 7)%nat with (S 9).
    change (c "ID=" ++ s) with ("I"%char :: "D"%char :: "="%char :: s).
    cbn [parseCommand_loop].
    change (field_at ("I"%char :: "D"%char :: "="%char :: s)) with (Some 0%nat).
    cbv beta iota. cbn [p_found nth].
    change (drop (length (key_name 0)) ("I"%char :: "D"%char :: "="%char :: s))
      with ("="%char :: s).
    change (skip_spaces ("="%char :: s)) with ("="%char :: s).
    cbv beta iota.
    change (negb (ascii_eqb "="%char "="%char)) with false. cbv iota.
    rewrite Nat.ltb_irrefl.
    rewrite (skip_spaces_digits s Hdig), (scan_value_digits s Hdig).
    rewrite (rtrim_digits s Hdig). cbv beta iota zeta.
    change (0 =? 0)%nat with true. cbn [negb]. rewrite andb_false_r.
    rewrite take_ge by (rewrite Hlen; unfold MAX_LINE; lia).
    unfold store_field. rewrite Hlen. change (7 =? 0)%nat with false. cbv iota.
    rewrite Hs. cbn [negb]. rewrite Hatoi. done. }
  cbn [p_id p_optionalProvided]. assert ((i =? -1) = false) as -> by lia.
  by rewrite andb_true_r.
Qed.

End IdAlone.

(** ** The table *)

Section Table.
Context {F : FloatOps} {G : FloatSummary F}.

Lemma length_pad_right w s : (length s <= w)%nat -> length (pad_right w s) = w.
Proof. intros H. unfold pad_right. rewrite length_app, repeat_length. lia. Qed.

Lemma length_chunk width i text :
  (length (chunk width i text) <= width)%nat /\
  (length (chunk width i text) <= length text)%nat.
Proof. unfold chunk. rewrite length_take, length_drop. lia. Qed.

Lemma chunk_beyond width i text :
  (length text <= i * width)%nat -> chunk width i text = [].
Proof. intros H. unfold chunk. rewrite drop_ge by done. apply take_nil. Qed.

Lemma text_cell_chunk w width i text :
  text_cell w width i text = pad_right w (chunk width i text) ++ [SPACE].
Proof.
  unfold text_cell. destruct (i * width <? length text)%nat eqn:E; [done|].
  apply Nat.ltb_ge in E. by rewrite chunk_beyond.
Qed.

Lemma foldl_max_ge {A} (f : A -> nat) (l : list A) (m0 : nat) :
  (m0 <= foldl (fun m x => if (m <? f x)%nat then f x else m) m0 l)%nat /\
  forall x, x ∈ l -> (f x <= foldl (fun m x => if (m <? f x)%nat then f x else m) m0 l)%nat.
Proof.
  revert m0. induction l as [|y l IH]; intros m0; simpl.
  { split; [lia|]. intros x Hx. by apply elem_of_nil in Hx. }
  destruct (IH (if (m0 <? f y)%nat then f y else m0)) as [H1 H2].
  assert (m0 <= (if (m0 <? f y)%nat then f y else m0) /\
          f y <= (if (m0 <? f y)%nat then f y else m0))%nat as [? ?].
  { destruct (m0 <? f y)%nat eqn:E; [apply Nat.ltb_lt in E|apply Nat.ltb_ge in E]; lia. }
  split; [lia|]. intros x [->|Hx]%elem_of_cons; [lia|by apply H2].
Qed.

Lemma display_width_fits longest fixed least len :
  (len <= longest)%nat ->
  (Nat.min len fixed <= display_width longest fixed least)%nat.
Proof.
  intros H. unfold display_width. cbv zeta.
  destruct (Nat.ltb_spec (fixed + 2) (longest + 2));
    match goal with
    | |- context [if (?a <? ?b)%nat then _ else _] => destruct (Nat.ltb_spec a b)
    end; lia.
Qed.

Lemma lines_cover len width : (0 < width)%nat -> (len <= lines_of len width * width)%nat.
Proof.
  intros Hw. unfold lines_of. destruct (0 <? len)%nat eqn:E.
  - apply Nat.ltb_lt in E.
    pose proof (Nat.div_mod_eq (len + width - 1) width) as Hd.
    pose proof (Nat.mod_upper_bound (len + width - 1) width ltac:(lia)) as Hm. nia.
  - apply Nat.ltb_ge in E. lia.
Qed.

Lemma chunks_cover width n text :
  (length text <= n * width)%nat ->
  concat (map (fun i => chunk width i text) (seq 0 n)) = text.
Proof.
  revert text. induction n as [|n IH]; intros text Hlen.
  { simpl in *. destruct text; [done|simpl in Hlen; lia]. }
  cbn [seq map concat]. rewrite <- seq_shift, map_map.
  assert (forall i, chunk width (S i) text = chunk width i (drop width text)) as Hshift.
  { intros i. unfold chunk. by rewrite drop_drop. }
  rewrite (map_ext _ (fun i => chunk width i (drop width text))) by apply Hshift.
  rewrite IH by (rewrite length_drop; lia).
  unfold chunk. simpl. rewrite drop_0. apply take_drop.
Qed.

(** X28.  The table of [printNodeList] keeps its columns and loses no
    text: in every row of every record the name cell and the programme cell
    have the width chosen for the whole table (plus the blank behind), the id
    cell has nine characters when the id prints in eight or fewer, and the
    parts of a name (programme) shown in the rows of its record make up the
    whole name (programme). *)
Theorem table_rows_aligned (rs : list StudentRecord) (r : StudentRecord) (i : nat)
    (Hin : r ∈ rs) (Hid : (length (fmt_d (id r)) <= 8)%nat) :
  row (display_name_width rs) (display_prog_width rs) r i =
    [ (if (i =? 0)%nat then pad_right 8 (fmt_d (id r)) else pad_right 8 []) ++ [SPACE];
      pad_right (display_name_width rs) (chunk NAME_WIDTH i (name r)) ++ [SPACE];
      pad_right (display_prog_width rs) (chunk PROG_WIDTH i (programme r)) ++ [SPACE] ]
    ++ (if (i =? 0)%nat then [fmt_1f (mark r)] else []) ++ [[LF]] /\
  length ((if (i =? 0)%nat then pad_right 8 (fmt_d (id r)) else pad_right 8 []) ++ [SPACE])
    = 9%nat /\
  length (pad_right (display_name_width rs) (chunk NAME_WIDTH i (name r)) ++ [SPACE])
    = S (display_name_width rs) /\
  length (pad_right (display_prog_width rs) (chunk PROG_WIDTH i (programme r)) ++ [SPACE])
    = S (display_prog_width rs) /\
  concat (map (fun i => chunk NAME_WIDTH i (name r)) (seq 0 (record_lines r))) = name r /\
  concat (map (fun i => chunk PROG_WIDTH i (programme r)) (seq 0 (record_lines r)))
    = programme r.
Proof.
  split; [unfold row; by rewrite !text_cell_chunk|].
  split.
  { rewrite length_app. simpl. destruct (i =? 0)%nat; rewrite length_pad_right; simpl; lia. }
  pose proof (proj2 (foldl_max_ge (fun x => length (name x)) rs 4%nat) r Hin) as Hn.
  pose proof (proj2 (foldl_max_ge (fun x => length (programme x)) rs 9%nat) r Hin) as Hp.
  fold (max_name_len rs) in Hn. fold (max_prog_len rs) in Hp.
  split.
  { rewrite length_app, length_pad_right; [simpl; lia|].
    pose proof (display_width_fits (max_name_len rs) NAME_WIDTH 6 _ Hn).
    pose proof (length_chunk NAME_WIDTH i (name r)). unfold display_name_width. lia. }
  split.
  { rewrite length_app, length_pad_right; [simpl; lia|].
    pose proof (display_width_fits (max_prog_len rs) PROG_WIDTH 11 _ Hp).
    pose proof (length_chunk PROG_WIDTH i (programme r)). unfold display_prog_width. lia. }
  assert (lines_of (length (name r)) NAME_WIDTH <= record_lines r /\
          lines_of (length (programme r)) PROG_WIDTH <= record_lines r)%nat as [L1 L2].
  { unfold record_lines.
    destruct (_ <? _)%nat eqn:E; [apply Nat.ltb_lt in E|apply Nat.ltb_ge in E]; lia. }
  pose proof (lines_cover (length (name r)) NAME_WIDTH ltac:(unfold NAME_WIDTH; lia)).
  pose proof (lines_cover (length (programme r)) PROG_WIDTH ltac:(unfold PROG_WIDTH; lia)).
  split; apply chunks_cover; nia.
Qed.

End Table.

(** ** SHOW ALL by its words *)

Section ShowWords.
Context {F : FloatOps} {G : FloatSummary F}.

Lemma split_blanks_word cur s :
  cur <> [] ->
  split_blanks cur s = (cur ++ (until_blank s).1) :: words_of (until_blank s).2.
Proof.
  revert cur. induction s as [|ch s IH]; intros cur Hne.
  - simpl. rewrite app_nil_r. by destruct cur.
  - simpl. destruct (ascii_eqb ch SPACE) eqn:E.
    + simpl. rewrite app_nil_r. by destruct cur.
    + rewrite IH by (by destruct cur). destruct (until_blank s) as [tok rest]. simpl.
      by rewrite <- app_assoc.
Qed.

Lemma words_strtok s :
  words_of s = match strtok s with
               | None => []
               | Some (tok, rest) => tok :: words_of rest
               end.
Proof.
  unfold words_of, strtok. induction s as [|ch s IH]; [done|]. simpl.
  destruct (ascii_eqb ch SPACE) eqn:E; [exact IH|].
  simpl. rewrite E. rewrite split_blanks_word by done.
  by destruct (until_blank s) as [tok rest].
Qed.

Lemma sort_request_words s : sort_request s = sort_words (words_of s).
Proof.
  unfold sort_request, sort_words. rewrite (words_strtok s).
  destruct (strtok s) as [[by_ s1]|]; [|done].
  destruct (negb (strcasecmp_eq by_ (c "BY"))); [done|].
  rewrite (words_strtok s1). destruct (strtok s1) as [[field s2]|]; [|done].
  destruct (strcasecmp_eq field (c "ID") || strcasecmp_eq field (c "MARK")); [|done].
  rewrite (words_strtok s2). destruct (strtok s2) as [[order s3]|]; [|done].
  destruct (strcasecmp_eq order (c "DESC") || strcasecmp_eq order (c "ASC")); [|done].
  rewrite (words_strtok s3). by destruct (strtok s3) as [[extra s4]|].
Qed.

(** X29.  How a SHOW ALL command is served depends on its words alone,
    however many blanks stand between them: nothing after ALL lists the
    records in list order; SORT BY ID or MARK, with ASC, DESC or no third word,
    gives the sorted view (ascending when no order is named); every other
    sequence of words is answered with the message that belongs to the first
    word that does not fit. *)
Theorem show_all_by_words (input w : cstring) (ws : list cstring)
    (Hwords : words_of input = w :: ws) (Hall : strcasecmp_eq w (c "ALL") = true) :
  show_request input = all_words ws.
Proof.
  unfold show_request. rewrite words_strtok in Hwords.
  destruct (strtok input) as [[tok s1]|]; [|done].
  injection Hwords as -> <-. rewrite Hall.
  unfold all_words. rewrite (words_strtok s1).
  destruct (strtok s1) as [[tok2 s2]|]; [|done].
  destruct (strcasecmp_eq tok2 (c "SORT")); [|done]. apply sort_request_words.
Qed.

End ShowWords.

(** ** The further properties on concrete stores *)

Section MoreRuns.
#[local] Existing Instance decimal_float.

Lemma cy_storable : storable cy.
Proof.
  split; [by vm_compute|]. split; [reflexivity|]. split; [simpl; unfold MAX_NAME; lia|].
  split; [reflexivity|]. split; [simpl; unfold MAX_PROGRAMME; lia|].
  split; [reflexivity|]. split; [by vm_compute|]. split; [reflexivity|].
  split; [vm_compute; lia|reflexivity].
Qed.

Lemma three_storable : Forall storable [amy; bob; cy].
Proof.
  constructor; [exact amy_storable|]. constructor; [exact bob_storable|].
  constructor; [exact cy_storable|constructor].
Qed.

Lemma three_buckets : NoDup (buckets [amy; bob; cy]).
Proof.
  change (buckets [amy; bob; cy]) with [hash 2000001; hash 2000002; hash 2000003].
  apply (bool_decide_unpack _). by vm_compute.
Qed.

Lemma opened3_holds :
  holds opened3 [amy; bob; cy] /\ dbLoaded opened3 = true /\
  disk opened3 = data_dir [amy; bob; cy] /\ readonly opened3 = ∅.
Proof.
  destruct (fresh_load_holds [amy; bob; cy] three_storable three_buckets)
    as (st & Hrun & Hh & Hld & Hd & _ & _ & Hro).
  unfold opened3, opened, openDB.
  change (dbLoaded (fresh_store (data_dir [amy; bob; cy]))) with false. cbv iota.
  unfold data_dir. rewrite Hrun. cbn [default].
  split; [exact Hh|]. split; [exact Hld|]. split; [exact Hd|exact Hro].
Qed.

Lemma lookup_finds_each_record_witness :
  (forall r, r ∈ [amy; bob; cy] -> lookup_record (id r) opened3 = Some (Some r)) /\
  (forall i, 0 <= i -> i ∉ id <$> [amy; bob; cy] -> lookup_record i opened3 = Some None).
Proof.
  exact (lookup_finds_each_record opened3 [amy; bob; cy] (proj1 opened3_holds)).
Defined.

Lemma insert_appends_record_witness :
  exists st', insertDB 2000004 (c "Dan") (c "Cs") (Qmake 80 1) false opened3 = Some st' /\
    holds st' ([amy; bob; cy] ++ [dan]) /\
    undoStack st' = INSERT_OP dan :: undoStack opened3 /\
    redoStack st' = [] /\ dbModified st' = true /\ disk st' = disk opened3 /\
    stdout st' =
      stdout opened3 ++ [c "CMS: Record with ID=" ++ fmt_d 2000004 ++ c " inserted." ++ [LF]].
Proof.
  apply (insert_appends_record opened3 [amy; bob; cy] 2000004 (c "Dan") (c "Cs") (Qmake 80 1)).
  - exact (proj1 opened3_holds).
  - lia.
  - change (buckets [amy; bob; cy]) with [hash 2000001; hash 2000002; hash 2000003].
    apply (bool_decide_unpack _). by vm_compute.
Defined.

Lemma bob_listed : bob ∈ [amy; bob; cy].
Proof. apply list_elem_of_further, list_elem_of_here. Qed.

Lemma insert_refuses_duplicate_witness :
  insertDB (id bob) (c "Rob") (c "Cs") (Qmake 10 1) false opened3 =
    Some (printf (c "CMS: Record with ID=" ++ fmt_d (id bob)
                    ++ c " already exists." ++ [LF]) opened3) /\
  insertDB (id bob) (c "Rob") (c "Cs") (Qmake 10 1) true opened3 = Some opened3.
Proof.
  exact (insert_refuses_duplicate opened3 [amy; bob; cy] bob (c "Rob") (c "Cs") (Qmake 10 1)
           (proj1 opened3_holds) bob_listed).
Defined.

Lemma update_patches_record_witness :
  exists st', updateDB (id bob) (c "Bobby") [] (Qmake 55 1) false opened3 = Some st' /\
    holds st' ([amy] ++ patched bob (c "Bobby") [] (Qmake 55 1) :: [cy]) /\
    undoStack st' =
      UPDATE_OP bob (patched bob (c "Bobby") [] (Qmake 55 1)) :: undoStack opened3 /\
    redoStack st' = [] /\ dbModified st' = true /\ disk st' = disk opened3 /\
    stdout st' = stdout opened3 ++ [c "CMS: The record with ID=" ++ fmt_d (id bob)
                                      ++ c " is successfully updated." ++ [LF]].
Proof.
  exact (update_patches_record opened3 [amy] bob [cy] (c "Bobby") [] (Qmake 55 1)
           (proj1 opened3_holds)).
Defined.

Lemma update_unknown_id_witness :
  updateDB 2000009 (c "Zed") [] (Qmake 55 1) false opened3 =
    Some (printf (c "CMS: The record with ID=" ++ fmt_d 2000009
                    ++ c " does not exist." ++ [LF]) opened3) /\
  updateDB 2000009 (c "Zed") [] (Qmake 55 1) true opened3 = Some opened3.
Proof.
  apply (update_unknown_id opened3 [amy; bob; cy] 2000009 (c "Zed") [] (Qmake 55 1)).
  - exact (proj1 opened3_holds).
  - lia.
  - apply (bool_decide_unpack _). by vm_compute.
Defined.

Lemma delete_removes_record_witness :
  exists st', deleteDB (id bob) true false opened3 = Some (true, st') /\
    records st' = Some ([amy] ++ [cy]) /\
    lookup_record (id bob) st' = Some None /\
    (forall x, x ∈ [amy] ++ [cy] -> lookup_record (id x) st' = Some (Some x)) /\
    undoStack st' = DELETE_OP bob :: undoStack opened3 /\
    redoStack st' = [] /\ dbModified st' = true /\ disk st' = disk opened3 /\
    stdout st' = stdout opened3 ++ [c "CMS: The record with ID=" ++ fmt_d (id bob)
                                      ++ c " is successfully deleted." ++ [LF]].
Proof.
  exact (delete_removes_record opened3 [amy] bob [cy] (proj1 opened3_holds)).
Defined.

Lemma opened3_records : records opened3 = Some [amy; bob; cy].
Proof.
  destruct opened3_holds as ((l & ((Hc & _) & _) & Hl) & _).
  by rewrite (records_chain opened3 l Hc), Hl.
Qed.

Lemma delete_preview_changes_nothing_witness :
  deleteDB 2000002 false false opened3 =
    Some (bool_decide (2000002 ∈ id <$> [amy; bob; cy]), opened3) /\
  (2000002 ∉ id <$> [amy; bob; cy] -> deleteDB 2000002 true false opened3 = Some (false, opened3)).
Proof.
  exact (delete_preview_changes_nothing opened3 [amy; bob; cy] 2000002 false opened3_records).
Defined.

Lemma freeDB_releases_list_witness :
  exists st', freeDB orphaned_store = Some st' /\ records st' = Some [] /\
    (forall q, q ∈ [(0%nat, bob)].*1 -> heap st' !! q = None) /\
    (forall q, q ∉ [(0%nat, bob)].*1 -> heap st' !! q = heap orphaned_store !! q) /\
    hashTable st' = hashTable orphaned_store /\ tail st' = tail orphaned_store /\
    same_env orphaned_store st'.
Proof.
  exact (freeDB_releases_list orphaned_store [(0%nat, bob)] orphaned_store_linked).
Defined.

Lemma two_storable : Forall storable [amy; bob].
Proof.
  constructor; [exact amy_storable|]. constructor; [exact bob_storable|constructor].
Qed.

Lemma one_storable : Forall storable [cy].
Proof. constructor; [exact cy_storable|constructor]. Qed.

Lemma opened_with_backup_linked :
  exists l, linked opened_with_backup l /\
    disk opened_with_backup = two_files [amy; bob] [cy].
Proof.
  destruct (loadDB_linked primary_path (fresh_store (two_files [amy; bob] [cy])) []
              (serialise [amy; bob]) [amy; bob])
    as (st & l & Hrun & Hl & _ & _ & Hd & _).
  - split; [done|]. split; [done|]. intros p _. apply lookup_empty.
  - apply lookup_insert_eq.
  - apply parse_file_serialise, two_storable.
  - apply storable_valid_keys, two_storable.
  - exists l. unfold opened_with_backup, openDB.
    change (dbLoaded (fresh_store (two_files [amy; bob] [cy]))) with false. cbv iota.
    rewrite Hrun. cbn [default]. split; [exact Hl|exact Hd].
Qed.

Lemma backup_file : disk opened_with_backup !! backup_path = Some (serialise [cy]).
Proof.
  destruct opened_with_backup_linked as (l & _ & ->). unfold two_files.
  rewrite lookup_insert_ne by done. apply lookup_singleton_eq.
Qed.

Lemma primary_file : disk opened_with_backup !! primary_path = Some (serialise [amy; bob]).
Proof.
  destruct opened_with_backup_linked as (l & _ & ->). apply lookup_insert_eq.
Qed.

Lemma cy_key : Forall (fun r => 0 <= id r) [cy].
Proof. constructor; [by vm_compute|constructor]. Qed.

Lemma two_keys : Forall (fun r => 0 <= id r) [amy; bob].
Proof. constructor; [by vm_compute|]. constructor; [by vm_compute|constructor]. Qed.

Lemma cy_bucket : NoDup (buckets [cy]).
Proof. apply NoDup_singleton. Qed.

Lemma load_replaces_records_witness :
  exists st', loadDB backup_path opened_with_backup = Some st' /\ holds st' [cy] /\
    dbLoaded st' = true /\ dbModified st' = dbModified opened_with_backup /\
    disk st' = disk opened_with_backup /\
    stdout st' =
      stdout opened_with_backup ++
        [c "CMS: The database file " ++ [DQUOTE] ++ c "P4_1-CMS.txt"
           ++ [DQUOTE] ++ c " is successfully opened." ++ [LF]].
Proof.
  destruct opened_with_backup_linked as (l & Hl & _).
  exact (load_replaces_records opened_with_backup l backup_path (serialise [cy]) [cy]
           Hl backup_file (parse_file_serialise [cy] one_storable) cy_key cy_bucket).
Defined.

Lemma restore_loads_backup_witness :
  exists st', restoreDB false opened_with_backup = Some st' /\ holds st' [cy] /\
    undoStack st' = RESTORE_OP :: undoStack opened_with_backup /\ redoStack st' = [] /\
    dbLoaded st' = true /\ dbModified st' = true /\ disk st' = disk opened_with_backup.
Proof.
  destruct opened_with_backup_linked as (l & Hl & _).
  exact (restore_loads_backup opened_with_backup l (serialise [cy]) [cy]
           Hl backup_file (parse_file_serialise [cy] one_storable) cy_key cy_bucket).
Defined.

Lemma undo_of_restore_reloads_primary_witness :
  exists st1 st2, restoreDB false opened_with_backup = Some st1 /\ undo st1 = Some st2 /\
    records st1 = Some [cy] /\ records st2 = Some [amy; bob] /\
    undoStack st2 = undoStack opened_with_backup /\ redoStack st2 = [RESTORE_OP].
Proof.
  destruct opened_with_backup_linked as (l & Hl & _).
  exact (undo_of_restore_reloads_primary opened_with_backup l
           (serialise [cy]) (serialise [amy; bob]) [cy] [amy; bob]
           Hl backup_file (parse_file_serialise [cy] one_storable) cy_key
           primary_file (parse_file_serialise [amy; bob] two_storable) two_keys).
Defined.

Lemma only_save_writes_files_witness :
  returns (run (perform <$> busy_session) opened3) = true /\
  disk (default opened3 (run (perform <$> busy_session) opened3)) = disk opened3 /\
  readonly (default opened3 (run (perform <$> busy_session) opened3)) = readonly opened3.
Proof.
  assert (returns (run (perform <$> busy_session) opened3) = true) as Hret by (by vm_compute).
  split; [exact Hret|].
  exact (only_save_writes_files busy_session opened3 _ (returns_default _ opened3 Hret)).
Defined.

Lemma bob75_storable : storable bob75.
Proof.
  split; [by vm_compute|]. split; [reflexivity|]. split; [simpl; unfold MAX_NAME; lia|].
  split; [reflexivity|]. split; [simpl; unfold MAX_PROGRAMME; lia|].
  split; [reflexivity|]. split; [by vm_compute|]. split; [reflexivity|].
  split; [vm_compute; lia|reflexivity].
Qed.

Lemma edited_facts :
  dbLoaded edited = true /\ records edited = Some [bob75] /\ readonly edited = ∅ /\
  disk edited !! primary_path = Some (serialise [bob]).
Proof. repeat apply conj; reflexivity. Qed.

Lemma edited_writable : (backup_path ∉ readonly edited) /\ (primary_path ∉ readonly edited).
Proof.
  destruct edited_facts as (_ & _ & -> & _). split; apply not_elem_of_empty.
Qed.

Lemma save_twice_writes_once_witness :
  exists st1, saveDB edited = Some st1 /\
    (exists text, disk st1 !! primary_path = Some text /\ cstr text = serialise [bob75]) /\
    saveDB st1 =
      Some (printf (c "CMS: No changes detected. Nothing to save." ++ [LF]) st1).
Proof.
  apply (save_twice_writes_once edited [bob75]).
  - exact (proj1 edited_facts).
  - exact (proj1 (proj2 edited_facts)).
  - constructor; [|constructor]. exact (storable_text_record bob75 bob75_storable).
  - exact (proj1 edited_writable).
  - exact (proj2 edited_writable).
Defined.

Lemma saved_file_reads_back_witness :
  exists st1 st2, saveDB edited = Some st1 /\
    disk st1 !! primary_path = Some (serialise [bob75]) /\
    openDB (fresh_store (disk st1)) = Some st2 /\
    records st2 = Some [bob75] /\ dbLoaded st2 = true.
Proof.
  apply (saved_file_reads_back edited [bob75]).
  - exact (proj1 edited_facts).
  - exact (proj1 (proj2 edited_facts)).
  - constructor; [exact bob75_storable|constructor].
  - intros content Hc. destruct edited_facts as (_ & _ & _ & Hf).
    rewrite Hf in Hc. apply (inj Some) in Hc. subst content. reflexivity.
  - exact (proj1 edited_writable).
  - exact (proj2 edited_writable).
Defined.

Lemma failed_save_still_writes_backup_witness :
  exists st1, saveDB (locked edited) = Some st1 /\
    disk st1 !! backup_path = Some (cstr (serialise [bob])) /\
    disk st1 !! primary_path = Some (serialise [bob]) /\
    dbModified st1 = dbModified (locked edited) /\ records st1 = Some [bob75] /\
    stdout st1 = stdout (locked edited) ++ [c "CMS: Error saving the database file." ++ [LF]].
Proof.
  apply (failed_save_still_writes_backup (locked edited) [bob75] (serialise [bob])).
  - reflexivity.
  - reflexivity.
  - reflexivity.
  - done.
  - reflexivity.
  - apply not_elem_of_singleton. done.
  - apply elem_of_singleton. done.
Defined.

(** *** History across reloads *)

Lemma closed_with_history_linked : linked closed_with_history [].
Proof.
  assert (heap closed_with_history = ∅) as Hh by reflexivity.
  split; [reflexivity|]. split; [intros H; by destruct H|].
  intros p _. rewrite Hh. apply lookup_empty.
Qed.

Lemma closed_with_history_disk : disk closed_with_history = two_files [amy; bob] [cy].
Proof. reflexivity. Qed.

Lemma primary_loadable : loadable (Some (serialise [amy; bob])).
Proof.
  exists [amy; bob]. split; [apply parse_file_serialise, two_storable|].
  apply storable_valid_keys, two_storable.
Qed.

Lemma backup_loadable : loadable (Some (serialise [cy])).
Proof.
  exists [cy]. split; [apply parse_file_serialise, one_storable|].
  apply storable_valid_keys, one_storable.
Qed.

Lemma load_keeps_history_witness :
  dbLoaded closed_with_history = false /\
  undoStack closed_with_history = [INSERT_OP dan] /\
  redoStack closed_with_history = [INSERT_OP eve] /\
  records_of (openDB closed_with_history) = Some [amy; bob] /\
  records_of (openDB closed_with_history ≫= undo) = Some [amy; bob] /\
  redoStack <$> (openDB closed_with_history ≫= undo) = Some [INSERT_OP dan; INSERT_OP eve] /\
  (exists st1, loadDB backup_path closed_with_history = Some st1 /\
     same_history closed_with_history st1) /\
  (exists st2, openDB closed_with_history = Some st2 /\
     same_history closed_with_history st2) /\
  (exists st3, restoreDB true closed_with_history = Some st3 /\
     same_history closed_with_history st3) /\
  (exists st4, restoreDB false closed_with_history = Some st4 /\
     match disk closed_with_history !! backup_path with
     | None => same_history closed_with_history st4
     | Some _ =>
         undoStack st4 = RESTORE_OP :: undoStack closed_with_history /\ redoStack st4 = []
     end).
Proof.
  do 6 (split; [reflexivity|]).
  apply (load_keeps_history backup_path closed_with_history []).
  - exact closed_with_history_linked.
  - rewrite closed_with_history_disk. unfold two_files.
    rewrite lookup_insert_ne by done. rewrite lookup_singleton_eq. exact backup_loadable.
  - rewrite closed_with_history_disk. unfold two_files.
    rewrite lookup_insert_eq. exact primary_loadable.
  - rewrite closed_with_history_disk. unfold two_files.
    rewrite lookup_insert_ne by done. rewrite lookup_singleton_eq. exact backup_loadable.
Defined.

(** C10, the claim as stated fails: a RESTORE by the user, on a loaded
    store with one action on each stack, comes back with its own action on
    top of the undo stack and with the redo stack emptied; the insert that
    waited there is gone. *)
Lemma restore_changes_history_counterexample :
  dbLoaded session_with_history = true /\
  undoStack session_with_history = [INSERT_OP dan] /\
  redoStack session_with_history = [INSERT_OP eve] /\
  undoStack <$> restoreDB false session_with_history = Some [RESTORE_OP; INSERT_OP dan] /\
  redoStack <$> restoreDB false session_with_history = Some [] /\
  ~ (exists st', restoreDB false session_with_history = Some st' /\
       same_history session_with_history st').
Proof.
  assert (redoStack <$> restoreDB false session_with_history = Some []) as E
    by reflexivity.
  assert (redoStack session_with_history = [INSERT_OP eve]) as E2 by reflexivity.
  split; [reflexivity|]. split; [reflexivity|]. split; [exact E2|].
  split; [reflexivity|]. split; [exact E|].
  intros (st' & Hrun & _ & Hredo).
  assert (Some (redoStack st') = Some []) as E1.
  { rewrite <- E. rewrite Hrun. reflexivity. }
  apply (inj Some) in E1. rewrite E1, E2 in Hredo. discriminate Hredo.
Qed.

End MoreRuns.

(** *** Inputs *)

Lemma valid_id_range_witness :
  exists i, atoi (c "2000001") = Some i /\ 2000000 <= i <= 2999999 /\
    in_table (hash i) = true.
Proof. apply (valid_id_range (c "2000001")). reflexivity. Defined.

Lemma validateCommand_unambiguous_witness :
  same_nocase (c "INSERT") (c "insert") /\ c "ID=1" = c "ID=1" /\
  skip_spaces (c "ID=1") = c "ID=1".
Proof.
  apply (validateCommand_unambiguous (c "  Insert   ID=1") (c "INSERT") (c "insert")).
  - reflexivity.
  - reflexivity.
  - unfold word. apply Forall_forall. intros ch Hch.
    apply list_elem_of_In in Hch. simpl in Hch.
    repeat (destruct Hch as [<-|Hch]; [reflexivity|]). done.
  - unfold word. apply Forall_forall. intros ch Hch.
    apply list_elem_of_In in Hch. simpl in Hch.
    repeat (destruct Hch as [<-|Hch]; [reflexivity|]). done.
Defined.

Section ParsedRuns.
#[local] Existing Instance decimal_float.

Lemma parseCommand_accepts_valid_fields_witness :
  2000000 <= 2000002 <= 2999999 /\
  (length (c "Bobby") < MAX_NAME)%nat /\ toTitleCase (c "Bobby") = c "Bobby" /\
  (length (@nil ascii) < MAX_PROGRAMME)%nat /\ toTitleCase [] = [] /\
  (f_zero = f_zero \/ mark_in_range f_zero) /\
  (OPTIONAL_REQUIRED = OPTIONAL_NONE -> c "Bobby" = [] /\ @nil ascii = [] /\ f_zero = f_zero) /\
  (OPTIONAL_REQUIRED = OPTIONAL_REQUIRED -> true = true).
Proof.
  apply (parseCommand_accepts_valid_fields (c "ID=2000002 NAME=bobby") true OPTIONAL_REQUIRED
           (mkParsed 2000002 (c "Bobby") [] f_zero [true; true; false; false] true)).
  reflexivity.
Defined.

End ParsedRuns.

Section DisplayRuns.
#[local] Existing Instance decimal_float.
#[local] Existing Instance decimal_summary.

Lemma summary_statistics_witness :
  exists s, summary_stats (Some (c "ee")) [amy; bob; cy] = Some s /\
    total s = Z.of_nat (length (List.filter (in_summary (Some (c "ee"))) [amy; bob; cy])) /\
    sum s = foldl f_add f_zero
              (mark <$> List.filter (in_summary (Some (c "ee"))) [amy; bob; cy]) /\
    (forall r, r ∈ List.filter (in_summary (Some (c "ee"))) [amy; bob; cy] ->
       f_lt (maxMark s) (mark r) = false /\ f_lt (mark r) (minMark s) = false) /\
    (List.filter (in_summary (Some (c "ee"))) [amy; bob; cy] <> [] ->
     (forall r, r ∈ List.filter (in_summary (Some (c "ee"))) [amy; bob; cy] ->
        f_lt f_neg_one (mark r) = true) ->
     exists r, r ∈ List.filter (in_summary (Some (c "ee"))) [amy; bob; cy] /\
       maxMark s = mark r) /\
    (List.filter (in_summary (Some (c "ee"))) [amy; bob; cy] <> [] ->
     (forall r, r ∈ List.filter (in_summary (Some (c "ee"))) [amy; bob; cy] ->
        f_lt (mark r) f_101 = true) ->
     exists r, r ∈ List.filter (in_summary (Some (c "ee"))) [amy; bob; cy] /\
       minMark s = mark r).
Proof.
  apply (summary_statistics (Some (c "ee")) [amy; bob; cy] decimal_lt_order).
  by vm_compute.
Defined.

Lemma nothing_before_open_witness :
  exists st', main_round [c "SHOW ALL"; c "OPEN"] (fresh_store (data_dir [amy])) =
                Some (Continue st' [c "OPEN"]) /\
    prints_only (fresh_store (data_dir [amy])) st'.
Proof.
  apply (nothing_before_open (c "SHOW ALL") [c "OPEN"] (fresh_store (data_dir [amy]))).
  - reflexivity.
  - reflexivity.
  - reflexivity.
Defined.

Lemma show_and_query_only_print_witness :
  exists st', main_round [c "show all sort by mark desc"; c "QUIT"] opened3
                = Some (Continue st' [c "QUIT"]) /\
    prints_only opened3 st'.
Proof.
  destruct (show_and_query_only_print (c "show all sort by mark desc")
              (c "all sort by mark desc") [c "QUIT"] opened3) as [Honly Hback].
  - left. reflexivity.
  - destruct (Hback [amy; bob; cy] (proj1 opened3_holds)) as (r & Hr); [by vm_compute|].
    destruct (Honly r Hr) as (st' & -> & Hp). exists st'. split; [exact Hr|exact Hp].
Defined.

Lemma delete_asks_first_witness :
  exists st', main_round [c "delete id=2000002"; c " y "; c "SHOW ALL"] opened3
                = Some (Continue st' [c "SHOW ALL"]) /\
    take 3 (drop (length (stdout opened3)) (stdout st')) =
      [prompt; delete_question (id bob); confirm_prompt] /\
    if answers (cstr (c " y ")) "Y"
    then records st' = Some ([amy] ++ [cy]) /\
         undoStack st' = DELETE_OP bob :: undoStack opened3 /\ dbModified st' = true
    else prints_only opened3 st'.
Proof.
  apply (delete_asks_first (c "delete id=2000002") (c " y ") (c "id=2000002")
           [c "SHOW ALL"] opened3 [amy] bob [cy]
           (mkParsed 2000002 [] [] f_zero [true; false; false; false] false)).
  - exact (proj1 opened3_holds).
  - exact (proj1 (proj2 opened3_holds)).
  - reflexivity.
  - reflexivity.
  - reflexivity.
Defined.

Lemma restore_ignores_its_arguments_witness :
  exists st', main_round [c "RESTORE now"; c "Y"; c "SHOW ALL"] opened_with_backup
                = Some (Continue st' [c "SHOW ALL"]) /\
    holds st' [cy] /\ undoStack st' = RESTORE_OP :: undoStack opened_with_backup /\
    take 4 (drop (length (stdout opened_with_backup)) (stdout st')) =
      [prompt; enter_valid; restore_warning; confirm_prompt].
Proof.
  destruct opened_with_backup_linked as (l & Hl & _).
  apply (restore_ignores_its_arguments (c "RESTORE now") (c "now") (c "Y") [c "SHOW ALL"]
           opened_with_backup l (serialise [cy]) [cy]).
  - exact Hl.
  - by vm_compute.
  - reflexivity.
  - done.
  - reflexivity.
  - exact backup_file.
  - apply parse_file_serialise, one_storable.
  - exact cy_key.
  - exact cy_bucket.
Defined.

Lemma id_alone_is_accepted_witness :
  exists i, atoi (c "2000001") = Some i /\
    parseCommand (c "ID=" ++ c "2000001") true OPTIONAL_ALLOWED_EMPTY =
      if OPTIONAL_ALLOWED_EMPTY =? OPTIONAL_REQUIRED then
        reject "CMS: At least one of NAME, PROGRAMME, or MARK must be provided for UPDATE."
      else Accepted (mkParsed i [] [] f_zero [true; false; false; false] false).
Proof.
  apply (id_alone_is_accepted (c "2000001") true OPTIONAL_ALLOWED_EMPTY). reflexivity.
Defined.

Lemma table_rows_aligned_witness :
  row (display_name_width [amy; bob; cy]) (display_prog_width [amy; bob; cy]) bob 0 =
    [ (if (0 =? 0)%nat then pad_right 8 (fmt_d (id bob)) else pad_right 8 []) ++ [SPACE];
      pad_right (display_name_width [amy; bob; cy]) (chunk NAME_WIDTH 0 (name bob)) ++ [SPACE];
      pad_right (display_prog_width [amy; bob; cy]) (chunk PROG_WIDTH 0 (programme bob))
        ++ [SPACE] ]
    ++ (if (0 =? 0)%nat then [fmt_1f (mark bob)] else []) ++ [[LF]] /\
  length ((if (0 =? 0)%nat then pad_right 8 (fmt_d (id bob)) else pad_right 8 []) ++ [SPACE])
    = 9%nat /\
  length (pad_right (display_name_width [amy; bob; cy]) (chunk NAME_WIDTH 0 (name bob))
            ++ [SPACE])
    = S (display_name_width [amy; bob; cy]) /\
  length (pad_right (display_prog_width [amy; bob; cy]) (chunk PROG_WIDTH 0 (programme bob))
            ++ [SPACE])
    = S (display_prog_width [amy; bob; cy]) /\
  concat (map (fun i => chunk NAME_WIDTH i (name bob)) (seq 0 (record_lines bob))) = name bob /\
  concat (map (fun i => chunk PROG_WIDTH i (programme bob)) (seq 0 (record_lines bob)))
    = programme bob.
Proof.
  apply (table_rows_aligned [amy; bob; cy] bob 0).
  - exact bob_listed.
  - vm_compute. lia.
Defined.

Lemma show_all_by_words_witness :
  show_request (c "  all   SORT  by mark   Desc ") =
    all_words [c "SORT"; c "by"; c "mark"; c "Desc"].
Proof.
  apply (show_all_by_words (c "  all   SORT  by mark   Desc ") (c "all")).
  - reflexivity.
  - reflexivity.
Defined.

End DisplayRuns.
